(** * Skill activator: registry merge, match scoring, rate-limited AI client
    and index regeneration

    A shallow embedding of [src/skill_activator.py] and
    [src/index_generator.py].

    Conventions.
    - A Python [str] is the list of its Unicode code points ([pystr]); [len],
      slicing, [in], [startswith] and [endswith] are the list operations.
    - A Python [float] is a rational ([Q]).  The raw score of a skill is a
      sum of multiples of 0.5 under the default weights, which doubles add
      without rounding.  The division by the maximum and the product with
      the priority multiplier (lines 629-632) are rounded in the code and
      exact here: what is stated of a normalised score is its sign, its
      order against another score, or an equality of two scores computed
      from the same operands, and none of these depends on the rounding.
    - A Python [dict] whose iteration order is observed is an association list
      in insertion order ([pydict]); the skill map of an index artifact, whose
      order is never observed, is a [gmap].
    - YAML documents enter as the value [yaml.safe_load] returns, restricted to
      well-typed fields (a list of strings where the code expects one).  A
      document on which the loader raises (a frontmatter or a [skills] member
      that is not a mapping, a [confidence_threshold] that [float] refuses:
      lines 342, 366, 391, 411) is outside these types: [SkillActivator()]
      then raises and builds no registry.  The statements on the registry are
      about the runs in which it is built.
    - In the same way an answer of the AI on which [generate_index] raises
      before it writes (a truthy value that is not an object, an object whose
      [keywords] is not a mapping: lines 678-681) is outside [Extracted]; the
      statements on the written index are about the runs that write it. *)

From Stdlib Require Import QArith Lqa Lia ZArith NArith String Ascii List.
From stdpp Require Import base decidable option list gmap sorting.
Import ListNotations.

Local Open Scope list_scope.

(** ** Python strings *)

Abbreviation pystr := (list N).

Definition py (s : string) : pystr := map N_of_ascii (list_ascii_of_string s).

(** [s.startswith(p)] *)
Fixpoint startswith (s p : pystr) : bool :=
  match p, s with
  | [], _ => true
  | _ :: _, [] => false
  | c :: p', d :: s' => (c =? d)%N && startswith s' p'
  end.

(** [s.endswith(p)] *)
Definition endswith (s p : pystr) : bool := startswith (rev s) (rev p).

(** [needle in hay] on strings *)
Fixpoint contains (needle hay : pystr) : bool :=
  startswith hay needle ||
  match hay with
  | [] => false
  | _ :: hay' => contains needle hay'
  end.

(** [x in l] on a list or a set of strings *)
Definition str_in (x : pystr) (l : list pystr) : bool := bool_decide (x ∈ l).

(** [set(l)] *)
Definition py_set (l : list pystr) : gset pystr := list_to_set l.

(** ** Python dicts in insertion order *)

Section pydict.
Context {V : Type}.

Definition pydict := list (pystr * V).

Fixpoint dict_get (k : pystr) (d : pydict) : option V :=
  match d with
  | [] => None
  | (k', v) :: d' => if bool_decide (k = k') then Some v else dict_get k d'
  end.

(** [d[k] = v]: an existing key keeps its position *)
Fixpoint dict_set (k : pystr) (v : V) (d : pydict) : pydict :=
  match d with
  | [] => [(k, v)]
  | (k', v') :: d' =>
      if bool_decide (k = k') then (k, v) :: d' else (k', v') :: dict_set k v d'
  end.

Definition dict_values (d : pydict) : list V := map snd d.

End pydict.

Arguments pydict V : clear implicits.

(** ** SkillMetadata and the files it is loaded from *)

Inductive Source := SrcProject | SrcUser | SrcSystem | SrcCustom.

Definition path := list pystr.

Record SkillMetadata := mkSkill {
  name : pystr;
  skill_path : path;
  source : Source;
  priority : pystr;
  enforcement : pystr;
  description : pystr;
  keywords_korean : list pystr;
  keywords_english : list pystr;
  tags : list pystr;
  use_cases : list pystr;
  intent_patterns : list pystr;
  auto_activate : bool;
  confidence_threshold : Q
}.

(** The [keywords] key of a SKILL.md frontmatter: a mapping, a flat list, or
    anything else.  Inside a mapping, [None] stands for a missing key or a
    value that is not a list. *)
Inductive FmKeywords :=
| KwDict (korean english : option (list pystr))
| KwList (flat : list pystr)
| KwOther.

(** A truthy frontmatter mapping.  [None] in a field is a missing key (for
    [fm_tags] and [fm_use_cases] also a value that is not a list); a missing
    [keywords] key is [KwDict None None], the default [{}]. *)
Record Frontmatter := mkFm {
  fm_name : option pystr;
  fm_priority : option pystr;
  fm_enforcement : option pystr;
  fm_description : option pystr;
  fm_keywords : FmKeywords;
  fm_tags : option (list pystr);
  fm_use_cases : option (list pystr);
  fm_auto_activate : option bool;
  fm_confidence_threshold : option Q
}.

(** What [_load_skill_from_directory] finds at [skill_dir / 'SKILL.md']:
    no file, a file that cannot be read, or a text whose frontmatter
    [_parse_yaml_frontmatter] returns ([None]: absent, unparsable or empty). *)
Inductive SkillMd :=
| MdMissing
| MdUnreadable
| MdText (frontmatter : option Frontmatter).

Record DirItem := mkItem {
  item_name : pystr;
  item_is_dir : bool;
  item_skill_md : SkillMd
}.

(** One entry of the [skills] mapping of an INDEX.yaml; [None] in a field is a
    missing key (for the keyword lists also a [keywords] value that is not a
    mapping). *)
Record IndexEntry := mkEntry {
  ie_priority : option pystr;
  ie_enforcement : option pystr;
  ie_description : option pystr;
  ie_keywords_korean : option (list pystr);
  ie_keywords_english : option (list pystr);
  ie_tags : option (list pystr);
  ie_use_cases : option (list pystr);
  ie_intent_patterns : option (list pystr);
  ie_auto_activate : option bool;
  ie_confidence_threshold : option Q
}.

(** The INDEX.yaml of a skills directory: no file, a file that cannot be
    loaded (read or parse error, or no yaml module), or the loaded data:
    [None] when the data is falsy or has no [skills] key, else the entries in
    file order, [None] for an entry that is not a mapping. *)
Inductive IndexYaml :=
| IdxMissing
| IdxUnloadable
| IdxData (skills : option (list (pystr * option IndexEntry))).

(** A discovered skills directory: its path, what [iterdir()] yields, and its
    INDEX.yaml. *)
Record SkillsDir := mkDir {
  dir_path : path;
  dir_items : list DirItem;
  dir_index : IndexYaml
}.

Definition medium : pystr := py "medium".
Definition suggested : pystr := py "suggested".
Definition half : Q := 1 # 2.

(** [(skills_dir / skill_name).exists()] *)
Definition child_exists (d : SkillsDir) (n : pystr) : bool :=
  existsb (fun it => bool_decide (item_name it = n)) (dir_items d)
  || (bool_decide (n = py "INDEX.yaml")
      && match dir_index d with IdxMissing => false | _ => true end).

(** ** SkillActivator: discovery and loading *)

(** The directories [_discover_skill_paths] probes; [None] is a path that
    does not exist or is not a directory. *)
Record FileSystem := mkFs {
  fs_project_claude_skills : option SkillsDir;
  fs_project_skills : option SkillsDir;
  fs_user_skills : option SkillsDir;
  fs_system_skills : option SkillsDir;
  fs_custom_skills : list (option SkillsDir)
}.

Definition found (o : option SkillsDir) (s : Source) : list (SkillsDir * Source) :=
  match o with
  | Some d => [(d, s)]
  | None => []
  end.

Definition _discover_skill_paths (skip_system skip_user : bool) (fs : FileSystem)
  : list (SkillsDir * Source) :=
  found (fs_project_claude_skills fs) SrcProject
  ++ found (fs_project_skills fs) SrcProject
  ++ (if skip_user then [] else found (fs_user_skills fs) SrcUser)
  ++ (if skip_system then [] else found (fs_system_skills fs) SrcSystem)
  ++ flat_map (fun o => found o SrcCustom) (fs_custom_skills fs).

Definition or_list (o : option (list pystr)) : list pystr := default [] o.

Definition _load_skill_from_directory (parent : path) (it : DirItem) (src : Source)
  : option SkillMetadata :=
  let skill_dir := parent ++ [item_name it] in
  match item_skill_md it with
  | MdMissing => None
  | MdUnreadable => None
  | MdText None =>
      Some (mkSkill (item_name it) skill_dir src medium suggested
              (py "Skill from " ++ item_name it) [] [] [] [] [] true half)
  | MdText (Some fm) =>
      let '(kk, ke) :=
        match fm_keywords fm with
        | KwDict k e => (or_list k, or_list e)
        | KwList l => ([], l)
        | KwOther => ([], [])
        end in
      Some (mkSkill
              (default (item_name it) (fm_name fm))
              skill_dir
              src
              (default medium (fm_priority fm))
              (default suggested (fm_enforcement fm))
              (default [] (fm_description fm))
              kk
              ke
              (or_list (fm_tags fm))
              (or_list (fm_use_cases fm))
              []
              (default true (fm_auto_activate fm))
              (default half (fm_confidence_threshold fm)))
  end.

Definition index_entry_skill (d : SkillsDir) (src : Source) (skill_name : pystr)
  (e : IndexEntry) : SkillMetadata :=
  mkSkill
    skill_name
    (if child_exists d skill_name then dir_path d ++ [skill_name] else dir_path d)
    src
    (default medium (ie_priority e))
    (default suggested (ie_enforcement e))
    (default [] (ie_description e))
    (or_list (ie_keywords_korean e))
    (or_list (ie_keywords_english e))
    (or_list (ie_tags e))
    (or_list (ie_use_cases e))
    (or_list (ie_intent_patterns e))
    (default true (ie_auto_activate e))
    (default half (ie_confidence_threshold e)).

Definition _load_index_yaml (d : SkillsDir) (src : Source) : pydict SkillMetadata :=
  match dir_index d with
  | IdxMissing => []
  | IdxUnloadable => []
  | IdxData None => []
  | IdxData (Some entries) =>
      fold_left
        (fun skills '(skill_name, skill_data) =>
           match skill_data with
           | None => skills
           | Some e => dict_set skill_name (index_entry_skill d src skill_name e) skills
           end)
        entries []
  end.

(** Lines 438-454 of [_load_all_skills]: the in-place update of [existing]. *)
Definition merge_indexed (existing indexed_skill : SkillMetadata) : SkillMetadata :=
  let kk :=
    if bool_decide (keywords_korean existing = []) &&
       negb (bool_decide (keywords_korean indexed_skill = []))
    then keywords_korean indexed_skill else keywords_korean existing in
  let ke :=
    if bool_decide (keywords_english existing = []) &&
       negb (bool_decide (keywords_english indexed_skill = []))
    then keywords_english indexed_skill else keywords_english existing in
  let tg :=
    if bool_decide (tags existing = []) && negb (bool_decide (tags indexed_skill = []))
    then tags indexed_skill else tags existing in
  let uc :=
    if bool_decide (use_cases existing = []) &&
       negb (bool_decide (use_cases indexed_skill = []))
    then use_cases indexed_skill else use_cases existing in
  let pr :=
    if negb (bool_decide (priority indexed_skill = medium))
    then priority indexed_skill else priority existing in
  let ct :=
    if negb (Qeq_bool (confidence_threshold indexed_skill) half)
    then confidence_threshold indexed_skill else confidence_threshold existing in
  let aa :=
    if negb (auto_activate indexed_skill) then false else auto_activate existing in
  mkSkill (name existing) (skill_path existing) (source existing) pr
    (enforcement existing) (description existing) kk ke tg uc
    (intent_patterns existing) aa ct.

(** One iteration of the loop over [indexed_skills.items()]. *)
Definition merge_index_entry (skills : pydict SkillMetadata)
  (e : pystr * SkillMetadata) : pydict SkillMetadata :=
  let '(skill_name, indexed_skill) := e in
  match dict_get skill_name skills with
  | Some existing => dict_set skill_name (merge_indexed existing indexed_skill) skills
  | None => dict_set skill_name indexed_skill skills
  end.

(** One iteration of the loop over the discovered paths: the SKILL.md
    directories first, then the INDEX.yaml of the same directory. *)
Definition load_skill_path (skills : pydict SkillMetadata) (p : SkillsDir * Source)
  : pydict SkillMetadata :=
  let '(d, src) := p in
  let skills :=
    fold_left
      (fun skills it =>
         if item_is_dir it then
           match _load_skill_from_directory (dir_path d) it src with
           | Some skill => dict_set (name skill) skill skills
           | None => skills
           end
         else skills)
      (dir_items d) skills in
  match dir_index d with
  | IdxMissing => skills
  | _ => fold_left merge_index_entry (_load_index_yaml d src) skills
  end.

(** [self.skills] after [_load_all_skills], from the empty dict. *)
Definition _load_all_skills (skill_paths : list (SkillsDir * Source))
  : pydict SkillMetadata :=
  fold_left load_skill_path (rev skill_paths) [].

(** ** The Python runtime the scorer calls into

    [str.lower], the character classes of [re] and of [str.split], and the
    three regular-expression searches of the scorer are the interpreter's, not
    the repository's: they are parameters of the development. *)
Record PyRuntime := mkRuntime {
  (** [s.lower()] *)
  str_lower : pystr → pystr;
  (** the class [\w] *)
  re_word : N → bool;
  (** the class [\s] *)
  re_space : N → bool;
  (** [c.isspace()], the separators of [str.split()] and [str.strip()] *)
  str_isspace : N → bool;
  (** [re.search(pattern, text, re.IGNORECASE)]; [None] is [re.error] *)
  re_search_ignorecase : pystr → pystr → option bool;
  (** [re.search(rf'\b{re.escape(kw)}\b', text)]; [None] is [re.error] *)
  re_search_bounded : pystr → pystr → option bool;
  (** [re.findall(r'\b[a-zA-Z]{3,}\b', s)] *)
  re_findall_words : pystr → list pystr
}.

(** ** SkillActivator: keyword extraction and match scoring *)

Local Open Scope Q_scope.

Record KeywordWeights := mkWeights {
  exact_match : Q;
  compound_match : Q;
  partial_match : Q;
  tag_match : Q;
  use_case_match : Q
}.

Record Config := mkConfig {
  cfg_confidence_threshold : Q;
  cfg_max_suggestions : Z;
  cfg_priority_multipliers : pydict Q;
  cfg_keyword_weights : KeywordWeights
}.

Definition DEFAULT_WEIGHTS : KeywordWeights :=
  mkWeights 3 (5 # 2) (3 # 2) 2 (5 # 2).

Definition DEFAULT_CONFIG : Config :=
  mkConfig half 3
    [(py "high", 3 # 2); (py "medium", 1); (py "low", 7 # 10)]
    DEFAULT_WEIGHTS.

Definition KOREAN_PARTICLES : list pystr :=
  [ [44032]; [51060]; [51008]; [45716]; [51012]; [47484]; [50640];
    [50640; 49436]; [50640; 44172]; [44760; 49436]; [51004; 47196]; [47196];
    [51032]; [46020]; [47564]; [48512; 53552]; [44620; 51648]; [50752];
    [44284] ]%N.

Definition STOPWORDS : list pystr :=
  [ [54644; 51480]; [51328]; [51060; 44144]; [51200; 44144]; [44536; 44144];
    [47952]; [47956; 44032]; [50612; 46523; 44172]; [50780]; [50616; 51228];
    [50612; 46356]; [45572; 44396]; [47924; 50631]; [50612; 46500];
    [51080; 50612]; [50630; 50612]; [54616; 45716]; [46104; 45716];
    [44057; 51008]; [51080; 45716]; [50630; 45716]; [54644; 49436];
    [54644; 50836]; [54633; 45768; 45796]; [51060; 45796];
    [51077; 45768; 45796]; [49352; 47196; 50868]; [54616; 47140; 44256];
    [51080; 45716; 45936]; [49910; 50612]; [47564; 46308; 50612; 51480];
    [51676; 51480]; [45320; 47924]; [48373; 51105; 54620];
    [48373; 51105; 54644; 49436]; [52286; 44256]; [54616; 44256];
    [49910; 51008]; [54596; 50836] ]%N
  ++ map py
  [ "the"; "a"; "an"; "is"; "are"; "was"; "were"; "be"; "been"; "being";
    "have"; "has"; "had"; "do"; "does"; "did"; "will"; "would"; "should";
    "could"; "can"; "may"; "might"; "must"; "shall"; "this"; "that"; "these";
    "those"; "i"; "you"; "he"; "she"; "it"; "we"; "they"; "me"; "him"; "her";
    "us"; "them"; "my"; "your"; "his"; "its"; "our"; "their"; "what"; "which";
    "who"; "when"; "where"; "why"; "how"; "please"; "just"; "some"; "need";
    "want"; "help"; "with"; "for"; "about"; "like"; "make"; "create"; "new";
    "to"; "of"; "in"; "on"; "at"; "by"; "from"; "or"; "and"; "as"; "so";
    "if"; "then"; "than"; "but"; "also"; "only"; "not"; "no"; "yes"; "all";
    "any"; "each"; "every"; "both"; "few"; "more"; "most"; "other"; "such" ]%string.

(** The local [stopwords] of [_calculate_match_score]. *)
Definition score_stopwords : list pystr :=
  map py
  [ "the"; "and"; "for"; "this"; "that"; "with"; "from"; "use"; "when";
    "should"; "will"; "can"; "are"; "was"; "were"; "been"; "have"; "has";
    "had"; "not"; "but"; "what"; "all"; "your"; "you"; "they"; "them";
    "their"; "which"; "who"; "whom"; "how"; "any"; "some"; "such"; "more";
    "most"; "other"; "into"; "over"; "only"; "than"; "then"; "also"; "just";
    "about"; "using"; "before"; "after"; "during"; "like"; "need"; "needs" ]%string.

(** The particle loop of [_extract_keywords]: the first particle, in list
    order, that [w] ends with and that leaves [len(w) > len(particle) + 1]
    is cut off; [w[:-len(particle)]] is [take (len w - len particle) w]. *)
Fixpoint strip_particle (particles : list pystr) (w : pystr) : pystr :=
  match particles with
  | [] => w
  | particle :: rest =>
      if endswith w particle && (length particle + 1 <? length w)%nat
      then take (length w - length particle)%nat w
      else strip_particle rest w
  end.

(** [s.split()]: the maximal runs of characters that are not separators. *)
Fixpoint split_on (sep : N → bool) (s : pystr) (cur : pystr) : list pystr :=
  match s with
  | [] => if bool_decide (cur = []) then [] else [cur]
  | c :: s' =>
      if sep c
      then (if bool_decide (cur = []) then [] else [cur]) ++ split_on sep s' []
      else split_on sep s' (cur ++ [c])
  end.

Fixpoint lstrip (sep : N → bool) (s : pystr) : pystr :=
  match s with
  | [] => []
  | c :: s' => if sep c then lstrip sep s' else s
  end.

(** [s.strip()] *)
Definition strip (sep : N → bool) (s : pystr) : pystr :=
  rev (lstrip sep (rev (lstrip sep s))).

(** The ranges ㄱ-ㅎ, ㅏ-ㅣ and 가-힣 of the normalising pattern. *)
Definition is_hangul (c : N) : bool :=
  ((12593 <=? c) && (c <=? 12622) || (12623 <=? c) && (c <=? 12643)
   || (44032 <=? c) && (c <=? 55203))%N.

(** A set of consumed query keywords with [add]. *)
Definition set_add (x : pystr) (m : gset pystr) : gset pystr := {[x]} ∪ m.

Definition sumQ (l : list Q) : Q := fold_right Qplus 0 l.

(** A count as a score. *)
Definition natQ (n : nat) : Q := inject_Z (Z.of_nat n).

Definition absdiff (a b : nat) : nat := ((a - b) + (b - a))%nat.

Section Scorer.
Variable rt : PyRuntime.
Variable config : Config.

Definition _extract_keywords (text : pystr) : list pystr :=
  let normalized :=
    map (fun c => if re_word rt c || re_space rt c || is_hangul c then c else 32%N)
      (str_lower rt text) in
  fold_left
    (fun words w =>
       let w := strip (str_isspace rt) w in
       if (length w <? 2)%nat then words
       else
         let word_clean := strip_particle KOREAN_PARTICLES w in
         if negb (bool_decide (word_clean = [])) && negb (str_in word_clean STOPWORDS)
         then words ++ [word_clean] else words)
    (split_on (str_isspace rt) normalized []) [].

Definition _check_word_boundary (keyword text : pystr) : bool :=
  match re_search_bounded rt (str_lower rt keyword) (str_lower rt text) with
  | Some b => b
  | None => contains (str_lower rt keyword) (str_lower rt text)
  end.

Definition _check_intent_patterns (patterns : list pystr) (text : pystr) : bool :=
  existsb
    (fun pattern =>
       match re_search_ignorecase rt pattern text with
       | Some b => b
       | None => false
       end)
    patterns.

(** The words of [text] the scorer keeps: [\b[a-zA-Z]{3,}\b] matches of the
    lowercased text outside the local stopword list. *)
Definition content_words (text : pystr) : list pystr :=
  filter (fun w => negb (str_in w score_stopwords))
    (re_findall_words rt (str_lower rt text)).

Definition weights : KeywordWeights := cfg_keyword_weights config.

(** [skill_keywords] as first built (line 520). *)
Definition flat_keywords (skill : SkillMetadata) : list pystr :=
  map (str_lower rt) (keywords_korean skill ++ keywords_english skill).

Definition use_case_keywords (skill : SkillMetadata) : gset pystr :=
  py_set (flat_map content_words (use_cases skill)).

Definition desc_keywords (skill : SkillMetadata) : gset pystr :=
  if bool_decide (description skill = []) then ∅
  else py_set (content_words (description skill)).

(** [skill_keywords] as the two matching passes see it (after line 557). *)
Definition skill_keywords (skill : SkillMetadata) : list pystr :=
  if bool_decide (flat_keywords skill = []) &&
     negb (bool_decide (desc_keywords skill = ∅))
  then elements (desc_keywords skill)
  else flat_keywords skill.

(** Lines 514-517. *)
Definition intent_bonus (skill : SkillMetadata) (original_message : pystr) : Q :=
  if negb (bool_decide (intent_patterns skill = [])) &&
     negb (bool_decide (original_message = [])) &&
     _check_intent_patterns (intent_patterns skill) original_message
  then exact_match weights * 2 else 0.

(** Lines 524-529. *)
Definition primary_bonus (skill : SkillMetadata) (original_message : pystr) : Q :=
  if negb (bool_decide (original_message = [])) &&
     negb (bool_decide (flat_keywords skill = []))
  then
    fold_left
      (fun score pk =>
         if _check_word_boundary pk (str_lower rt original_message)
         then score + exact_match weights * 2 else score)
      (take 3 (flat_keywords skill)) 0
  else 0.

(** [matching_parts] of line 566. *)
Definition matching_parts (user_keywords : list pystr) (skill_kw : pystr)
  : list pystr :=
  filter (fun uk => contains uk skill_kw && (2 <=? length uk)%nat) user_keywords.

(** One iteration of the compound-match loop (lines 565-570). *)
Definition compound_step (user_keywords : list pystr) (st : Q * gset pystr)
  (skill_kw : pystr) : Q * gset pystr :=
  let '(score, matched) := st in
  let parts := matching_parts user_keywords skill_kw in
  if (2 <=? length parts)%nat
  then (score + natQ (length parts) * compound_match weights,
        fold_left (fun m uk => set_add uk m) parts matched)
  else (score, matched).

(** The compound-match pass, from a running score and an empty set of
    consumed keywords. *)
Definition compound_pass (user_keywords : list pystr) (skill_kws : list pystr)
  (score : Q) : Q * gset pystr :=
  fold_left (compound_step user_keywords) skill_kws (score, ∅).

(** The bonus one skill keyword earns in the compound pass. *)
Definition compound_bonus (user_keywords : list pystr) (skill_kw : pystr) : Q :=
  let n := length (matching_parts user_keywords skill_kw) in
  if (2 <=? n)%nat then natQ n * compound_match weights else 0.

(** The query keywords that adding [k] to the query makes the compound
    pass consume through [skill_kw]: the single keyword that matched it
    before, when [k] matches it too. *)
Definition newly_consumed (user_keywords : list pystr) (k skill_kw : pystr)
  : list pystr :=
  if contains k skill_kw && (2 <=? length k)%nat
     && (length (matching_parts user_keywords skill_kw) =? 1)%nat
  then matching_parts user_keywords skill_kw else [].

Definition fuzzy_match (user_kw sk : pystr) : bool :=
  ((contains user_kw sk || contains sk user_kw)
   && (4 <=? Nat.min (length user_kw) (length sk))%nat
   && (absdiff (length user_kw) (length sk) <=? 3)%nat)
  || ((5 <=? length user_kw)%nat && (5 <=? length sk)%nat
      && (startswith sk (take 5 user_kw) || startswith user_kw (take 5 sk))).

(** The weight the first applicable rule of lines 578-604 gives [user_kw];
    [None] when no rule applies. *)
Definition keyword_rule (skill : SkillMetadata) (user_kw : pystr) : option Q :=
  if str_in user_kw (skill_keywords skill) then Some (exact_match weights)
  else if bool_decide (user_kw ∈ use_case_keywords skill)
       then Some (use_case_match weights)
  else if bool_decide (user_kw ∈ desc_keywords skill)
       then Some (partial_match weights)
  else if existsb (fuzzy_match user_kw) (skill_keywords skill)
       then Some (partial_match weights)
  else if str_in user_kw (map (str_lower rt) (tags skill))
       then Some (tag_match weights)
  else None.

(** One iteration of the per-keyword loop (lines 573-604). *)
Definition keyword_step (skill : SkillMetadata) (st : Q * gset pystr)
  (user_kw : pystr) : Q * gset pystr :=
  let '(score, matched) := st in
  if bool_decide (user_kw ∈ matched) then (score, matched)
  else match keyword_rule skill user_kw with
       | Some w => (score + w, set_add user_kw matched)
       | None => (score, matched)
       end.

Definition keyword_pass (skill : SkillMetadata) (user_keywords : list pystr)
  (st : Q * gset pystr) : Q * gset pystr :=
  fold_left (keyword_step skill) user_keywords st.

(** Lines 608-614. *)
Definition use_case_overlap_bonus (skill : SkillMetadata)
  (user_keywords : list pystr) (score : Q) : Q :=
  fold_left
    (fun score uc =>
       let uc_words := py_set (re_findall_words rt uc) in
       let overlap := py_set user_keywords ∩ uc_words in
       if (2 <=? size overlap)%nat
       then score + natQ (size overlap) * (1 # 2) else score)
    (map (str_lower rt) (use_cases skill)) score.

(** Lines 618-624. *)
Definition stemming_bonus (skill : SkillMetadata) (user_keywords : list pystr)
  (score : Q) : Q :=
  fold_left
    (fun score user_kw =>
       fold_left
         (fun score uc_kw =>
            if (4 <=? length user_kw)%nat && (4 <=? length uc_kw)%nat
               && (startswith uc_kw user_kw || startswith user_kw uc_kw)
            then score + 1 else score)
         (elements (use_case_keywords skill)) score)
    user_keywords score.

(** Lines 510-624: the bonuses and the two matching passes, with the raw
    score and the set [matched_user_keywords] they end on. *)
Definition score_passes (user_keywords : list pystr) (skill : SkillMetadata)
  (original_message : pystr) : Q * gset pystr :=
  let score := 0 + intent_bonus skill original_message in
  let score := score + primary_bonus skill original_message in
  let st := compound_pass user_keywords (skill_keywords skill) score in
  let '(score, matched) := keyword_pass skill user_keywords st in
  let score := use_case_overlap_bonus skill user_keywords score in
  let score := stemming_bonus skill user_keywords score in
  (score, matched).

(** The state of [_calculate_match_score] at line 626: the raw score and the
    set [matched_user_keywords].  The two early returns give score [0.0] and
    consume nothing. *)
Definition score_state (user_keywords : list pystr) (skill : SkillMetadata)
  (original_message : pystr) : Q * gset pystr :=
  if bool_decide (user_keywords = []) then (0, ∅)
  else
    let max_possible_score :=
      natQ (length user_keywords) * exact_match weights in
    if Qeq_bool max_possible_score 0 then (0, ∅)
    else score_passes user_keywords skill original_message.

Definition raw_score (user_keywords : list pystr) (skill : SkillMetadata)
  (original_message : pystr) : Q :=
  fst (score_state user_keywords skill original_message).

Definition consumed (user_keywords : list pystr) (skill : SkillMetadata)
  (original_message : pystr) : gset pystr :=
  snd (score_state user_keywords skill original_message).

Definition _calculate_match_score (user_keywords : list pystr)
  (skill : SkillMetadata) (original_message : pystr) : Q :=
  let max_possible_score :=
    natQ (length user_keywords) * exact_match weights in
  if bool_decide (user_keywords = []) || Qeq_bool max_possible_score 0 then 0
  else
    let normalized_score :=
      raw_score user_keywords skill original_message / max_possible_score in
    let multiplier :=
      default 1 (dict_get (priority skill) (cfg_priority_multipliers config)) in
    normalized_score * multiplier.

(** The use-case overlap bonus one use case earns (lines 610-614). *)
Definition overlap_of (user_keywords : list pystr) (uc : pystr) : Q :=
  let n := size (py_set user_keywords ∩ py_set (re_findall_words rt uc)) in
  if (2 <=? n)%nat then natQ n * (1 # 2) else 0.

(** The stemming bonus one query keyword earns (lines 619-624). *)
Definition stems_of (skill : SkillMetadata) (user_kw : pystr) : Q :=
  sumQ (map (fun uc_kw =>
               if (4 <=? length user_kw)%nat && (4 <=? length uc_kw)%nat
                  && (startswith uc_kw user_kw || startswith user_kw uc_kw)
               then 1 else 0)
          (elements (use_case_keywords skill))).

(** The per-keyword pass in direct form: what it adds to the score, and the
    set it ends on, from the set [matched] of keywords already consumed. *)
Fixpoint keyword_gain (skill : SkillMetadata) (user_keywords : list pystr)
  (matched : gset pystr) : Q :=
  match user_keywords with
  | [] => 0
  | user_kw :: rest =>
      if bool_decide (user_kw ∈ matched) then keyword_gain skill rest matched
      else match keyword_rule skill user_kw with
           | Some w => w + keyword_gain skill rest (set_add user_kw matched)
           | None => keyword_gain skill rest matched
           end
  end.

Fixpoint keyword_matched (skill : SkillMetadata) (user_keywords : list pystr)
  (matched : gset pystr) : gset pystr :=
  match user_keywords with
  | [] => matched
  | user_kw :: rest =>
      if bool_decide (user_kw ∈ matched) then keyword_matched skill rest matched
      else match keyword_rule skill user_kw with
           | Some w => keyword_matched skill rest (set_add user_kw matched)
           | None => keyword_matched skill rest matched
           end
  end.

End Scorer.

(** ** SkillActivator.detect_skills *)

Record SkillActivator := mkActivator {
  sa_config : Config;
  sa_override_threshold : option Q;
  sa_skills : pydict SkillMetadata
}.

(** [__init__] after discovery: the registry is loaded once. *)
Definition new_activator (config : Config) (override_threshold : option Q)
  (skip_system skip_user : bool) (fs : FileSystem) : SkillActivator :=
  mkActivator config override_threshold
    (_load_all_skills (_discover_skill_paths skip_system skip_user fs)).

(** Lines 651-655: [x or y] yields [y] exactly when [x] is falsy, and the
    only falsy float is zero. *)
Definition applicable_threshold (override_threshold : option Q)
  (global_threshold : Q) (skill : SkillMetadata) : Q :=
  match override_threshold with
  | Some t => t
  | None =>
      if Qeq_bool (confidence_threshold skill) 0 then global_threshold
      else confidence_threshold skill
  end.

(** [matches.sort(key=lambda x: x[1], reverse=True)]: a stable sort, equal
    scores keep their order. *)
Fixpoint insert_desc {A} (x : A * Q) (l : list (A * Q)) : list (A * Q) :=
  match l with
  | [] => [x]
  | y :: l' => if Qle_bool (snd x) (snd y) then y :: insert_desc x l' else x :: l
  end.

Definition sort_desc {A} (l : list (A * Q)) : list (A * Q) :=
  fold_left (fun acc x => insert_desc x acc) l [].

(** [l[:n]] *)
Definition slice_to {A} (n : Z) (l : list A) : list A :=
  if (0 <=? n)%Z then take (Z.to_nat n) l
  else take (Z.to_nat (Z.of_nat (length l) + n)) l.

Definition detect_skills (rt : PyRuntime) (self : SkillActivator)
  (user_message : pystr) : list (SkillMetadata * Q) :=
  let user_keywords := _extract_keywords rt user_message in
  if bool_decide (user_keywords = []) then []
  else
    let global_threshold := cfg_confidence_threshold (sa_config self) in
    let matches :=
      fold_left
        (fun matches skill =>
           if negb (auto_activate skill) then matches
           else
             let score :=
               _calculate_match_score rt (sa_config self) user_keywords skill
                 user_message in
             let threshold :=
               applicable_threshold (sa_override_threshold self)
                 global_threshold skill in
             if Qle_bool threshold score then matches ++ [(skill, score)]
             else matches)
        (dict_values (sa_skills self)) [] in
    slice_to (cfg_max_suggestions (sa_config self)) (sort_desc matches).

(** ** The world of the index generator: clock, limiter, request log

    [time.time()] reads a clock that moves on its own between two readings
    by a latency taken from [clk_lags] (scheduling, the caller's own work);
    [time.sleep(d)] moves it by [d].  Requests are answered by an oracle
    indexed by the number of requests already sent. *)

Record Clock := mkClock {
  clk_now : Q;
  clk_lags : list Q
}.

(** [rpm] is a count of requests: a natural number. *)
Record RateLimiter := mkLimiter {
  rpm : nat;
  min_delay : Q;
  request_times : list Q;
  last_request_time : Q
}.

Definition new_limiter (rpm : nat) (min_delay : Q) : RateLimiter :=
  mkLimiter rpm min_delay [] 0.

Inductive Outcome :=
| Reply (text : pystr)
| Failure (error_str : pystr).

Record World := mkWorld {
  w_clock : Clock;
  w_limiter : RateLimiter;
  w_requests : list (pystr * Outcome);
  w_current_model : pystr
}.

Inductive Exn :=
| IndexError
| ValueError
| ApiError (error_str : pystr)
| AllModelsFailed (last_error : option pystr).

Inductive Res (A : Type) :=
| Val (a : A)
| Raise (e : Exn).
Arguments Val {A} a.
Arguments Raise {A} e.

Definition M (A : Type) : Type := World → Res A * World.

Definition ret {A} (a : A) : M A := fun w => (Val a, w).

Definition bind {A B} (m : M A) (k : A → M B) : M B :=
  fun w =>
    match m w with
    | (Val a, w') => k a w'
    | (Raise e, w') => (Raise e, w')
    end.

Definition raise {A} (e : Exn) : M A := fun w => (Raise e, w).

(** [try: m / except Exception as e:] hands the outcome of [m] to the
    handler code that follows. *)
Definition try_except {A} (m : M A) : M (Res A) :=
  fun w => let '(r, w') := m w in (Val r, w').

Notation "'let*' x ':=' m 'in' k" := (bind m (fun x => k))
  (at level 10, x name, m at level 200, k at level 200).
Notation "'run' m 'in' k" := (bind m (fun _ => k))
  (at level 10, m at level 200, k at level 200).

Definition get_limiter : M RateLimiter := fun w => (Val (w_limiter w), w).

Definition put_limiter (rl : RateLimiter) : M unit :=
  fun w => (Val tt, mkWorld (w_clock w) rl (w_requests w) (w_current_model w)).

(** [self.current_model = model] *)
Definition with_current_model (m : pystr) (w : World) : World :=
  mkWorld (w_clock w) (w_limiter w) (w_requests w) m.

Definition set_current_model (model : pystr) : M unit :=
  fun w => (Val tt, with_current_model model w).

Definition tick (c : Clock) : Clock :=
  match clk_lags c with
  | [] => c
  | lag :: lags => mkClock (clk_now c + lag) lags
  end.

(** [time.time()] *)
Definition time_time : M Q :=
  fun w =>
    let c := tick (w_clock w) in
    (Val (clk_now c),
     mkWorld c (w_limiter w) (w_requests w) (w_current_model w)).

Definition Qlt_bool (a b : Q) : bool := negb (Qle_bool b a).

(** [time.sleep(d)]; a negative [d] raises [ValueError]. *)
Definition time_sleep (d : Q) : M unit :=
  fun w =>
    if Qlt_bool d 0 then (Raise ValueError, w)
    else
      (Val tt,
       mkWorld (mkClock (clk_now (w_clock w) + d) (clk_lags (w_clock w)))
         (w_limiter w) (w_requests w) (w_current_model w)).

(** [[t for t in self.request_times if now - t < 60]] *)
Definition prune (now : Q) (times : list Q) : list Q :=
  filter (fun t => Qlt_bool (now - t) 60) times.

Definition set_request_times (times : list Q) : M unit :=
  let* rl := get_limiter in
  put_limiter (mkLimiter (rpm rl) (min_delay rl) times (last_request_time rl)).

(** RateLimiter.wait_if_needed *)
Definition wait_if_needed : M unit :=
  let* now := time_time in
  let* rl := get_limiter in
  let time_since_last := now - last_request_time rl in
  let* now :=
    if Qlt_bool time_since_last (min_delay rl)
    then run time_sleep (min_delay rl - time_since_last) in time_time
    else ret now in
  run set_request_times (prune now (request_times rl)) in
  let* rl := get_limiter in
  let* now :=
    if (rpm rl <=? length (request_times rl))%nat
    then
      match request_times rl with
      | [] => raise IndexError
      | oldest :: _ =>
          let wait_time := 60 - (now - oldest) + (1 # 10) in
          if Qlt_bool 0 wait_time
          then
            run time_sleep wait_time in
            let* now := time_time in
            run set_request_times (prune now (request_times rl)) in
            ret now
          else ret now
      end
    else ret now in
  let* rl := get_limiter in
  put_limiter (mkLimiter (rpm rl) (min_delay rl) (request_times rl ++ [now]) now).

(** The timestamps that [n] successive calls record, oldest first. *)
Fixpoint recorded_by (n : nat) (w : World) : list Q :=
  match n with
  | O => []
  | S n' =>
      match wait_if_needed w with
      | (Val _, w') => last_request_time (w_limiter w') :: recorded_by n' w'
      | (Raise _, w') => recorded_by n' w'
      end
  end.

(** [time.sleep(d)] on the clock alone. *)
Definition sleep_clock (d : Q) (c : Clock) : Clock :=
  mkClock (clk_now c + d) (clk_lags c).

(** [wait_if_needed] with the monad unfolded: the clock after the optional
    minimum-delay sleep, the pruned list, then either [IndexError] or the
    request recorded at the last reading. *)
Definition wait_direct (w : World) : Res unit * World :=
  let rl := w_limiter w in
  let c1 := tick (w_clock w) in
  let time_since_last := clk_now c1 - last_request_time rl in
  let c2 :=
    if Qlt_bool time_since_last (min_delay rl)
    then tick (sleep_clock (min_delay rl - time_since_last) c1)
    else c1 in
  let times2 := prune (clk_now c2) (request_times rl) in
  let record c times :=
    (Val tt,
     mkWorld c
       (mkLimiter (rpm rl) (min_delay rl) (times ++ [clk_now c]) (clk_now c))
       (w_requests w) (w_current_model w)) in
  if (rpm rl <=? length times2)%nat
  then
    match times2 with
    | [] =>
        (Raise IndexError,
         mkWorld c2 (mkLimiter (rpm rl) (min_delay rl) [] (last_request_time rl))
           (w_requests w) (w_current_model w))
    | oldest :: _ =>
        let wait_time := 60 - (clk_now c2 - oldest) + (1 # 10) in
        if Qlt_bool 0 wait_time
        then
          let c3 := tick (sleep_clock wait_time c2) in
          record c3 (prune (clk_now c3) times2)
        else record c2 times2
    end
  else record c2 times2.

(** ** AIClient.generate *)

Record AIConfig := mkAIConfig {
  provider : pystr;
  model : pystr;
  fallback_models : list pystr;
  rate_limit_rpm : nat;
  rate_limit_delay : Q;
  (** [range(max_retries)]: a negative count loops like zero *)
  max_retries : nat;
  retry_delay : Q;
  languages : list pystr
}.

(** [str(e)] *)
Definition exn_str (e : Exn) : pystr :=
  match e with
  | IndexError => py "list index out of range"
  | ValueError => py "sleep length must be non-negative"
  | ApiError error_str => error_str
  | AllModelsFailed last_error =>
      py "All models failed. Last error: " ++ default (py "None") last_error
  end.

Inductive ErrorClass := RateLimited | NotFound | ServerError | OtherError.

(** The tests of lines 397, 404 and 409, in that order. *)
Definition classify (lower : pystr → pystr) (error_str : pystr) : ErrorClass :=
  if contains (py "429") error_str || contains (py "rate") (lower error_str)
  then RateLimited
  else if contains (py "404") error_str
          || contains (py "not found") (lower error_str)
  then NotFound
  else if existsb (fun code => contains code error_str)
            (map py ["500"; "502"; "503"; "504"]%string)
  then ServerError
  else OtherError.

Section AIClient.
Variable lower : pystr → pystr.
(** The provider: the outcome of the [n]-th request, sent to a model. *)
Variable respond : nat → pystr → Outcome.
Variable config : AIConfig.

(** [_request_with_model]: one request against [model], logged. *)
Definition _request_with_model (model : pystr) : M pystr :=
  fun w =>
    let outcome := respond (length (w_requests w)) model in
    let w' :=
      mkWorld (w_clock w) (w_limiter w) (w_requests w ++ [(model, outcome)])
        (w_current_model w) in
    match outcome with
    | Reply text => (Val text, w')
    | Failure error_str => (Raise (ApiError error_str), w')
    end.

(** The [except] block of the retry loop at index [retry]: [next] is the
    rest of the loop ([continue], or falling off the end of the block), given
    the new [last_error]; [break] ends the loop. *)
Definition except_block (retry : nat) (e : Exn)
  (next : option pystr → M (pystr + option pystr)) : M (pystr + option pystr) :=
  let error_str := exn_str e in
  match classify lower error_str with
  | RateLimited =>
      let wait_time :=
        retry_delay config * natQ (retry + 1) * 2 in
      run time_sleep wait_time in next (Some error_str)
  | NotFound => ret (inr (Some error_str))
  | ServerError =>
      let wait_time :=
        retry_delay config * natQ (retry + 1) in
      run time_sleep wait_time in next (Some error_str)
  | OtherError =>
      if (Z.of_nat retry <? Z.of_nat (max_retries config) - 1)%Z
      then run time_sleep (retry_delay config) in next (Some error_str)
      else next (Some error_str)
  end.

(** The loop [for retry in range(max_retries)] from index [retry] with
    [remaining] iterations to go: [inl text] is the [return], [inr e] the end
    of the loop (exhausted or left by [break]) with [last_error = e]. *)
Fixpoint retry_loop (model : pystr) (retry remaining : nat)
  (last_error : option pystr) : M (pystr + option pystr) :=
  match remaining with
  | O => ret (inr last_error)
  | S remaining' =>
      let* r := try_except (run wait_if_needed in _request_with_model model) in
      match r with
      | Val text => ret (inl text)
      | Raise e => except_block retry e (retry_loop model (S retry) remaining')
      end
  end.

(** The loop over [models_to_try]. *)
Fixpoint model_loop (models : list pystr) (last_error : option pystr)
  : M pystr :=
  match models with
  | [] => raise (AllModelsFailed last_error)
  | model :: rest =>
      run set_current_model model in
      let* r := retry_loop model 0 (max_retries config) last_error in
      match r with
      | inl text => ret text
      | inr last_error => model_loop rest last_error
      end
  end.

Definition generate : M pystr :=
  model_loop (model config :: fallback_models config) None.

End AIClient.

(** A client just built: no request sent, a fresh limiter. *)
Definition new_client (config : AIConfig) (clock : Clock) : World :=
  mkWorld clock
    (new_limiter (rate_limit_rpm config) (rate_limit_delay config))
    [] (model config).

(** The requests a call of [generate] sends, in order, with their outcomes. *)
Definition request_trace (lower : pystr → pystr) (respond : nat → pystr → Outcome)
  (config : AIConfig) (w : World) : list (pystr * Outcome) :=
  drop (length (w_requests w)) (w_requests (snd (generate lower respond config w))).

(** ** IndexGenerator.generate_index *)

(** A value of a YAML or JSON document. *)
#[warnings="-register-all"]
Inductive pyval :=
| VNone
| VBool (b : bool)
| VNum (q : Q)
| VStr (s : pystr)
| VList (l : list pyval)
| VDict (d : list (pystr * pyval)).

(** An index artifact as loaded: its [skills] mapping and its other
    top-level keys. *)
Record Index := mkIndex {
  idx_header : pydict pyval;
  idx_skills : gmap pystr pyval
}.

(** The file at [output_path] before the run: missing, not parsable, a
    document without a [skills] member (falsy included), or an index. *)
Inductive ArtifactFile :=
| ArtMissing
| ArtUnparsable
| ArtNoSkills
| ArtIndex (index : Index).

(** The truthy JSON object the model answered with, by the keys
    [generate_index] reads; [None] is a missing key.  [keywords], when
    present, is a mapping: on any other value, as on a truthy answer that is
    not an object, lines 678-681 raise and the run writes nothing. *)
Record Extracted := mkExtracted {
  ex_priority : option pyval;
  ex_description : option pyval;
  ex_keywords : option (pydict pyval);
  ex_tags : option pyval;
  ex_use_cases : option pyval;
  ex_intent_patterns : option pyval;
  ex_confidence_threshold : option pyval
}.

Definition vstr (s : string) : pyval := VStr (py s).

(** [{lang: [] for lang in self.config.languages}] *)
Definition empty_keywords (langs : list pystr) : pydict pyval :=
  fold_left (fun d lang => dict_set lang (VList []) d) langs [].

(** [s.replace('-', ' ')] *)
Definition dashes_to_spaces (s : pystr) : pystr :=
  map (fun c => if (c =? 45)%N then 32%N else c) s.

(** Lines 683-692. *)
Definition extracted_entry (config : AIConfig) (metadata : Extracted) : pyval :=
  VDict
    [ (py "priority", default (vstr "medium") (ex_priority metadata));
      (py "description", default (vstr "") (ex_description metadata));
      (py "keywords",
       VDict (default (empty_keywords (languages config)) (ex_keywords metadata)));
      (py "tags", default (VList []) (ex_tags metadata));
      (py "use_cases", default (VList []) (ex_use_cases metadata));
      (py "intent_patterns", default (VList []) (ex_intent_patterns metadata));
      (py "auto_activate", VBool true);
      (py "confidence_threshold",
       default (VNum (7 # 10)) (ex_confidence_threshold metadata)) ].

(** Lines 697-710. *)
Definition fallback_entry (config : AIConfig) (skill_name : pystr) : pyval :=
  let fallback_keywords := empty_keywords (languages config) in
  let fallback_keywords :=
    match languages config with
    | [] => fallback_keywords
    | first :: _ =>
        dict_set first (VList [VStr (dashes_to_spaces skill_name)]) fallback_keywords
    end in
  VDict
    [ (py "priority", vstr "medium");
      (py "description", VStr (py "Skill: " ++ skill_name));
      (py "keywords", VDict fallback_keywords);
      (py "tags", VList []);
      (py "use_cases", VList []);
      (py "auto_activate", VBool true);
      (py "confidence_threshold", VNum (7 # 10)) ].

(** The index a run starts from when it does not merge (lines 632-655). *)
Definition fresh_index (config : AIConfig) : Index :=
  mkIndex
    [ (py "version", vstr "1.0");
      (py "generated_by", vstr "ai-index-generator");
      (py "ai_provider", VStr (provider config));
      (py "ai_model", VStr (model config));
      (py "activation_config",
       VDict
         [ (py "mode", vstr "suggest");
           (py "confidence_threshold", VNum (1 # 2));
           (py "max_suggestions", VNum 3);
           (py "priority_multipliers",
            VDict [ (py "high", VNum (3 # 2)); (py "medium", VNum 1);
                    (py "low", VNum (7 # 10)) ]) ]);
      (py "keyword_weights",
       VDict
         [ (py "exact_match", VNum 3); (py "compound_match", VNum (5 # 2));
           (py "partial_match", VNum (3 # 2)); (py "tag_match", VNum (8 # 10));
           (py "use_case_match", VNum 2) ]) ]
    ∅.

Section IndexGenerator.
Variable config : AIConfig.
(** [extract_skill_metadata(content, skill_name)] at the [i]-th iteration of
    the loop, as [generate_index] tests it: [None] is a falsy result (an
    error, unparsable or empty output). *)
Variable extract_skill_metadata : nat → pystr → pystr → option Extracted.

(** What [scan_skills_directory] returns: the skill names with the outcome
    of reading their SKILL.md ([None]: the read raises). *)
Definition Scanned := list (pystr * option pystr).

(** The body of the loop over [skills.items()], at iteration [i]. *)
Definition process_skill (i : nat) (skills : gmap pystr pyval)
  (s : pystr * option pystr) : gmap pystr pyval :=
  let '(skill_name, read) := s in
  match read with
  | None => skills
  | Some content =>
      match extract_skill_metadata i content skill_name with
      | Some metadata => <[skill_name := extracted_entry config metadata]> skills
      | None => <[skill_name := fallback_entry config skill_name]> skills
      end
  end.

(** The loop [for i, (skill_name, skill_path) in enumerate(skills.items(), 1)]
    from iteration [i]. *)
Fixpoint process_skills (i : nat) (todo : Scanned) (skills : gmap pystr pyval)
  : gmap pystr pyval :=
  match todo with
  | [] => skills
  | s :: rest => process_skills (S i) rest (process_skill i skills s)
  end.

(** [generate_index]: the index written to the output path, [None] when the
    run returns before writing. *)
Definition generate_index (all_skills : Scanned) (skills_filter : list pystr)
  (existing : ArtifactFile) : option Index :=
  let skills :=
    if bool_decide (skills_filter = []) then all_skills
    else filter (fun s => str_in (fst s) skills_filter) all_skills in
  if bool_decide (skills = []) then None
  else
    let existing_index :=
      if bool_decide (skills_filter = []) then None
      else match existing with
           | ArtIndex index => Some index
           | _ => None
           end in
    let index := default (fresh_index config) existing_index in
    Some (mkIndex (idx_header index)
            (process_skills 1 skills (idx_skills index))).

(** The artifact after the run: what was written, else what was there. *)
Definition artifact_after (all_skills : Scanned) (skills_filter : list pystr)
  (existing : ArtifactFile) : ArtifactFile :=
  match generate_index all_skills skills_filter existing with
  | Some index => ArtIndex index
  | None => existing
  end.

End IndexGenerator.

(** ** Predicates on request traces and recorded timestamps *)

(** A request that was answered with an error. *)
Definition failed (r : pystr * Outcome) : Prop :=
  match snd r with
  | Failure _ => True
  | Reply _ => False
  end.

(** A block of requests after which the client may go on to the next model:
    every request failed, and either all [retries] attempts were used or the
    last failure is classified as not-found. *)
Definition exhausted (lower : pystr → pystr) (retries : nat)
  (block : list (pystr * Outcome)) : Prop :=
  Forall failed block
  ∧ (length block = retries
     ∨ ∃ m e, last block = Some (m, Failure e) ∧ classify lower e = NotFound).

(** A request after which the retry loop tries the same model again: it
    failed, and the failure is not classified as not-found. *)
Definition retried (lower : pystr → pystr) (r : pystr * Outcome) : Prop :=
  match snd r with
  | Failure e => classify lower e ≠ NotFound
  | Reply _ => False
  end.

(** Only the last request of a block can be a reply or a not-found failure:
    every request that is followed by another one in the block was
    retried. *)
Definition retried_but_last (lower : pystr → pystr)
  (block : list (pystr * Outcome)) : Prop :=
  ∀ pre r post, block = pre ++ r :: post → post ≠ [] → retried lower r.

(** A trace that visits the models in order: one block of at most [retries]
    requests per model, in which a reply or a not-found failure ends the
    block at once, and a later request only after an exhausted block. *)
Fixpoint in_model_order (lower : pystr → pystr) (retries : nat)
  (models : list pystr) (trace : list (pystr * Outcome)) : Prop :=
  match models with
  | [] => trace = []
  | m :: rest =>
      ∃ block tail,
        trace = block ++ tail
        ∧ Forall (fun r => fst r = m) block
        ∧ (length block <= retries)%nat
        ∧ retried_but_last lower block
        ∧ (tail ≠ [] → exhausted lower retries block)
        ∧ in_model_order lower retries rest tail
  end.

(** A limiter that can no longer let a request through. *)
Definition dead (w : World) : Prop :=
  rpm (w_limiter w) = O ∧ request_times (w_limiter w) = [].

(** What holds between two calls of [wait_if_needed], for the list [hist] of
    all timestamps recorded so far: the latencies to come are not negative,
    the retained timestamps are the recorded ones less than 60 seconds before
    the last, they are at most [rpm], and the last recorded timestamp is the
    limiter's [last_request_time], not after the clock. *)
Definition limiter_inv (hist : list Q) (w : World) : Prop :=
  Forall (fun lag => 0 <= lag) (clk_lags (w_clock w))
  ∧ request_times (w_limiter w) = prune (last_request_time (w_limiter w)) hist
  ∧ (length (request_times (w_limiter w)) <= rpm (w_limiter w))%nat
  ∧ ∀ l, last hist = Some l →
         l = last_request_time (w_limiter w) ∧ l <= clk_now (w_clock w).

(** Consecutive timestamps are at least [d] apart. *)
Definition spaced (d : Q) (ts : list Q) : Prop :=
  ∀ i a b, ts !! i = Some a → ts !! S i = Some b → d <= b - a.

(** The number of timestamps in the 60 seconds that end at [s]. *)
Definition in_window (s : Q) (ts : list Q) : nat :=
  length (filter (fun t => Qlt_bool (s - 60) t && Qle_bool t s) ts).

(** ** An ASCII runtime

    The runtime on ASCII text, with patterns taken as literals; it serves to
    run the scorer and the client on examples. *)

Definition ascii_lower_char (c : N) : N :=
  if ((65 <=? c) && (c <=? 90))%N then (c + 32)%N else c.

Definition ascii_lower (s : pystr) : pystr := map ascii_lower_char s.

Definition ascii_letter (c : N) : bool :=
  ((65 <=? c) && (c <=? 90) || (97 <=? c) && (c <=? 122))%N.

Definition ascii_word (c : N) : bool :=
  (ascii_letter c || (48 <=? c) && (c <=? 57) || (c =? 95))%N.

Definition ascii_space (c : N) : bool :=
  ((9 <=? c) && (c <=? 13) || (c =? 32))%N.

Definition word_at (o : option N) : bool :=
  match o with
  | Some c => ascii_word c
  | None => false
  end.

(** A literal [kw] found in [text] between two word boundaries; [prev] is the
    character before [text]. *)
Fixpoint search_bounded (kw text : pystr) (prev : option N) : bool :=
  (startswith text kw
   && xorb (word_at prev) (word_at (head (kw ++ text)))
   && xorb (word_at (last (option_list prev ++ kw)))
        (word_at (head (drop (length kw) text))))
  || match text with
     | [] => false
     | c :: text' => search_bounded kw text' (Some c)
     end.

Definition ascii_runtime : PyRuntime :=
  mkRuntime
    ascii_lower
    ascii_word
    ascii_space
    ascii_space
    (fun pattern text => Some (contains (ascii_lower pattern) (ascii_lower text)))
    (fun kw text => Some (search_bounded kw text None))
    (fun s =>
       filter (fun w => forallb ascii_letter w && (3 <=? length w)%nat)
         (split_on (fun c => negb (ascii_word c)) s [])).

(** ** Example inputs *)

Definition debug_helper : pystr := py "debug-helper".

(** A SKILL.md frontmatter that declares [keywords: [debug, error]] and
    [tags: []]. *)
Definition debug_helper_frontmatter : Frontmatter :=
  mkFm None None None None (KwList [py "debug"; py "error"]) (Some []) None
    None None.

(** An INDEX.yaml entry that declares [tags: [diagnostics]]. *)
Definition diagnostics_entry : IndexEntry :=
  mkEntry None None None None None (Some [py "diagnostics"]) None None None
    None.

(** A skills directory with the document [debug-helper/SKILL.md]. *)
Definition document_dir (p : path) : SkillsDir :=
  mkDir p
    [mkItem (py "debug-helper") true (MdText (Some debug_helper_frontmatter))]
    IdxMissing.

(** A skills directory with only an INDEX.yaml that lists [debug-helper]. *)
Definition artifact_dir (p : path) : SkillsDir :=
  mkDir p [] (IdxData (Some [(py "debug-helper", Some diagnostics_entry)])).

(** A skills directory with both. *)
Definition document_artifact_dir (p : path) : SkillsDir :=
  mkDir p
    [mkItem (py "debug-helper") true (MdText (Some debug_helper_frontmatter))]
    (IdxData (Some [(py "debug-helper", Some diagnostics_entry)])).

Definition project_dir_path : path := [py "project"; py ".claude"; py "skills"].
Definition user_dir_path : path := [py "home"; py ".claude"; py "skills"].

(** Document in the project tier, artifact in the user tier. *)
Definition fs_project_document_user_artifact : FileSystem :=
  mkFs (Some (document_dir project_dir_path)) None
    (Some (artifact_dir user_dir_path)) None [].

(** Document in the user tier, artifact in the project tier. *)
Definition fs_user_document_project_artifact : FileSystem :=
  mkFs (Some (artifact_dir project_dir_path)) None
    (Some (document_dir user_dir_path)) None [].

(** Document and artifact side by side in the project tier. *)
Definition fs_project_document_and_artifact : FileSystem :=
  mkFs (Some (document_artifact_dir project_dir_path)) None None None [].

Definition registry_of (fs : FileSystem) : pydict SkillMetadata :=
  _load_all_skills (_discover_skill_paths false false fs).

(** A record whose own threshold is zero. *)
Definition always_on_skill : SkillMetadata :=
  mkSkill (py "always-on") [py "skills"; py "always-on"] SrcProject medium
    suggested (py "Skill that should always be suggested") [] [py "deploy"] []
    [] [] true 0.

(** 학교에서 and the particle 에서. *)
Definition hakgyo_eseo : pystr := [54617; 44368; 50640; 49436]%N.
Definition eseo : pystr := [50640; 49436]%N.

Definition kw_debug : pystr := py "debug".
Definition kw_debugging : pystr := py "debugging".

(** An artifact with one entry, and a scan that finds two skills. *)
Definition kept_entry : pyval := VDict [(py "priority", vstr "high")].

Definition old_index : Index :=
  mkIndex [(py "version", vstr "1.0")] {[ py "keep-me" := kept_entry ]}.

Definition two_skills : list (pystr * option pystr) :=
  [(py "keep-me", Some (py "kept text")); (py "target", Some (py "new text"))].

(** A provider that answers every request to [x] with "API error 404" and
    every other request with a text. *)
Definition x_not_found (x : pystr) (n : nat) (m : pystr) : Outcome :=
  if bool_decide (m = x) then Failure (py "API error 404: model not found")
  else Reply (py "{}").

Definition xy_config : AIConfig :=
  mkAIConfig (py "openai") (py "x") [py "y"] 20 half 3 2 [py "english"].

(** A skill about debugging, and a query for it. *)
Definition debug_skill : SkillMetadata :=
  mkSkill (py "debug-helper") [py "skills"; py "debug-helper"] SrcProject
    (py "high") suggested (py "Debugging helper for errors and bugs") []
    [py "debug"; py "error"; py "bug"] [py "diagnostics"]
    [py "Debugging intermittent failures in payment code"] [py "fix.*bug"]
    true half.

Definition payment_query : pystr := py "fix bug in payment flow".

(** ** Further definitions: tiers, the hook's choice of output, repeated
    limiter calls, environment lists *)

(** The priority of a tier, as the docstring of [SkillActivator] numbers
    them: a smaller rank is a higher priority. *)
Definition tier_rank (s : Source) : nat :=
  match s with
  | SrcProject => 1
  | SrcUser => 2
  | SrcSystem => 3
  | SrcCustom => 4
  end.

(** The record with another [priority]. *)
Definition with_priority (p : pystr) (s : SkillMetadata) : SkillMetadata :=
  mkSkill (name s) (skill_path s) (source s) p (enforcement s) (description s)
    (keywords_korean s) (keywords_english s) (tags s) (use_cases s)
    (intent_patterns s) (auto_activate s) (confidence_threshold s).

(** The record with other [intent_patterns]. *)
Definition with_intent_patterns (l : list pystr) (s : SkillMetadata)
  : SkillMetadata :=
  mkSkill (name s) (skill_path s) (source s) (priority s) (enforcement s)
    (description s) (keywords_korean s) (keywords_english s) (tags s)
    (use_cases s) l (auto_activate s) (confidence_threshold s).

(** [load_user_config()]: the two keys the hook reads. *)
Record UserConfig := mkUserConfig {
  output_format : pystr;
  max_suggestions : Z
}.

(** What the hook prints, before it is laid out as text: nothing, or the
    arguments of the formatter it calls; for the enhanced format the list
    [all_matches] that [format_enhanced_output] lays out. *)
Inductive HookOutput :=
| Silent
| ClassicOutput (skill : SkillMetadata) (confidence : Q)
| RequiredOutput (skill : SkillMetadata) (confidence : Q)
| EnhancedOutput (all_matches : list (SkillMetadata * Q * pystr)).

Definition has_enforcement (e : pystr) (m : SkillMetadata * Q) : bool :=
  bool_decide (enforcement (fst m) = e).

(** The two loops that fill [all_matches] in [format_enhanced_output]. *)
Definition take_while_room (max_suggestions : Z) (kind : pystr)
  (items : list (SkillMetadata * Q))
  (all_matches : list (SkillMetadata * Q * pystr))
  : list (SkillMetadata * Q * pystr) :=
  fold_left
    (fun all_matches m =>
       if (Z.of_nat (length all_matches) <? max_suggestions)%Z
       then all_matches ++ [(m, kind)] else all_matches)
    items all_matches.

Definition enhanced_all_matches (matches : list (SkillMetadata * Q))
  (max_suggestions : Z) : list (SkillMetadata * Q * pystr) :=
  let suggested := filter (has_enforcement (py "suggested")) matches in
  let optional := filter (has_enforcement (py "optional")) matches in
  take_while_room max_suggestions (py "optional") optional
    (take_while_room max_suggestions (py "suggested") suggested []).

Definition format_enhanced_output (matches : list (SkillMetadata * Q))
  (max_suggestions : Z) : HookOutput :=
  if bool_decide (matches = []) then Silent
  else
    let all_matches := enhanced_all_matches matches max_suggestions in
    if bool_decide (all_matches = []) then Silent
    else EnhancedOutput all_matches.

(** [user_prompt_submit_hook], lines 867-892: the block that the [try] of
    line 866 guards; the activator is built with its defaults.  When the
    block raises (on files outside the typed [FileSystem]) the [except] of
    lines 894-896 returns the empty string, which is [Silent] too: [Silent]
    does not tell the two apart, and no statement concludes anything
    from a [Silent] output. *)
Definition user_prompt_submit_hook (rt : PyRuntime) (config : UserConfig)
  (fs : FileSystem) (user_message : pystr) : HookOutput :=
  let activator := new_activator DEFAULT_CONFIG None false false fs in
  let matches := detect_skills rt activator user_message in
  match matches with
  | [] => Silent
  | (best_skill, confidence) :: _ =>
      if bool_decide (output_format config = py "classic")
      then ClassicOutput best_skill confidence
      else
        match filter (has_enforcement (py "required")) matches with
        | (best_required, confidence) :: _ =>
            RequiredOutput best_required confidence
        | [] => format_enhanced_output matches (max_suggestions config)
        end
  end.


(** [s.split(sep)] for a one-character separator: empty pieces are kept. *)
Fixpoint split_char (sep : N) (s : pystr) (cur : pystr) : list pystr :=
  match s with
  | [] => [cur]
  | c :: s' =>
      if (c =? sep)%N then cur :: split_char sep s' []
      else split_char sep s' (cur ++ [c])
  end.

(** [[m.strip() for m in s.split(',') if m.strip()]], the list syntax of
    [AI_FALLBACK_MODELS] in [AIConfig.from_env]. *)
Definition env_list (isspace : N → bool) (s : pystr) : list pystr :=
  omap (fun m =>
          if bool_decide (strip isspace m = []) then None
          else Some (strip isspace m))
    (split_char 44 s []).

(** The [skills] that the loop of [generate_index] goes through (lines
    594-603): all scanned skills, or those named in a non-empty filter. *)
Definition targeted (all_skills : list (pystr * option pystr))
  (skills_filter : list pystr) : list (pystr * option pystr) :=
  if bool_decide (skills_filter = []) then all_skills
  else filter (fun s => str_in (fst s) skills_filter) all_skills.

(** The fields of a record that say what skill it is and where it comes
    from. *)
Definition same_identity (r s : SkillMetadata) : Prop :=
  name r = name s ∧ skill_path r = skill_path s ∧ source r = source s
  ∧ enforcement r = enforcement s ∧ description r = description s
  ∧ intent_patterns r = intent_patterns s.

(** The SKILL.md loop of [_load_all_skills] over the items of one
    directory. *)
Definition load_documents (parent : path) (src : Source)
  (items : list DirItem) (skills : pydict SkillMetadata)
  : pydict SkillMetadata :=
  fold_left
    (fun skills it =>
       if item_is_dir it
       then match _load_skill_from_directory parent it src with
            | Some skill => dict_set (name skill) skill skills
            | None => skills
            end
       else skills)
    items skills.

(** The ASCII runtime, with the pattern of a lone opening parenthesis
    refused as [re.error]. *)
Definition paren_runtime : PyRuntime :=
  mkRuntime
    (str_lower ascii_runtime) (re_word ascii_runtime) (re_space ascii_runtime)
    (str_isspace ascii_runtime)
    (fun pattern text =>
       if bool_decide (pattern = py "(") then None
       else re_search_ignorecase ascii_runtime pattern text)
    (re_search_bounded ascii_runtime)
    (re_findall_words ascii_runtime).

(** * Properties *)

(** ** Dicts *)

Section pydict_facts.
Context {V : Type}.
Implicit Types (d : pydict V) (k : pystr) (v : V).

Lemma dict_get_set_eq k v d : dict_get k (dict_set k v d) = Some v.
Proof.
  induction d as [|[k' v'] d IH]; simpl.
  - rewrite bool_decide_eq_true_2; done.
  - destruct (bool_decide (k = k')) eqn:E; simpl.
    + rewrite bool_decide_eq_true_2; done.
    + rewrite E. exact IH.
Qed.

Lemma dict_get_set_ne k k' v d :
  k ≠ k' → dict_get k' (dict_set k v d) = dict_get k' d.
Proof.
  intros Hne. induction d as [|[k0 v0] d IH]; simpl.
  - rewrite bool_decide_eq_false_2; [done | congruence].
  - destruct (bool_decide (k = k0)) eqn:E; simpl.
    + apply bool_decide_eq_true_1 in E. subst k0.
      rewrite !bool_decide_eq_false_2 by congruence. done.
    + rewrite IH. done.
Qed.
End pydict_facts.

(** ** Registry merge *)

(** C1, as stated, fails: with the document in the project tier and the
    artifact in the user tier, the registry holds no record for
    [debug-helper] that has both the keywords and the artifact's tag. *)
Lemma C1_project_document_drops_user_tags :
  ¬ ∃ r, dict_get debug_helper (registry_of fs_project_document_user_artifact)
           = Some r
         ∧ keywords_english r = [py "debug"; py "error"]
         ∧ tags r = [py "diagnostics"].
Proof.
  intros (r & Hget & _ & Htags).
  vm_compute in Hget. injection Hget as <-. vm_compute in Htags. discriminate.
Qed.

(** C1 (amended): with the document in the project tier and the artifact in
    the user tier the canonical record is the project document's own, with the
    keywords and no tags; the record has the keywords and the tag
    [diagnostics] when the artifact sits in the project tier and the document
    in the user tier, or when both sit in the same directory. *)
Theorem C1_merge_follows_load_order :
  (∃ r, dict_get debug_helper (registry_of fs_project_document_user_artifact)
          = Some r
        ∧ source r = SrcProject
        ∧ keywords_english r = [py "debug"; py "error"] ∧ tags r = [])
  ∧ (∃ r, dict_get debug_helper (registry_of fs_user_document_project_artifact)
            = Some r
          ∧ source r = SrcUser
          ∧ keywords_english r = [py "debug"; py "error"]
          ∧ tags r = [py "diagnostics"])
  ∧ (∃ r, dict_get debug_helper (registry_of fs_project_document_and_artifact)
            = Some r
          ∧ source r = SrcProject
          ∧ keywords_english r = [py "debug"; py "error"]
          ∧ tags r = [py "diagnostics"]).
Proof.
  repeat split; eexists; (split; [vm_compute; reflexivity |]); vm_compute; done.
Qed.

Lemma merge_index_entry_existing skills n existing indexed :
  dict_get n skills = Some existing →
  dict_get n (merge_index_entry skills (n, indexed))
  = Some (merge_indexed existing indexed).
Proof. intros H. unfold merge_index_entry. rewrite H. apply dict_get_set_eq. Qed.

(** C2: when an artifact entry merges into a record already in the
    registry, a list field of the record that is not empty (keywords of either
    language, tags, use cases) keeps its value, and an entry that carries only
    the defaults (priority medium, threshold 0.5, auto-activate true) leaves
    priority, threshold and auto-activate as they were. *)
Theorem C2_additive_merge skills n existing indexed :
  dict_get n skills = Some existing →
  ∃ merged,
    dict_get n (merge_index_entry skills (n, indexed)) = Some merged
    ∧ (keywords_korean existing ≠ [] →
       keywords_korean merged = keywords_korean existing)
    ∧ (keywords_english existing ≠ [] →
       keywords_english merged = keywords_english existing)
    ∧ (tags existing ≠ [] → tags merged = tags existing)
    ∧ (use_cases existing ≠ [] → use_cases merged = use_cases existing)
    ∧ (priority indexed = medium → confidence_threshold indexed == half →
       auto_activate indexed = true →
       priority merged = priority existing
       ∧ confidence_threshold merged = confidence_threshold existing
       ∧ auto_activate merged = auto_activate existing).
Proof.
  intros Hget. exists (merge_indexed existing indexed).
  split; [by apply merge_index_entry_existing |].
  unfold merge_indexed; simpl.
  repeat split.
  - intros H. by rewrite bool_decide_eq_false_2.
  - intros H. by rewrite bool_decide_eq_false_2.
  - intros H. by rewrite bool_decide_eq_false_2.
  - intros H. by rewrite bool_decide_eq_false_2.
  - by rewrite bool_decide_eq_true_2.
  - apply Qeq_bool_iff in H0. by rewrite H0.
  - by rewrite H1.
Qed.

Lemma C2_additive_merge_witness :
  ∃ merged,
    dict_get debug_helper
      (merge_index_entry
         (registry_of fs_project_document_user_artifact)
         (debug_helper,
          index_entry_skill (artifact_dir user_dir_path) SrcUser debug_helper
            diagnostics_entry))
    = Some merged
    ∧ keywords_english merged = [py "debug"; py "error"]
    ∧ priority merged = medium.
Proof.
  destruct (C2_additive_merge
              (registry_of fs_project_document_user_artifact) debug_helper
              (mkSkill debug_helper (project_dir_path ++ [debug_helper])
                 SrcProject medium suggested [] [] [py "debug"; py "error"]
                 [] [] [] true half)
              (index_entry_skill (artifact_dir user_dir_path) SrcUser
                 debug_helper diagnostics_entry))
    as (merged & Hget & _ & Hke & _ & _ & Hdef).
  { vm_compute. reflexivity. }
  exists merged. split; [exact Hget |]. split.
  - apply Hke. discriminate.
  - apply Hdef; [reflexivity | reflexivity | reflexivity].
Defined.

(** C10: when an artifact entry merges into a record already in the
    registry, the record's name, path, source, enforcement, description and
    intent patterns are left as they were; in particular the entry's
    description and intent patterns do not reach the record. *)
Theorem C10_merge_frame skills n existing indexed :
  dict_get n skills = Some existing →
  ∃ merged,
    dict_get n (merge_index_entry skills (n, indexed)) = Some merged
    ∧ name merged = name existing
    ∧ skill_path merged = skill_path existing
    ∧ source merged = source existing
    ∧ enforcement merged = enforcement existing
    ∧ description merged = description existing
    ∧ intent_patterns merged = intent_patterns existing.
Proof.
  intros Hget. exists (merge_indexed existing indexed).
  split; [by apply merge_index_entry_existing |].
  unfold merge_indexed; simpl. done.
Qed.

Lemma C10_merge_frame_witness :
  ∃ merged,
    dict_get debug_helper
      (merge_index_entry
         (registry_of fs_project_document_user_artifact)
         (debug_helper,
          index_entry_skill (artifact_dir user_dir_path) SrcUser debug_helper
            diagnostics_entry))
    = Some merged
    ∧ source merged = SrcProject
    ∧ intent_patterns merged = [].
Proof.
  destruct (C10_merge_frame
              (registry_of fs_project_document_user_artifact) debug_helper
              (mkSkill debug_helper (project_dir_path ++ [debug_helper])
                 SrcProject medium suggested [] [] [py "debug"; py "error"]
                 [] [] [] true half)
              (index_entry_skill (artifact_dir user_dir_path) SrcUser
                 debug_helper diagnostics_entry))
    as (merged & Hget & _ & _ & Hsrc & _ & _ & Hip).
  { vm_compute. reflexivity. }
  exists merged. split; [exact Hget |]. split; assumption.
Defined.

(** Other records of the registry are not touched by the merge of an entry. *)
Lemma merge_index_entry_other skills n indexed n' :
  n ≠ n' →
  dict_get n' (merge_index_entry skills (n, indexed)) = dict_get n' skills.
Proof.
  intros Hne. unfold merge_index_entry.
  destruct (dict_get n skills); by apply dict_get_set_ne.
Qed.

(** ** Threshold selection *)

Lemma applicable_threshold_override t global skill :
  applicable_threshold (Some t) global skill = t.
Proof. reflexivity. Qed.

Lemma applicable_threshold_own global skill :
  ¬ confidence_threshold skill == 0 →
  applicable_threshold None global skill = confidence_threshold skill.
Proof.
  intros H. unfold applicable_threshold.
  destruct (Qeq_bool (confidence_threshold skill) 0) eqn:E; [|done].
  apply Qeq_bool_iff in E. contradiction.
Qed.

(** C5 at the failing input: a record whose own threshold is 0.0 is compared
    against the global default 0.5, not against its own threshold; the query
    "staging database today" scores 0.0 against it, which is at least 0.0,
    yet [detect_skills] does not return the record. *)
Theorem C5_zero_threshold_uses_global :
  let self := mkActivator DEFAULT_CONFIG None
                [(name always_on_skill, always_on_skill)] in
  let message := py "staging database today" in
  confidence_threshold always_on_skill = 0
  ∧ sa_override_threshold self = None
  ∧ applicable_threshold None (cfg_confidence_threshold DEFAULT_CONFIG)
      always_on_skill = half
  ∧ _calculate_match_score ascii_runtime DEFAULT_CONFIG
      (_extract_keywords ascii_runtime message) always_on_skill message == 0
  ∧ detect_skills ascii_runtime self message = [].
Proof. repeat split; vm_compute; reflexivity. Qed.

(** ** Particle stripping *)

(** C7, as stated, fails: 학교에서 ends with the particle 에서 and is cut to
    학교, although the stem is not longer than the particle. *)
Lemma C7_two_char_particle_short_stem :
  ¬ ((2 <= length hakgyo_eseo)%nat → eseo ∈ KOREAN_PARTICLES →
     endswith hakgyo_eseo eseo = true →
     (strip_particle KOREAN_PARTICLES hakgyo_eseo ≠ hakgyo_eseo
      ↔ (length eseo < length hakgyo_eseo - length eseo)%nat)).
Proof.
  intros H.
  assert (Hin : eseo ∈ KOREAN_PARTICLES).
  { apply (bool_decide_unpack _). vm_compute. exact I. }
  destruct (H ltac:(simpl; lia) Hin eq_refl) as [Hlt _].
  assert (Hne : strip_particle KOREAN_PARTICLES hakgyo_eseo ≠ hakgyo_eseo).
  { vm_compute. discriminate. }
  specialize (Hlt Hne). simpl in Hlt. lia.
Qed.

Lemma take_shorter (w : pystr) (n : nat) :
  (n < length w)%nat → take n w ≠ w.
Proof.
  intros Hlt Heq. apply (f_equal length) in Heq.
  rewrite length_take in Heq. lia.
Qed.

Lemma strip_particle_spec particles w :
  match find (fun p => endswith w p && (length p + 1 <? length w)%nat) particles with
  | Some p => strip_particle particles w = take (length w - length p) w
  | None => strip_particle particles w = w
  end.
Proof.
  induction particles as [|p ps IH]; simpl; [done |].
  destruct (endswith w p && (length p + 1 <? length w)%nat); [done | exact IH].
Qed.

(** C7 (amended): the token loses the first particle of the list, in list
    order, that it ends with and that leaves a stem of at least two characters
    ([len(w) > len(particle) + 1]); a token with no such particle is kept as
    it is. *)
Theorem C7_strip_needs_two_char_stem w :
  match find (fun p => endswith w p && (length p + 1 <? length w)%nat)
          KOREAN_PARTICLES with
  | Some p =>
      strip_particle KOREAN_PARTICLES w = take (length w - length p) w
      ∧ (2 <= length (strip_particle KOREAN_PARTICLES w))%nat
      ∧ strip_particle KOREAN_PARTICLES w ≠ w
  | None => strip_particle KOREAN_PARTICLES w = w
  end.
Proof.
  pose proof (strip_particle_spec KOREAN_PARTICLES w) as Hspec.
  destruct (find _ KOREAN_PARTICLES) as [p|] eqn:Hfind; [| exact Hspec].
  apply find_some in Hfind as [Hin Hcond].
  apply andb_prop in Hcond as [_ Hlen]. apply Nat.ltb_lt in Hlen.
  assert (Hp : (0 < length p)%nat).
  { revert Hin. unfold KOREAN_PARTICLES. simpl.
    intros Hin. repeat (destruct Hin as [<- | Hin]; [simpl; lia |]).
    destruct Hin. }
  rewrite Hspec. split; [done |]. split.
  - rewrite length_take. lia.
  - apply take_shorter. lia.
Qed.

(** ** The compound-match pass *)

(** C6, as stated, fails: the query keywords [debug, debug] hold one distinct
    keyword that is a substring of "debugging", yet the pass adds the bonus
    2 × 2.5. *)
Lemma C6_repeated_keyword_counts_twice :
  ¬ (let K := [kw_debug; kw_debug] in
     let d := size (py_set (matching_parts K kw_debugging)) in
     fst (compound_step DEFAULT_CONFIG K (0, ∅) kw_debugging)
     == 0 + (if (2 <=? d)%nat
             then natQ d * compound_match DEFAULT_WEIGHTS
             else 0)).
Proof. vm_compute. discriminate. Qed.

Lemma set_add_fold_elem (parts : list pystr) (m : gset pystr) (u : pystr) :
  u ∈ fold_left (fun m uk => set_add uk m) parts m ↔ u ∈ m ∨ u ∈ parts.
Proof.
  revert m. induction parts as [|p parts IH]; intros m; simpl.
  - split; [by left | by intros [H | H%elem_of_nil]].
  - rewrite IH. unfold set_add. rewrite elem_of_union, elem_of_singleton, elem_of_cons. tauto.
Qed.

Lemma compound_fold_spec config K skws s m :
  fst (fold_left (compound_step config K) skws (s, m))
  == s + sumQ (map (compound_bonus config K) skws)
  ∧ ∀ u, u ∈ snd (fold_left (compound_step config K) skws (s, m))
         ↔ u ∈ m ∨ ∃ skw, skw ∈ skws
                          ∧ (2 <= length (matching_parts K skw))%nat
                          ∧ u ∈ matching_parts K skw.
Proof.
  revert s m. induction skws as [|skw skws IH]; intros s m; cbn [fold_left].
  - simpl. split; [lra |]. intros u. split; [by left |].
    intros [H | (skw & Hin & _)]; [done | by apply elem_of_nil in Hin].
  - change (sumQ (map (compound_bonus config K) (skw :: skws)))
      with (compound_bonus config K skw + sumQ (map (compound_bonus config K) skws)).
    assert (Hstep :
      compound_step config K (s, m) skw
      = if (2 <=? length (matching_parts K skw))%nat
        then (s + natQ (length (matching_parts K skw))
                  * compound_match (cfg_keyword_weights config),
              fold_left (fun m uk => set_add uk m) (matching_parts K skw) m)
        else (s, m)) by reflexivity.
    rewrite Hstep. clear Hstep. unfold compound_bonus at 1, weights.
    destruct (2 <=? length (matching_parts K skw))%nat eqn:E.
    + apply Nat.leb_le in E.
      destruct (IH (s + natQ (length (matching_parts K skw))
                        * compound_match (cfg_keyword_weights config))
                  (fold_left (fun m uk => set_add uk m) (matching_parts K skw) m))
        as [IHs IHm].
      split; [rewrite IHs; lra |].
      intros u. rewrite IHm, set_add_fold_elem. split.
      * intros [[H | H] | (skw' & Hin & Hlen & Hu)].
        -- by left.
        -- right. exists skw. split; [by left | done].
        -- right. exists skw'. split; [by right | done].
      * intros [H | (skw' & Hin & Hlen & Hu)]; [by left; left |].
        apply elem_of_cons in Hin as [-> | Hin].
        -- left. by right.
        -- right. by exists skw'.
    + apply Nat.leb_gt in E.
      destruct (IH s m) as [IHs IHm].
      split; [rewrite IHs; lra |].
      intros u. rewrite IHm. split.
      * intros [H | (skw' & Hin & Hlen & Hu)]; [by left |].
        right. exists skw'. split; [by right | done].
      * intros [H | (skw' & Hin & Hlen & Hu)]; [by left |].
        apply elem_of_cons in Hin as [-> | Hin]; [lia |].
        right. by exists skw'.
Qed.

(** C6 (amended): for every skill keyword the pass adds count × weight if and
    only if count ≥ 2, where count is the number of positions of the query
    keyword list that hold a keyword of length ≥ 2 that is a substring of the
    skill keyword (a keyword that appears twice counts twice); the keywords
    consumed are those that matched a skill keyword that earned the bonus. *)
Theorem C6_compound_counts_occurrences config K skws score :
  (∀ u skw,
     length (matching_parts (u :: K) skw)
     = ((if contains u skw && (2 <=? length u)%nat then 1 else 0)
        + length (matching_parts K skw))%nat)
  ∧ fst (compound_pass config K skws score)
    == score + sumQ (map (compound_bonus config K) skws)
  ∧ ∀ u, u ∈ snd (compound_pass config K skws score)
         ↔ ∃ skw, skw ∈ skws
                  ∧ (2 <= length (matching_parts K skw))%nat
                  ∧ u ∈ matching_parts K skw.
Proof.
  split.
  { intros u skw. unfold matching_parts. rewrite filter_cons.
    destruct (contains u skw && (2 <=? length u)%nat); reflexivity. }
  unfold compound_pass.
  destruct (compound_fold_spec config K skws score ∅) as [Hs Hm].
  split; [exact Hs |].
  intros u. rewrite Hm. split; [| by right].
  intros [H | H]; [by apply elem_of_empty in H | done].
Qed.

(** ** Monotonicity of the raw score *)

Lemma natQ_S n : natQ (S n) == natQ n + 1.
Proof.
  unfold natQ. rewrite Nat2Z.inj_succ, <- Z.add_1_r, inject_Z_plus. reflexivity.
Qed.

Lemma natQ_nonneg n : 0 <= natQ n.
Proof.
  unfold natQ. change 0 with (inject_Z 0). rewrite <- Zle_Qle. lia.
Qed.

Lemma natQ_le a b : (a <= b)%nat → natQ a <= natQ b.
Proof. intros H. unfold natQ. rewrite <- Zle_Qle. lia. Qed.

Lemma natQ_lt a b : (a < b)%nat → natQ a + 1 <= natQ b.
Proof.
  intros H. rewrite <- natQ_S. apply natQ_le. lia.
Qed.

Lemma sumQ_app l1 l2 : sumQ (l1 ++ l2) == sumQ l1 + sumQ l2.
Proof.
  induction l1 as [|x l1 IH]; simpl; [lra |]. rewrite IH. lra.
Qed.

Lemma sumQ_nonneg {A} (f : A → Q) l : (∀ x, 0 <= f x) → 0 <= sumQ (map f l).
Proof.
  intros Hf. induction l as [|x l IH]; simpl; [lra |].
  specialize (Hf x). lra.
Qed.

Lemma sumQ_mono {A} (f g : A → Q) l :
  (∀ x, f x <= g x) → sumQ (map f l) <= sumQ (map g l).
Proof.
  intros Hfg. induction l as [|x l IH]; simpl; [lra |].
  specialize (Hfg x). lra.
Qed.

(** A loop that adds [f x] to the running score for each [x]. *)
Lemma fold_add {A} (step : Q → A → Q) (f : A → Q) :
  (∀ s x, step s x == s + f x) →
  ∀ l s, fold_left step l s == s + sumQ (map f l).
Proof.
  intros Hstep l. induction l as [|x l IH]; intros s; simpl; [lra |].
  rewrite IH, Hstep. lra.
Qed.

Section score_facts.
Variable rt : PyRuntime.
Variable config : Config.
Variable skill : SkillMetadata.
Hypothesis default_weights : cfg_keyword_weights config = DEFAULT_WEIGHTS.

Abbreviation rule := (keyword_rule rt config skill).
Abbreviation gain := (keyword_gain rt config skill).
Abbreviation matched_after := (keyword_matched rt config skill).

Lemma rule_bounds u w : rule u = Some w → 0 <= w ∧ w <= 3.
Proof.
  unfold keyword_rule, weights. rewrite default_weights. simpl.
  repeat match goal with
         | |- context [if ?b then _ else _] => destruct b
         end; intros [= <-]; split; unfold Qle; simpl; lia.
Qed.

Lemma rule_exact u : u ∈ skill_keywords rt skill → rule u = Some 3.
Proof.
  intros H. unfold keyword_rule, str_in, weights.
  rewrite bool_decide_eq_true_2 by done. by rewrite default_weights.
Qed.

Lemma keyword_pass_direct K s C :
  fst (keyword_pass rt config skill K (s, C)) == s + gain K C
  ∧ snd (keyword_pass rt config skill K (s, C)) = matched_after K C.
Proof.
  unfold keyword_pass. revert s C.
  induction K as [|u K IH]; intros s C; simpl; [split; [lra | done] |].
  destruct (bool_decide (u ∈ C)); [apply IH |].
  destruct (rule u) as [w|]; [| apply IH].
  destruct (IH (s + w) (set_add u C)) as [IHs IHm].
  split; [rewrite IHs; lra | exact IHm].
Qed.

Lemma matched_after_incl K : ∀ C u, u ∈ C → u ∈ matched_after K C.
Proof.
  induction K as [|v K IH]; intros C u Hu; simpl; [done |].
  destruct (bool_decide (v ∈ C)); [by apply IH |].
  destruct (rule v); [| by apply IH].
  apply IH. unfold set_add. set_solver.
Qed.

Lemma matched_after_ruled K : ∀ C u,
  u ∈ K → is_Some (rule u) → u ∈ matched_after K C.
Proof.
  induction K as [|v K IH]; intros C u Hin Hrule; [by apply elem_of_nil in Hin |].
  simpl. apply elem_of_cons in Hin as [<- | Hin].
  - destruct (bool_decide (u ∈ C)) eqn:E.
    + apply bool_decide_eq_true_1 in E. by apply matched_after_incl.
    + destruct Hrule as [w ->]. apply matched_after_incl.
      unfold set_add. set_solver.
  - destruct (bool_decide (v ∈ C)); [by apply IH |].
    destruct (rule v); by apply IH.
Qed.

Lemma matched_after_origin K : ∀ C u,
  u ∈ matched_after K C → u ∈ C ∨ u ∈ K.
Proof.
  induction K as [|v K IH]; intros C u; simpl; [by left |].
  destruct (bool_decide (v ∈ C)).
  - intros [H | H]%IH; [by left | right; by right].
  - destruct (rule v).
    + intros [H | H]%IH; [| right; by right].
      unfold set_add in H. apply elem_of_union in H as [H | H]; [| by left].
      apply elem_of_singleton in H as ->. right; left.
    + intros [H | H]%IH; [by left | right; by right].
Qed.

Lemma gain_snoc K k : ∀ C,
  gain (K ++ [k]) C
  == gain K C
     + (if bool_decide (k ∈ matched_after K C) then 0
        else default 0 (rule k)).
Proof.
  induction K as [|v K IH]; intros C; simpl.
  - destruct (bool_decide (k ∈ C)); [lra |]. destruct (rule k); simpl; lra.
  - destruct (bool_decide (v ∈ C)); [apply IH |].
    destruct (rule v); [| apply IH]. rewrite IH. lra.
Qed.

(** Consuming more keywords before the pass loses at most the largest
    weight for each keyword of [D], the keywords newly consumed. *)
Lemma gain_loss K : ∀ (C C' : gset pystr) (D : list pystr),
  C ⊆ C' →
  (∀ u, u ∈ K → u ∈ C' → u ∈ C ∨ u ∈ D) →
  gain K C <= gain K C' + 3 * natQ (length D).
Proof.
  induction K as [|u K IH]; intros C C' D Hsub Hnew; simpl.
  - pose proof (natQ_nonneg (length D)). lra.
  - assert (Hrest : ∀ v, v ∈ K → v ∈ C' → v ∈ C ∨ v ∈ D).
    { intros v Hv. apply Hnew. by right. }
    destruct (bool_decide (u ∈ C)) eqn:EC.
    + apply bool_decide_eq_true_1 in EC.
      rewrite bool_decide_eq_true_2 by set_solver. by apply IH.
    + apply bool_decide_eq_false_1 in EC.
      destruct (bool_decide (u ∈ C')) eqn:EC'.
      * apply bool_decide_eq_true_1 in EC'.
        destruct (rule u) as [w|] eqn:Er; [| by apply IH].
        assert (HuD : u ∈ D).
        { destruct (Hnew u) as [H | H]; [left | done | done | done]. }
        assert (Hlen : (length (filter (fun v => v ≠ u) D) < length D)%nat).
        { apply (length_filter_lt _ _ u); [done | by intros H]. }
        apply natQ_lt in Hlen. apply rule_bounds in Er as [_ Hw].
        assert (Hih : gain K (set_add u C)
                      <= gain K C' + 3 * natQ (length (filter (fun v => v ≠ u) D))).
        { apply IH.
          - unfold set_add. apply union_subseteq.
            split; [by apply singleton_subseteq_l | done].
          - intros v Hv Hv'. destruct (decide (v = u)) as [-> | Hne].
            + left. unfold set_add. set_solver.
            + destruct (Hrest v Hv Hv') as [H | H].
              * left. unfold set_add. set_solver.
              * right. apply list_elem_of_filter. done. }
        lra.
      * apply bool_decide_eq_false_1 in EC'.
        destruct (rule u) as [w|] eqn:Er; [| by apply IH].
        assert (Hih : gain K (set_add u C)
                      <= gain K (set_add u C') + 3 * natQ (length D)).
        { apply IH.
          - unfold set_add. by apply union_mono_l.
          - intros v Hv Hv'. unfold set_add in *.
            apply elem_of_union in Hv' as [Hv' | Hv'].
            + left. set_solver.
            + destruct (Hrest v Hv Hv') as [H | H]; [left; set_solver | by right]. }
        lra.
Qed.

End score_facts.

Lemma natQ_add a b : natQ (a + b) == natQ a + natQ b.
Proof. unfold natQ. rewrite Nat2Z.inj_add, inject_Z_plus. reflexivity. Qed.

Lemma matching_parts_snoc K k skw :
  matching_parts (K ++ [k]) skw
  = matching_parts K skw
    ++ (if contains k skw && (2 <=? length k)%nat then [k] else []).
Proof.
  unfold matching_parts. rewrite filter_app. f_equal.
  rewrite filter_cons. destruct (contains k skw && (2 <=? length k)%nat);
    reflexivity.
Qed.

Section compound_facts.
Variable config : Config.
Hypothesis default_weights : cfg_keyword_weights config = DEFAULT_WEIGHTS.
Variable K : list pystr.
Variable k : pystr.

Abbreviation hit skw := (contains k skw && (2 <=? length k)%nat).

(** Adding [k] to the query raises the bonus of a skill keyword by at least
    the largest weight for each keyword it newly consumes, and by 2 more
    when [k] turns up next to an earlier match. *)
Lemma compound_bonus_snoc skw :
  compound_bonus config K skw + 3 * natQ (length (newly_consumed K k skw))
    <= compound_bonus config (K ++ [k]) skw
  ∧ (hit skw = true → (1 <= length (matching_parts K skw))%nat →
     compound_bonus config K skw
       + 3 * natQ (length (newly_consumed K k skw)) + 2
       <= compound_bonus config (K ++ [k]) skw).
Proof.
  unfold compound_bonus, newly_consumed, weights.
  rewrite default_weights, matching_parts_snoc, length_app.
  destruct (hit skw) eqn:Eh.
  - destruct (length (matching_parts K skw)) as [|[|p]] eqn:Ep.
    + cbn. split; [unfold Qle; simpl; lia | intros _ H; lia].
    + cbn. rewrite Ep. split; [| intros _ _]; unfold Qle; simpl; lia.
    + replace (S (S p) + length [k])%nat with (S (S (S p))) by (simpl; lia).
      pose proof (natQ_S (S (S p))) as HS.
      cbn [andb Nat.eqb Nat.leb length compound_match DEFAULT_WEIGHTS].
      change (natQ 0) with 0.
      split; [| intros _ _]; lra.
  - rewrite Nat.add_0_r, andb_false_l. change (natQ (length [])) with 0.
    split; [| by intros H].
    destruct (2 <=? length (matching_parts K skw))%nat; lra.
Qed.

Lemma compound_sum_snoc skws :
  sumQ (map (compound_bonus config K) skws)
    + 3 * natQ (length (flat_map (newly_consumed K k) skws))
  <= sumQ (map (compound_bonus config (K ++ [k])) skws).
Proof.
  induction skws as [|skw skws IH]; simpl.
  - change (natQ 0) with 0. lra.
  - rewrite length_app, natQ_add.
    destruct (compound_bonus_snoc skw) as [H _]. lra.
Qed.

Lemma compound_sum_snoc_hit skws skw :
  skw ∈ skws → hit skw = true → (1 <= length (matching_parts K skw))%nat →
  sumQ (map (compound_bonus config K) skws)
    + 3 * natQ (length (flat_map (newly_consumed K k) skws)) + 2
  <= sumQ (map (compound_bonus config (K ++ [k])) skws).
Proof.
  intros Hin Hhit Hlen.
  induction skws as [|skw' skws IH]; [by apply elem_of_nil in Hin |].
  simpl. rewrite length_app, natQ_add.
  apply elem_of_cons in Hin as [<- | Hin].
  - destruct (compound_bonus_snoc skw) as [_ H].
    specialize (H Hhit Hlen). pose proof (compound_sum_snoc skws). lra.
  - destruct (compound_bonus_snoc skw') as [H _].
    specialize (IH Hin). lra.
Qed.

(** What the compound pass consumes for the longer query: what it consumed
    before, the keywords newly consumed, and [k]. *)
Lemma compound_consumed_snoc skws s u :
  u ∈ snd (compound_pass config (K ++ [k]) skws s) →
  u ∈ K →
  u ∈ snd (compound_pass config K skws s)
  ∨ u ∈ flat_map (newly_consumed K k) skws.
Proof.
  unfold compound_pass.
  destruct (compound_fold_spec config (K ++ [k]) skws s ∅) as [_ Hm'].
  destruct (compound_fold_spec config K skws s ∅) as [_ Hm].
  rewrite Hm', Hm. clear Hm Hm'.
  intros [H | (skw & Hin & Hlen & Hu)] HuK; [by apply elem_of_empty in H |].
  assert (HuP : u ∈ matching_parts K skw).
  { unfold matching_parts in *.
    apply list_elem_of_filter in Hu as [Hp _].
    apply list_elem_of_filter. done. }
  rewrite matching_parts_snoc, length_app in Hlen.
  destruct (decide (2 <= length (matching_parts K skw))%nat) as [Hge | Hlt].
  - left. right. by exists skw.
  - right. apply list_elem_of_In, in_flat_map. exists skw.
    split; [by apply list_elem_of_In |]. apply list_elem_of_In.
    unfold newly_consumed.
    assert (Hone : length (matching_parts K skw) = 1%nat).
    { destruct (matching_parts K skw); [by apply elem_of_nil in HuP |].
      simpl in *. lia. }
    destruct (hit skw); [| simpl in Hlen; lia].
    rewrite Hone. simpl. done.
Qed.

Lemma compound_consumed_mono skws s u :
  u ∈ snd (compound_pass config K skws s) →
  u ∈ snd (compound_pass config (K ++ [k]) skws s).
Proof.
  unfold compound_pass.
  destruct (compound_fold_spec config (K ++ [k]) skws s ∅) as [_ Hm'].
  destruct (compound_fold_spec config K skws s ∅) as [_ Hm].
  rewrite Hm', Hm. clear Hm Hm'.
  intros [H | (skw & Hin & Hlen & Hu)]; [by left |].
  right. exists skw. rewrite matching_parts_snoc, length_app.
  split; [done |]. split; [lia |]. apply elem_of_app. by left.
Qed.

Lemma compound_consumed_new skws s :
  k ∈ snd (compound_pass config (K ++ [k]) skws s) →
  ∃ skw, skw ∈ skws ∧ hit skw = true
         ∧ (1 <= length (matching_parts K skw))%nat.
Proof.
  unfold compound_pass.
  destruct (compound_fold_spec config (K ++ [k]) skws s ∅) as [_ Hm'].
  rewrite Hm'. clear Hm'.
  intros [H | (skw & Hin & Hlen & Hu)]; [by apply elem_of_empty in H |].
  exists skw. split; [done |].
  assert (Hhit : hit skw = true).
  { unfold matching_parts in Hu. apply list_elem_of_filter in Hu as [Hp _].
    by apply Is_true_true in Hp. }
  split; [done |].
  rewrite matching_parts_snoc, length_app, Hhit in Hlen. simpl in Hlen. lia.
Qed.

End compound_facts.

Section raw_score_facts.
Variable rt : PyRuntime.
Variable config : Config.
Variable skill : SkillMetadata.
Variable msg : pystr.
Hypothesis default_weights : cfg_keyword_weights config = DEFAULT_WEIGHTS.

Abbreviation skws := (skill_keywords rt skill).
Abbreviation base :=
  (0 + intent_bonus rt config skill msg + primary_bonus rt config skill msg).

Abbreviation overlap := (overlap_of rt).
Abbreviation stems := (stems_of rt skill).

Lemma base_nonneg : 0 <= base.
Proof.
  assert (Hi : 0 <= intent_bonus rt config skill msg).
  { unfold intent_bonus, weights. rewrite default_weights.
    destruct (_ && _); unfold Qle; simpl; lia. }
  assert (Hp : 0 <= primary_bonus rt config skill msg).
  { unfold primary_bonus, weights. rewrite default_weights.
    destruct (_ && _); [| lra].
    rewrite (fold_add _ (fun pk =>
               if _check_word_boundary rt pk (str_lower rt msg)
               then exact_match DEFAULT_WEIGHTS * 2 else 0)).
    - pose proof (sumQ_nonneg
        (fun pk => if _check_word_boundary rt pk (str_lower rt msg)
                   then exact_match DEFAULT_WEIGHTS * 2 else 0)
        (take 3 (flat_keywords rt skill))) as H.
      lapply H; [lra |]. intros pk.
      destruct (_check_word_boundary _ _ _); unfold Qle; simpl; lia.
    - intros s pk. destruct (_check_word_boundary _ _ _); lra. }
  lra.
Qed.

Lemma overlap_direct K s :
  use_case_overlap_bonus rt skill K s
  == s + sumQ (map (overlap K) (map (str_lower rt) (use_cases skill))).
Proof.
  unfold use_case_overlap_bonus. apply fold_add.
  intros s' uc. unfold overlap_of. destruct (2 <=? _)%nat; lra.
Qed.

Lemma overlap_of_snoc K k uc : overlap K uc <= overlap (K ++ [k]) uc.
Proof.
  unfold overlap_of.
  set (W := py_set (re_findall_words rt uc)).
  assert (Hn : (size (py_set K ∩ W) <= size (py_set (K ++ [k]) ∩ W))%nat).
  { apply subseteq_size. unfold py_set. rewrite list_to_set_app_L.
    apply intersection_mono_r, union_subseteq_l. }
  destruct (2 <=? size (py_set K ∩ W))%nat eqn:E.
  - apply Nat.leb_le in E.
    rewrite (proj2 (Nat.leb_le 2 _)) by lia.
    apply natQ_le in Hn. lra.
  - destruct (2 <=? size (py_set (K ++ [k]) ∩ W))%nat; [| lra].
    pose proof (natQ_nonneg (size (py_set (K ++ [k]) ∩ W))). lra.
Qed.

Lemma stems_of_nonneg u : 0 <= stems u.
Proof.
  unfold stems_of. apply sumQ_nonneg. intros uc.
  destruct (_ && _); lra.
Qed.

Lemma stemming_direct K s :
  stemming_bonus rt skill K s == s + sumQ (map stems K).
Proof.
  unfold stemming_bonus. apply fold_add.
  intros s' u. unfold stems_of. apply fold_add.
  intros s'' uc. destruct (_ && _); lra.
Qed.

(** The raw score of the passes, as a sum of the five contributions. *)
Lemma score_passes_direct K :
  ∃ sc C,
    compound_pass config K skws base = (sc, C)
    ∧ sc == base + sumQ (map (compound_bonus config K) skws)
    ∧ fst (score_passes rt config K skill msg)
      == sc + keyword_gain rt config skill K C
         + sumQ (map (overlap K) (map (str_lower rt) (use_cases skill)))
         + sumQ (map stems K)
    ∧ snd (score_passes rt config K skill msg)
      = keyword_matched rt config skill K C.
Proof.
  unfold score_passes.
  destruct (compound_pass config K skws base) as [sc C] eqn:Ec.
  exists sc, C. split; [done |]. split.
  { pose proof (compound_fold_spec config K skws base ∅) as [H _].
    unfold compound_pass in Ec. by rewrite Ec in H. }
  destruct (keyword_pass_direct rt config skill K sc C) as [Hs Hm].
  destruct (keyword_pass rt config skill K (sc, C)) as [sk M]. simpl in *.
  split; [| done].
  rewrite stemming_direct, overlap_direct, Hs. lra.
Qed.

Lemma compound_bonus_nonneg K skw : 0 <= compound_bonus config K skw.
Proof.
  unfold compound_bonus, weights. rewrite default_weights.
  destruct (2 <=? _)%nat; [| lra].
  pose proof (natQ_nonneg (length (matching_parts K skw))). simpl. lra.
Qed.

Lemma overlap_of_nonneg K uc : 0 <= overlap K uc.
Proof.
  unfold overlap_of. destruct (2 <=? _)%nat; [| lra].
  match goal with |- context [natQ ?n] => pose proof (natQ_nonneg n) end. lra.
Qed.

Lemma keyword_gain_nonneg K : ∀ C, 0 <= keyword_gain rt config skill K C.
Proof.
  induction K as [|u K IH]; intros C; simpl; [lra |].
  destruct (bool_decide (u ∈ C)); [apply IH |].
  destruct (keyword_rule rt config skill u) as [w|] eqn:Er; [| apply IH].
  apply rule_bounds in Er as [Hw _]; [| done]. specialize (IH (set_add u C)). lra.
Qed.

Lemma score_passes_nonneg K : 0 <= fst (score_passes rt config K skill msg).
Proof.
  destruct (score_passes_direct K) as (sc & C & _ & Hsc & Hfst & _).
  rewrite Hfst, Hsc.
  pose proof base_nonneg.
  pose proof (sumQ_nonneg (compound_bonus config K) skws
                (compound_bonus_nonneg K)).
  pose proof (keyword_gain_nonneg K C).
  pose proof (sumQ_nonneg (overlap K) (map (str_lower rt) (use_cases skill))
                (overlap_of_nonneg K)).
  pose proof (sumQ_nonneg stems K stems_of_nonneg).
  lra.
Qed.

(** Under the default weights the early return on a zero maximum is taken
    only for the empty query. *)
Lemma score_state_passes K :
  K ≠ [] →
  score_state rt config K skill msg = score_passes rt config K skill msg.
Proof.
  intros HK. unfold score_state, weights.
  rewrite bool_decide_eq_false_2 by done. rewrite default_weights.
  destruct (Qeq_bool _ 0) eqn:E; [| done].
  apply Qeq_bool_iff in E. destruct K as [|u K]; [done |].
  simpl length in E. pose proof (natQ_S (length K)) as HS.
  pose proof (natQ_nonneg (length K)). simpl in E. lra.
Qed.

(** The passes score strictly more for the query with [k] appended. *)
Lemma score_passes_snoc K k :
  k ∈ skws →
  k ∉ snd (score_passes rt config K skill msg) →
  fst (score_passes rt config K skill msg)
  < fst (score_passes rt config (K ++ [k]) skill msg).
Proof.
  intros Hk Hnot.
  destruct (score_passes_direct K) as (sc & C & Ec & Hsc & Hfst & Hsnd).
  destruct (score_passes_direct (K ++ [k]))
    as (sc' & C' & Ec' & Hsc' & Hfst' & _).
  rewrite Hsnd in Hnot. rewrite Hfst, Hfst', Hsc, Hsc'.
  assert (HC : C = snd (compound_pass config K skws base)) by by rewrite Ec.
  assert (HC' : C' = snd (compound_pass config (K ++ [k]) skws base))
    by by rewrite Ec'.
  set (D := flat_map (newly_consumed K k) skws).
  assert (Hloss : keyword_gain rt config skill K C
                  <= keyword_gain rt config skill K C' + 3 * natQ (length D)).
  { apply (gain_loss rt config skill default_weights).
    - intros u Hu. rewrite HC in Hu. rewrite HC'.
      by apply compound_consumed_mono.
    - intros u HuK Hu'. rewrite HC' in Hu'. rewrite HC.
      by apply compound_consumed_snoc. }
  pose proof (compound_sum_snoc config default_weights K k skws) as Hsum.
  fold D in Hsum.
  pose proof (gain_snoc rt config skill K k C') as Hsnoc.
  rewrite (rule_exact rt config skill default_weights k Hk) in Hsnoc.
  assert (Hov : sumQ (map (overlap K) (map (str_lower rt) (use_cases skill)))
                <= sumQ (map (overlap (K ++ [k]))
                           (map (str_lower rt) (use_cases skill)))).
  { apply sumQ_mono. intros uc. apply overlap_of_snoc. }
  assert (Hst : sumQ (map stems K) <= sumQ (map stems (K ++ [k]))).
  { rewrite map_app, sumQ_app. simpl. pose proof (stems_of_nonneg k). lra. }
  destruct (bool_decide (k ∈ keyword_matched rt config skill K C')) eqn:Ek.
  - apply bool_decide_eq_true_1 in Ek.
    apply matched_after_origin in Ek as [HkC' | HkK].
    + rewrite HC' in HkC'.
      apply compound_consumed_new in HkC' as (skw & Hin & Hhit & Hone).
      pose proof (compound_sum_snoc_hit config default_weights K k skws skw
                    Hin Hhit Hone) as Hstrict.
      fold D in Hstrict. simpl in Hsnoc. lra.
    + destruct Hnot. apply matched_after_ruled; [done .. |].
      rewrite (rule_exact rt config skill default_weights k Hk). by eexists.
  - simpl in Hsnoc. lra.
Qed.

End raw_score_facts.

(** C9: under the default keyword weights, appending to the query keywords
    a keyword that is exactly present in the skill's flattened keyword list
    and that scoring the query did not consume makes the raw score strictly
    greater. *)
Theorem C9_exact_keyword_raises_raw_score rt config K skill msg k :
  cfg_keyword_weights config = DEFAULT_WEIGHTS →
  k ∈ flat_keywords rt skill →
  k ∉ consumed rt config K skill msg →
  raw_score rt config K skill msg < raw_score rt config (K ++ [k]) skill msg.
Proof.
  intros Hw Hflat Hnot.
  assert (Hk : k ∈ skill_keywords rt skill).
  { unfold skill_keywords.
    rewrite (bool_decide_eq_false_2 (flat_keywords rt skill = [])); [done |].
    intros Hnil. rewrite Hnil in Hflat. by apply elem_of_nil in Hflat. }
  unfold raw_score, consumed in *.
  rewrite (score_state_passes rt config skill msg Hw (K ++ [k]))
    by (by destruct K).
  destruct K as [|u K].
  - unfold score_state at 1. simpl bool_decide. cbn [fst].
    pose proof (score_passes_nonneg rt config skill msg Hw []) as H0.
    pose proof (score_passes_snoc rt config skill msg Hw [] k Hk) as Hlt.
    lapply Hlt; [simpl app in *; lra |].
    destruct (score_passes_direct rt config skill msg [])
      as (sc & C & Ec & _ & _ & ->).
    simpl. intros HkC.
    assert (HC : C = snd (compound_pass config [] (skill_keywords rt skill)
                            (0 + intent_bonus rt config skill msg
                             + primary_bonus rt config skill msg)))
      by by rewrite Ec.
    rewrite HC in HkC. unfold compound_pass in HkC.
    apply (compound_fold_spec config []) in HkC
      as [H | (skw & _ & Hlen & _)]; [by apply elem_of_empty in H |].
    simpl in Hlen. lia.
  - rewrite (score_state_passes rt config skill msg Hw (u :: K)) in * by done.
    by apply score_passes_snoc.
Qed.

Lemma C9_exact_keyword_raises_raw_score_witness :
  raw_score ascii_runtime DEFAULT_CONFIG
    (_extract_keywords ascii_runtime payment_query) debug_skill payment_query
  < raw_score ascii_runtime DEFAULT_CONFIG
      (_extract_keywords ascii_runtime payment_query ++ [py "error"])
      debug_skill payment_query.
Proof.
  apply (C9_exact_keyword_raises_raw_score ascii_runtime DEFAULT_CONFIG
           (_extract_keywords ascii_runtime payment_query) debug_skill
           payment_query (py "error")).
  - reflexivity.
  - apply (bool_decide_unpack _). vm_compute. exact I.
  - apply (bool_decide_unpack _). vm_compute. exact I.
Defined.


(** ** The rate limiter *)

Lemma Qlt_bool_iff a b : Qlt_bool a b = true ↔ a < b.
Proof.
  unfold Qlt_bool. rewrite negb_true_iff. split.
  - intros H. apply Qnot_le_lt. intros Hle.
    apply Qle_bool_iff in Hle. congruence.
  - intros H. destruct (Qle_bool b a) eqn:E; [| done].
    apply Qle_bool_iff in E. lra.
Qed.

Lemma Qlt_bool_false a b : Qlt_bool a b = false ↔ b <= a.
Proof.
  unfold Qlt_bool. rewrite negb_false_iff. apply Qle_bool_iff.
Qed.

Lemma wait_if_needed_direct w : wait_if_needed w = wait_direct w.
Proof.
  destruct w as [c rl log cm].
  unfold wait_if_needed, wait_direct, set_request_times.
  unfold bind, time_time, get_limiter, put_limiter, time_sleep, ret, raise,
    sleep_clock.
  cbn [w_clock w_limiter w_requests w_current_model rpm min_delay
       request_times last_request_time clk_now clk_lags].
  destruct (Qlt_bool (clk_now (tick c) - last_request_time rl) (min_delay rl))
    eqn:E1.
  - apply Qlt_bool_iff in E1.
    rewrite (proj2 (Qlt_bool_false _ 0)) by lra.
    cbn [w_clock w_limiter w_requests w_current_model rpm min_delay
         request_times last_request_time clk_now clk_lags].
    match goal with |- context [prune ?n (request_times rl)] =>
      set (times2 := prune n (request_times rl)) end.
    destruct (rpm rl <=? length times2)%nat; [| reflexivity].
    destruct times2 as [|oldest times2']; [reflexivity |].
    match goal with |- context [Qlt_bool 0 ?wt] =>
      destruct (Qlt_bool 0 wt) eqn:E2 end; [| reflexivity].
    apply Qlt_bool_iff in E2.
    rewrite (proj2 (Qlt_bool_false _ 0)) by lra. reflexivity.
  - cbn [w_clock w_limiter w_requests w_current_model rpm min_delay
         request_times last_request_time clk_now clk_lags].
    set (times2 := prune (clk_now (tick c)) (request_times rl)).
    destruct (rpm rl <=? length times2)%nat; [| reflexivity].
    destruct times2 as [|oldest times2']; [reflexivity |].
    match goal with |- context [Qlt_bool 0 ?wt] =>
      destruct (Qlt_bool 0 wt) eqn:E2 end; [| reflexivity].
    apply Qlt_bool_iff in E2.
    rewrite (proj2 (Qlt_bool_false _ 0)) by lra. reflexivity.
Qed.


Lemma tick_lags c :
  Forall (fun lag => 0 <= lag) (clk_lags c) →
  clk_now c <= clk_now (tick c)
  ∧ Forall (fun lag => 0 <= lag) (clk_lags (tick c)).
Proof.
  unfold tick. destruct (clk_lags c) as [|lag lags] eqn:E; simpl.
  - intros _. rewrite E. split; [lra | constructor].
  - intros [Hlag Hlags]%Forall_cons. split; [lra | done].
Qed.

Lemma prune_prune a b l : a <= b → prune b (prune a l) = prune b l.
Proof.
  intros Hab. unfold prune. rewrite list_filter_filter.
  apply list_filter_iff. intros t. split; [by intros [H _] |].
  intros H. split; [done |].
  apply Is_true_true, Qlt_bool_iff. apply Is_true_true, Qlt_bool_iff in H. lra.
Qed.

Lemma prune_snoc now l : prune now (l ++ [now]) = prune now l ++ [now].
Proof.
  unfold prune. rewrite filter_app. f_equal.
  rewrite filter_cons_True; [done |].
  apply Is_true_true, Qlt_bool_iff. lra.
Qed.

Lemma prune_head now l oldest tl :
  prune now l = oldest :: tl → now - oldest < 60.
Proof.
  intros H.
  assert (Hin : oldest ∈ prune now l) by (rewrite H; left).
  apply list_elem_of_filter in Hin as [Hp _].
  by apply Is_true_true, Qlt_bool_iff in Hp.
Qed.

Lemma prune_drop_old now oldest tl :
  60 <= now - oldest → prune now (oldest :: tl) = prune now tl.
Proof.
  intros H. unfold prune. rewrite filter_cons_False; [done |].
  intros Hp. apply Is_true_true, Qlt_bool_iff in Hp. lra.
Qed.

Lemma length_prune now l : (length (prune now l) <= length l)%nat.
Proof. apply length_filter. Qed.

Lemma filter_length_mono {A} (P R : A → Prop)
  `{!∀ x, Decision (P x)} `{!∀ x, Decision (R x)} (l : list A) :
  (∀ x, P x → R x) → (length (filter P l) <= length (filter R l))%nat.
Proof.
  intros HPR. induction l as [|x l IH]; [done |].
  rewrite !filter_cons.
  destruct (decide (P x)) as [Hp | Hp].
  - rewrite decide_True by auto. simpl. lia.
  - destruct (decide (R x)); simpl; lia.
Qed.

Lemma spaced_snoc d hist now :
  spaced d hist →
  (∀ l, last hist = Some l → d <= now - l) →
  spaced d (hist ++ [now]).
Proof.
  intros Hs Hlast i a b Ha Hb.
  destruct (decide (S i < length hist)%nat) as [Hlt | Hge].
  - rewrite lookup_app_l in Ha by lia. rewrite lookup_app_l in Hb by lia.
    by eapply Hs.
  - assert (Hi : S i = length hist).
    { apply lookup_lt_Some in Hb. rewrite length_app in Hb. simpl in Hb. lia. }
    rewrite lookup_app_l in Ha by lia.
    rewrite lookup_app_r in Hb by lia.
    replace (S i - length hist)%nat with O in Hb by lia.
    injection Hb as <-. apply Hlast.
    rewrite last_lookup. rewrite <- Hi. simpl. exact Ha.
Qed.

Lemma in_window_snoc rpm0 hist now times :
  (∀ s, (in_window s hist <= rpm0)%nat) →
  times = prune now (hist ++ [now]) →
  (length times <= rpm0)%nat →
  ∀ s, (in_window s (hist ++ [now]) <= rpm0)%nat.
Proof.
  intros Hold Htimes Hlen s. unfold in_window.
  destruct (Qlt_le_dec s now) as [Hlt | Hle].
  - rewrite filter_app, filter_cons_False, filter_nil, app_nil_r.
    + apply Hold.
    + intros [_ H]%andb_True. apply Is_true_true, Qle_bool_iff in H. lra.
  - etrans; [| exact Hlen]. rewrite Htimes. unfold prune.
    apply filter_length_mono. intros t [H _]%andb_True.
    apply Is_true_true, Qlt_bool_iff. apply Is_true_true, Qlt_bool_iff in H.
    lra.
Qed.

Lemma prune_inv hist w now :
  limiter_inv hist w →
  clk_now (w_clock w) <= now →
  prune now (request_times (w_limiter w)) = prune now hist.
Proof.
  intros (_ & Hrt & _ & Hlast) Hnow. rewrite Hrt.
  destruct (last hist) as [l|] eqn:El.
  - destruct (Hlast l eq_refl) as [-> Hle]. apply prune_prune. lra.
  - apply last_None in El. by subst hist.
Qed.

(** The request recorded at the reading of clock [c], after the retained
    timestamps [times]. *)
Lemma record_inv hist w c times :
  limiter_inv hist w →
  Forall (fun lag => 0 <= lag) (clk_lags c) →
  times = prune (clk_now c) hist →
  (length times < rpm (w_limiter w))%nat →
  limiter_inv (hist ++ [clk_now c])
    (mkWorld c
       (mkLimiter (rpm (w_limiter w)) (min_delay (w_limiter w))
          (times ++ [clk_now c]) (clk_now c))
       (w_requests w) (w_current_model w)).
Proof.
  intros Hinv Hlags Htimes Hlen. unfold limiter_inv. simpl.
  split; [done |]. split; [by rewrite prune_snoc, Htimes |].
  split; [rewrite length_app; simpl; lia |].
  intros l Hl. rewrite last_snoc in Hl. injection Hl as <-. split; [done | lra].
Qed.

Lemma wait_step hist w r w' :
  limiter_inv hist w →
  wait_if_needed w = (r, w') →
  rpm (w_limiter w') = rpm (w_limiter w)
  ∧ min_delay (w_limiter w') = min_delay (w_limiter w)
  ∧ match r with
    | Raise _ => limiter_inv hist w'
    | Val _ =>
        limiter_inv (hist ++ [last_request_time (w_limiter w')]) w'
        ∧ ∀ l, last hist = Some l →
               min_delay (w_limiter w) <= last_request_time (w_limiter w') - l
    end.
Proof.
  intros Hinv. pose proof Hinv as (Hlags & Hrt & Hlen & Hlast).
  rewrite wait_if_needed_direct. unfold wait_direct.
  destruct (tick_lags _ Hlags) as [Hc1 Hlags1].
  set (c1 := tick (w_clock w)) in *.
  set (rl := w_limiter w) in *.
  match goal with |- context [prune (clk_now ?c) (request_times rl)] =>
    set (c2 := c) end.
  assert (Hc2 : clk_now c1 <= clk_now c2
                ∧ Forall (fun lag => 0 <= lag) (clk_lags c2)
                ∧ min_delay rl <= clk_now c2 - last_request_time rl).
  { subst c2.
    destruct (Qlt_bool (clk_now c1 - last_request_time rl) (min_delay rl)) eqn:E.
    - apply Qlt_bool_iff in E.
      destruct (tick_lags (sleep_clock
                  (min_delay rl - (clk_now c1 - last_request_time rl)) c1))
        as [Ht Hl]; [done |].
      simpl in Ht. split; [lra |]. split; [done | lra].
    - apply Qlt_bool_false in E. split; [lra |]. split; [done | lra]. }
  clearbody c2. destruct Hc2 as (Hc12 & Hlags2 & Hdelay).
  assert (Htimes2 : prune (clk_now c2) (request_times rl)
                    = prune (clk_now c2) hist).
  { apply prune_inv; [done | lra]. }
  assert (Hspace : ∀ c, clk_now c2 <= clk_now c →
            ∀ l, last hist = Some l → min_delay rl <= clk_now c - l).
  { intros c Hc l Hl. destruct (Hlast l Hl) as [-> _]. fold rl. lra. }
  set (times2 := prune (clk_now c2) (request_times rl)) in *.
  pose proof (length_prune (clk_now c2) (request_times rl)) as Hlen2.
  fold times2 in Hlen2.
  destruct (rpm rl <=? length times2)%nat eqn:Erpm.
  - destruct times2 as [|oldest tl] eqn:Et.
    + intros [= <- <-]. split; [done |]. split; [done |].
      unfold limiter_inv. simpl. apply Nat.leb_le in Erpm. simpl in Erpm.
      split; [done |]. split.
      * assert (Hz : request_times rl = []).
        { destruct (request_times rl); [done | simpl in Hlen; lia]. }
        by rewrite <- Hrt, Hz.
      * split; [lia |]. intros l Hl. destruct (Hlast l Hl). split; [done | lra].
    + apply prune_head in Et as Hold. fold times2 in Htimes2.
      destruct (Qlt_bool 0 (60 - (clk_now c2 - oldest) + (1 # 10))) eqn:Ew.
      * destruct (tick_lags (sleep_clock
                    (60 - (clk_now c2 - oldest) + (1 # 10)) c2))
          as [Ht Hl]; [done |].
        set (c3 := tick (sleep_clock (60 - (clk_now c2 - oldest) + (1 # 10)) c2))
          in *.
        simpl in Ht.
        intros [= <- <-]. split; [done |]. split; [done |]. simpl. split.
        -- apply (record_inv hist w c3); try done.
           ++ rewrite Htimes2. apply prune_prune. lra.
           ++ rewrite prune_drop_old by lra.
              pose proof (length_prune (clk_now c3) tl). simpl in Hlen2.
              fold rl. lia.
        -- apply Hspace. lra.
      * apply Qlt_bool_false in Ew. lra.
  - apply Nat.leb_gt in Erpm.
    intros [= <- <-]. split; [done |]. split; [done |]. simpl. split.
    + apply (record_inv hist w c2); try done.
    + apply Hspace. lra.
Qed.

Lemma recorded_by_inv rpm0 d0 n : ∀ hist w,
  limiter_inv hist w →
  rpm (w_limiter w) = rpm0 →
  min_delay (w_limiter w) = d0 →
  spaced d0 hist →
  (∀ s, (in_window s hist <= rpm0)%nat) →
  spaced d0 (hist ++ recorded_by n w)
  ∧ ∀ s, (in_window s (hist ++ recorded_by n w) <= rpm0)%nat.
Proof.
  induction n as [|n IH]; intros hist w Hinv Hrpm Hd Hsp Hwin.
  - simpl. by rewrite app_nil_r.
  - cbn [recorded_by].
    destruct (wait_if_needed w) as [[[]|e] w'] eqn:Ew;
      apply (wait_step hist) in Ew as (Hrpm' & Hd' & Hstep); try done.
    + destruct Hstep as [Hinv' Hgap].
      set (now := last_request_time (w_limiter w')) in *.
      replace (hist ++ now :: recorded_by n w')
        with ((hist ++ [now]) ++ recorded_by n w')
        by (by rewrite <- app_assoc).
      apply IH; [done | congruence | congruence | |].
      * apply spaced_snoc; [done |]. intros l Hl. rewrite <- Hd. by apply Hgap.
      * destruct Hinv' as (_ & Hrt' & Hlen' & _).
        apply (in_window_snoc rpm0 hist now (request_times (w_limiter w')));
          [done | exact Hrt' | congruence].
    + apply IH; [done | congruence | congruence | done | done].
Qed.

(** C4: over any number of calls on one limiter, with a clock that does not
    run backwards and sleeps that last at least as long as asked, two
    consecutive recorded timestamps are at least [min_delay] apart, and the 60
    seconds that end at any instant hold at most [rpm] recorded timestamps. *)
Theorem C4_rate_limiter_spacing_and_window rpm0 d0 clock log cm n :
  Forall (fun lag => 0 <= lag) (clk_lags clock) →
  let ts := recorded_by n (mkWorld clock (new_limiter rpm0 d0) log cm) in
  (∀ i a b, ts !! i = Some a → ts !! S i = Some b → d0 <= b - a)
  ∧ ∀ s, (length (filter (fun t => Qlt_bool (s - 60) t && Qle_bool t s) ts)
          <= rpm0)%nat.
Proof.
  intros Hlags ts.
  destruct (recorded_by_inv rpm0 d0 n []
              (mkWorld clock (new_limiter rpm0 d0) log cm)) as [Hsp Hwin].
  - unfold limiter_inv. simpl. split; [done |]. split; [done |].
    split; [lia |]. intros l Hl. discriminate.
  - done.
  - done.
  - intros i a b Ha. by rewrite lookup_nil in Ha.
  - intros s. unfold in_window. simpl. lia.
  - split; [exact Hsp | exact Hwin].
Qed.

Lemma C4_rate_limiter_spacing_and_window_witness :
  let ts := recorded_by 4
              (mkWorld (mkClock 1000 [0; 1 # 4; 0; 0; 30; 0; 0; 0])
                 (new_limiter 2 half) [] []) in
  (∀ i a b, ts !! i = Some a → ts !! S i = Some b → half <= b - a)
  ∧ ∀ s, (length (filter (fun t => Qlt_bool (s - 60) t && Qle_bool t s) ts)
          <= 2)%nat.
Proof.
  apply (C4_rate_limiter_spacing_and_window 2 half
           (mkClock 1000 [0; 1 # 4; 0; 0; 30; 0; 0; 0]) [] [] 4).
  simpl. repeat constructor; unfold Qle; simpl; lia.
Defined.

(** ** The client's retry and fallback order *)

Lemma wait_requests w : w_requests (snd (wait_if_needed w)) = w_requests w.
Proof.
  rewrite wait_if_needed_direct. unfold wait_direct.
  repeat match goal with
         | |- context [if ?b then _ else _] => destruct b
         | |- context [match ?l with [] => _ | _ :: _ => _ end] => destruct l
         end; reflexivity.
Qed.

Lemma wait_raise_dead w e w' : wait_if_needed w = (Raise e, w') → dead w'.
Proof.
  rewrite wait_if_needed_direct. unfold wait_direct.
  match goal with |- context [prune ?n ?l] => set (times2 := prune n l) end.
  destruct (rpm (w_limiter w) <=? length times2)%nat eqn:E; [| discriminate].
  destruct times2 as [|oldest times2'].
  - intros [= <- <-]. apply Nat.leb_le in E. simpl in E.
    split; simpl; [lia | done].
  - match goal with |- context [Qlt_bool 0 ?wt] => destruct (Qlt_bool 0 wt) end;
      discriminate.
Qed.

Lemma wait_of_dead w :
  dead w →
  ∃ w', wait_if_needed w = (Raise IndexError, w')
        ∧ dead w' ∧ w_requests w' = w_requests w.
Proof.
  intros [Hrpm Htimes]. rewrite wait_if_needed_direct. unfold wait_direct.
  rewrite Htimes, Hrpm. cbn [prune filter length Nat.leb].
  eexists. split; [reflexivity |]. split; [| reflexivity].
  split; simpl; done.
Qed.

Lemma wait_alive w :
  (0 < rpm (w_limiter w))%nat →
  ∃ w', wait_if_needed w = (Val tt, w')
        ∧ rpm (w_limiter w') = rpm (w_limiter w)
        ∧ w_requests w' = w_requests w.
Proof.
  intros Hrpm. rewrite wait_if_needed_direct. unfold wait_direct.
  match goal with |- context [prune ?n ?l] => set (times2 := prune n l) end.
  destruct (rpm (w_limiter w) <=? length times2)%nat eqn:E.
  - destruct times2 as [|oldest times2'].
    + apply Nat.leb_le in E. simpl in E. lia.
    + match goal with |- context [Qlt_bool 0 ?wt] => destruct (Qlt_bool 0 wt) end;
        eexists; (split; [reflexivity |]); done.
  - eexists; (split; [reflexivity |]); done.
Qed.

Lemma time_sleep_frame d w r w' :
  time_sleep d w = (r, w') →
  w_limiter w' = w_limiter w ∧ w_requests w' = w_requests w.
Proof.
  unfold time_sleep. destruct (Qlt_bool d 0); intros [= <- <-]; done.
Qed.

Section client_facts.
Variable lower : pystr → pystr.
Variable respond : nat → pystr → Outcome.
Variable config : AIConfig.

(** What the [except] block can do: [break] on a not-found error, let a
    [ValueError] of [time.sleep] escape, or go on with the loop after an
    optional sleep. *)
Lemma except_block_cases retry e next w r w' :
  except_block lower config retry e next w = (r, w') →
  (classify lower (exn_str e) = NotFound
   ∧ r = Val (inr (Some (exn_str e))) ∧ w' = w)
  ∨ (w_limiter w' = w_limiter w ∧ w_requests w' = w_requests w
     ∧ ∃ e', r = Raise e')
  ∨ (classify lower (exn_str e) ≠ NotFound
     ∧ ∃ w1, w_limiter w1 = w_limiter w ∧ w_requests w1 = w_requests w
             ∧ next (Some (exn_str e)) w1 = (r, w')).
Proof.
  unfold except_block.
  assert (Hsleep : ∀ d,
    (run time_sleep d in next (Some (exn_str e))) w = (r, w') →
    (w_limiter w' = w_limiter w ∧ w_requests w' = w_requests w
     ∧ ∃ e', r = Raise e')
    ∨ ∃ w1, w_limiter w1 = w_limiter w ∧ w_requests w1 = w_requests w
            ∧ next (Some (exn_str e)) w1 = (r, w')).
  { intros d. unfold bind.
    destruct (time_sleep d w) as [[[]|e'] w1] eqn:Es;
      apply time_sleep_frame in Es as [Hl Hr].
    - intros H. right. by exists w1.
    - intros [= <- <-]. left. eauto. }
  destruct (classify lower (exn_str e)) eqn:Ec.
  - intros H. apply Hsleep in H as [H | H]; [by right; left | by right; right].
  - intros [= <- <-]. by left.
  - intros H. apply Hsleep in H as [H | H]; [by right; left | by right; right].
  - destruct (Z.of_nat retry <? Z.of_nat (max_retries config) - 1)%Z.
    + intros H. apply Hsleep in H as [H | H]; [by right; left | by right; right].
    + intros H. right; right. split; [done |]. by exists w.
Qed.

(** One iteration of the retry loop, by the outcome of the rate limiter and
    of the request. *)
Lemma retry_loop_S m retry k last_error w :
  retry_loop lower respond config m retry (S k) last_error w
  = match wait_if_needed w with
    | (Raise e, w1) =>
        except_block lower config retry e
          (retry_loop lower respond config m (S retry) k) w1
    | (Val _, w1) =>
        let w2 :=
          mkWorld (w_clock w1) (w_limiter w1)
            (w_requests w1 ++ [(m, respond (length (w_requests w1)) m)])
            (w_current_model w1) in
        match respond (length (w_requests w1)) m with
        | Reply text => (Val (inl text), w2)
        | Failure error_str =>
            except_block lower config retry (ApiError error_str)
              (retry_loop lower respond config m (S retry) k) w2
        end
    end.
Proof.
  cbn [retry_loop]. unfold bind at 1, try_except, bind at 1.
  destruct (wait_if_needed w) as [[[]|e] w1]; [| reflexivity].
  unfold _request_with_model.
  destruct (respond (length (w_requests w1)) m); reflexivity.
Qed.

Lemma model_loop_cons m rest last_error w :
  model_loop lower respond config (m :: rest) last_error w
  = match retry_loop lower respond config m 0 (max_retries config) last_error
            (with_current_model m w) with
    | (Val (inl text), w1) => (Val text, w1)
    | (Val (inr last_error'), w1) =>
        model_loop lower respond config rest last_error' w1
    | (Raise e, w1) => (Raise e, w1)
    end.
Proof.
  cbn [model_loop]. unfold bind at 1, set_current_model. unfold bind at 1.
  destruct (retry_loop lower respond config m 0 (max_retries config)
              last_error (with_current_model m w)) as [[[text|last']|e] w1];
    reflexivity.
Qed.

Lemma dead_frame w w1 :
  w_limiter w1 = w_limiter w → dead w → dead w1.
Proof. unfold dead. by intros ->. Qed.

Lemma retry_loop_dead m k : ∀ retry last_error w r w',
  dead w →
  retry_loop lower respond config m retry k last_error w = (r, w') →
  w_requests w' = w_requests w ∧ dead w' ∧ ∀ text, r ≠ Val (inl text).
Proof.
  induction k as [|k IH]; intros retry last_error w r w' Hdead.
  - intros [= <- <-]. done.
  - rewrite retry_loop_S.
    destruct (wait_of_dead w Hdead) as (w1 & -> & Hdead1 & Hreq1).
    intros H. apply except_block_cases in H
      as [(_ & -> & ->) | [(Hl & Hr & e' & ->) | (_ & w2 & Hl & Hr & H)]].
    + done.
    + split; [congruence |]. split; [by eapply dead_frame | done].
    + apply IH in H as (Hreq & Hd & Hne); [| by eapply dead_frame].
      split; [congruence | done].
Qed.

Lemma model_loop_dead models : ∀ last_error w r w',
  dead w →
  model_loop lower respond config models last_error w = (r, w') →
  w_requests w' = w_requests w.
Proof.
  induction models as [|m rest IH]; intros last_error w r w' Hdead.
  - intros [= <- <-]. done.
  - rewrite model_loop_cons. set (w0' := with_current_model m w).
    assert (Hdead0 : dead w0') by done.
    destruct (retry_loop lower respond config m 0 (max_retries config) last_error w0')
      as [[[text|last']|e] w1] eqn:Er;
      apply (retry_loop_dead _ _ _ _ _ _ _ Hdead0) in Er as (Hreq & Hd & Hne).
    + by destruct (Hne text).
    + intros H. apply IH in H; [| done]. by rewrite H, Hreq.
    + intros [= <- <-]. done.
Qed.

Lemma last_cons_keep {A} (x y : A) l : last l = Some y → last (x :: l) = Some y.
Proof. intros H. rewrite last_cons, H. done. Qed.

Lemma retried_but_last_nil : retried_but_last lower [].
Proof. intros pre r post H. by destruct pre. Qed.

Lemma retried_but_last_one r : retried_but_last lower [r].
Proof.
  intros pre r' post H Hpost. destruct pre as [|p pre]; simpl in H.
  - injection H as _ <-. done.
  - injection H as _ H. by destruct pre.
Qed.

Lemma retried_but_last_cons r block :
  retried lower r → retried_but_last lower block →
  retried_but_last lower (r :: block).
Proof.
  intros Hr Hb pre r' post H Hpost. destruct pre as [|p pre]; simpl in H.
  - injection H as <- _. exact Hr.
  - injection H as _ H. by apply (Hb pre r' post).
Qed.

Ltac block_goal :=
  first [ done | by repeat constructor | simpl; lia | congruence ].

(** The requests of one retry loop: a block for the loop's model, no longer
    than the iterations left; when the loop ends without a [return], every
    request of the block failed and the block is full, or ends on a
    not-found failure, or the limiter is dead. *)
Lemma retry_loop_block m k : ∀ retry last_error w r w',
  retry_loop lower respond config m retry k last_error w = (r, w') →
  ∃ block,
    w_requests w' = w_requests w ++ block
    ∧ Forall (fun x => fst x = m) block
    ∧ (length block <= k)%nat
    ∧ retried_but_last lower block
    ∧ match r with
      | Val (inr _) =>
          Forall failed block
          ∧ (length block = k
             ∨ (∃ m' e, last block = Some (m', Failure e)
                        ∧ classify lower e = NotFound)
             ∨ dead w')
      | _ => True
      end.
Proof.
  induction k as [|k IH]; intros retry last_error w r w'.
  - intros [= <- <-]. exists []. rewrite app_nil_r.
    split; [block_goal |]. split; [block_goal |]. split; [block_goal |].
    split; [apply retried_but_last_nil |].
    split; [block_goal | by left].
  - rewrite retry_loop_S.
    pose proof (wait_requests w) as Hreq.
    destruct (wait_if_needed w) as [[[]|e] w1] eqn:Ew; simpl in Hreq.
    + destruct (respond (length (w_requests w1)) m) as [text|err] eqn:Eo.
      * intros [= <- <-]. exists [(m, Reply text)]. simpl. rewrite Hreq.
        split; [block_goal |]. split; [block_goal |]. split; [block_goal |].
        split; [apply retried_but_last_one | done].
      * intros H. apply except_block_cases in H
          as [(Hc & -> & ->) | [(Hl & Hr & e' & ->) | (Hnf & w2 & Hl & Hr & H)]].
        -- exists [(m, Failure err)]. simpl. rewrite Hreq.
           split; [block_goal |]. split; [block_goal |]. split; [block_goal |].
           split; [apply retried_but_last_one |].
           split; [block_goal |].
           right; left. by exists m, err.
        -- exists [(m, Failure err)]. rewrite Hr. simpl. rewrite Hreq.
           split; [block_goal |]. split; [block_goal |]. split; [block_goal |].
           split; [apply retried_but_last_one | done].
        -- apply IH in H as (block & Hb & Hm & Hlen & Hretried & Hend).
           exists ((m, Failure err) :: block).
           rewrite Hb, Hr. simpl. rewrite Hreq, <- app_assoc. simpl.
           split; [block_goal |]. split; [by constructor |].
           split; [block_goal |].
           split; [by apply retried_but_last_cons |].
           destruct r as [[text|last']|e']; [done | | done].
           destruct Hend as [Hf Hend]. split; [by constructor |].
           destruct Hend as [Hfull | [(m' & e0 & Hlast & Hc) | Hd]].
           ++ left. lia.
           ++ right; left. exists m', e0. split; [by apply last_cons_keep | done].
           ++ by right; right.
    + apply wait_raise_dead in Ew as Hdead.
      intros H. exists []. rewrite app_nil_r.
      apply except_block_cases in H
        as [(Hc & -> & ->) | [(Hl & Hr & e' & ->) | (_ & w2 & Hl & Hr & H)]].
      * split; [block_goal |]. split; [block_goal |]. split; [block_goal |].
        split; [apply retried_but_last_nil |].
        split; [block_goal |]. by right; right.
      * split; [block_goal |]. split; [block_goal |]. split; [block_goal |].
        split; [apply retried_but_last_nil | done].
      * apply retry_loop_dead in H as (Hreq' & Hd & Hne);
          [| by eapply dead_frame].
        split; [block_goal |]. split; [block_goal |]. split; [block_goal |].
        split; [apply retried_but_last_nil |].
        destruct r as [[text|last']|e']; [done | | done].
        split; [block_goal | by right; right].
Qed.

(** With a limiter that lets requests through, the first iteration of a
    retry loop sends its request. *)
Lemma retry_loop_first_request m k retry last_error w r w' :
  (0 < rpm (w_limiter w))%nat →
  retry_loop lower respond config m retry (S k) last_error w = (r, w') →
  ∃ o rest, w_requests w' = w_requests w ++ (m, o) :: rest.
Proof.
  intros Hrpm. rewrite retry_loop_S.
  destruct (wait_alive w Hrpm) as (w1 & -> & _ & Hreq).
  destruct (respond (length (w_requests w1)) m) as [text|err] eqn:Eo.
  - intros [= <- <-]. exists (Reply text), []. simpl. by rewrite Hreq.
  - intros H. exists (Failure err).
    apply except_block_cases in H
      as [(_ & _ & ->) | [(_ & Hr & _) | (_ & w2 & _ & Hr & H)]].
    + exists []. simpl. by rewrite Hreq.
    + exists []. rewrite Hr. simpl. by rewrite Hreq.
    + apply retry_loop_block in H as (block & Hb & _).
      exists block. rewrite Hb, Hr. simpl. by rewrite Hreq, <- app_assoc.
Qed.

Lemma in_model_order_nil retries models :
  in_model_order lower retries models [].
Proof.
  induction models as [|m rest IH]; simpl; [done |].
  exists [], []. split; [done |]. split; [constructor |].
  split; [simpl; lia |]. split; [apply retried_but_last_nil |].
  split; [done | exact IH].
Qed.

Lemma in_model_order_last retries m rest block :
  Forall (fun x => fst x = m) block →
  (length block <= retries)%nat →
  retried_but_last lower block →
  in_model_order lower retries (m :: rest) block.
Proof.
  intros Hm Hlen Hretried. exists block, []. rewrite app_nil_r.
  split; [done |]. split; [done |]. split; [done |]. split; [done |].
  split; [done | apply in_model_order_nil].
Qed.

Lemma model_loop_trace models : ∀ last_error w r w',
  model_loop lower respond config models last_error w = (r, w') →
  ∃ trace,
    w_requests w' = w_requests w ++ trace
    ∧ in_model_order lower (max_retries config) models trace.
Proof.
  induction models as [|m rest IH]; intros last_error w r w'.
  - intros [= <- <-]. exists []. by rewrite app_nil_r.
  - rewrite model_loop_cons. set (w0' := with_current_model m w).
    destruct (retry_loop lower respond config m 0 (max_retries config)
                last_error w0') as [[[text|last']|e] w1] eqn:Er;
      apply retry_loop_block in Er as (block & Hb & Hm & Hlen & Hretried & Hend).
    + intros [= <- <-]. exists block. split; [exact Hb |].
      by apply in_model_order_last.
    + intros H. pose proof H as H'.
      apply IH in H as (tail & Ht & Hord).
      exists (block ++ tail). split.
      { rewrite Ht, Hb. by rewrite <- app_assoc. }
      exists block, tail. split; [done |]. split; [done |]. split; [done |].
      split; [done |]. split; [| done].
      intros Htail. destruct Hend as [Hf [Hfull | [Hnf | Hd]]].
      * split; [done | by left].
      * split; [done | by right].
      * apply (model_loop_dead _ _ _ _ _ Hd) in H'.
        rewrite H' in Ht. apply (f_equal length) in Ht.
        rewrite length_app in Ht. destruct tail; [done | simpl in Ht; lia].
    + intros [= <- <-]. exists block. split; [exact Hb |].
      by apply in_model_order_last.
Qed.

Lemma request_trace_spec w :
  w_requests (snd (generate lower respond config w))
  = w_requests w ++ request_trace lower respond config w
  ∧ in_model_order lower (max_retries config)
      (model config :: fallback_models config)
      (request_trace lower respond config w).
Proof.
  unfold request_trace, generate.
  destruct (model_loop lower respond config
              (model config :: fallback_models config) None w) as [r w'] eqn:E.
  apply model_loop_trace in E as (trace & Ht & Hord).
  cbn [snd]. rewrite Ht, drop_app_length. done.
Qed.

End client_facts.

Section scenario_not_found.
Variable lower : pystr → pystr.
Variable respond : nat → pystr → Outcome.
Variable config : AIConfig.
Variables x y : pystr.
Hypothesis primary : model config = x.
Hypothesis fallback : fallback_models config = [y].
Hypothesis x_not_found_always :
  ∀ n, ∃ e, respond n x = Failure e ∧ classify lower e = NotFound.

Lemma request_trace_from w T :
  w_requests (snd (generate lower respond config w)) = w_requests w ++ T →
  request_trace lower respond config w = T.
Proof. intros H. unfold request_trace. by rewrite H, drop_app_length. Qed.

(** After the first model, only [y] is left: its requests form the rest of
    the trace. *)
Lemma fallback_only_y last_error w r w' :
  model_loop lower respond config [y] last_error w = (r, w') →
  ∃ rest, w_requests w' = w_requests w ++ rest
          ∧ Forall (fun r => fst r = y) rest.
Proof.
  intros H. apply model_loop_trace in H as (trace & Ht & Hord).
  exists trace. split; [done |].
  destruct Hord as (block & tail & -> & Hy & _ & _ & _ & Htail).
  simpl in Htail. subst tail. by rewrite app_nil_r.
Qed.

(** With one retry at least and a limiter that lets requests through, the
    fallback is asked. *)
Lemma fallback_y_asked last_error w r w' :
  (0 < max_retries config)%nat →
  (0 < rpm (w_limiter w))%nat →
  model_loop lower respond config [y] last_error w = (r, w') →
  ∃ o rest, w_requests w' = w_requests w ++ (y, o) :: rest
            ∧ Forall (fun r => fst r = y) rest.
Proof.
  intros Hmax Hrpm H.
  destruct (fallback_only_y _ _ _ _ H) as (T & HT & Hy).
  assert (Hfirst : ∃ o rest, w_requests w' = w_requests w ++ (y, o) :: rest).
  { revert H. rewrite model_loop_cons.
    destruct (max_retries config) as [|k] eqn:Ek; [lia |].
    destruct (retry_loop lower respond config y 0 (S k) last_error
                (with_current_model y w)) as [[[text|last']|e] w1] eqn:Er;
      apply retry_loop_first_request in Er as (o & rest & Hr); try done.
    - intros [= <- <-]. by exists o, rest.
    - cbn [model_loop]. unfold raise. intros [= <- <-]. by exists o, rest.
    - intros [= <- <-]. by exists o, rest. }
  destruct Hfirst as (o & rest & Hfirst).
  rewrite HT in Hfirst. apply app_inv_head in Hfirst. subst T.
  exists o, rest. split; [done |]. by apply Forall_cons in Hy as [_ Hy].
Qed.

Lemma not_found_trace w :
  (request_trace lower respond config w = []
   ∨ ∃ e rest,
       request_trace lower respond config w = (x, Failure e) :: rest
       ∧ Forall (fun r => fst r = y) rest)
  ∧ ((0 < max_retries config)%nat → (0 < rpm (w_limiter w))%nat →
     ∃ e o rest,
       request_trace lower respond config w = (x, Failure e) :: (y, o) :: rest
       ∧ Forall (fun r => fst r = y) rest).
Proof.
  assert (Hgen : ∃ T, w_requests (snd (generate lower respond config w))
                      = w_requests w ++ T
           ∧ (T = [] ∨ ∃ e rest, T = (x, Failure e) :: rest
                                 ∧ Forall (fun r => fst r = y) rest)
           ∧ ((0 < max_retries config)%nat → (0 < rpm (w_limiter w))%nat →
              ∃ e o rest, T = (x, Failure e) :: (y, o) :: rest
                          ∧ Forall (fun r => fst r = y) rest)).
  { unfold generate. rewrite primary, fallback.
    rewrite model_loop_cons. set (w0 := with_current_model x w).
    assert (Hw0 : w_requests w0 = w_requests w) by done.
    assert (Hrpm0 : rpm (w_limiter w0) = rpm (w_limiter w)) by done.
    rewrite <- Hw0, <- Hrpm0. clearbody w0. clear Hw0 Hrpm0.
    destruct (max_retries config) as [|k] eqn:Ek.
    - cbn [retry_loop]. unfold ret.
      destruct (model_loop lower respond config [y] None w0) as [r w'] eqn:E.
      apply model_loop_trace in E as (trace & Ht & Hord).
      destruct Hord as (block & tail & -> & _ & Hlen & _ & _ & Htail).
      simpl in Htail. subst tail. rewrite Ek in Hlen.
      destruct block; [| simpl in Hlen; lia].
      exists []. cbn [snd]. split; [done |]. split; [by left | lia].
    - rewrite retry_loop_S.
      pose proof (wait_requests w0) as Hreq.
      destruct (wait_if_needed w0) as [[[]|e] w1] eqn:Ew; simpl in Hreq.
      + destruct (x_not_found_always (length (w_requests w1))) as (e & -> & Hc).
        unfold except_block. cbn [exn_str]. rewrite Hc. unfold ret.
        match goal with |- context [model_loop _ _ _ _ ?l ?w2] =>
          destruct (model_loop lower respond config [y] l w2) as [r w'] eqn:E
        end.
        pose proof E as E'.
        apply fallback_only_y in E as (rest & Hrest & Hy). cbn [snd].
        exists ((x, Failure e) :: rest). split.
        { rewrite Hrest. simpl. by rewrite Hreq, <- app_assoc. }
        split; [right; by exists e, rest |].
        intros _ Hrpm.
        destruct (wait_alive w0 Hrpm) as (w1' & Hok & Hrpm1 & _).
        assert (w1' = w1) by congruence. subst w1'.
        apply fallback_y_asked in E' as (o & rest' & Hrest' & Hy');
          [| rewrite Ek; lia | simpl; lia].
        rewrite Hrest in Hrest'. apply app_inv_head in Hrest'. subst rest.
        by exists e, o, rest'.
      + apply wait_raise_dead in Ew as Hdead.
        exists []. rewrite app_nil_r. split; [| split; [by left |]].
        * destruct (except_block lower config 0 e
                      (retry_loop lower respond config x 1 k) w1)
            as [r1 w2] eqn:Ex.
          assert (Hw2 : w_requests w2 = w_requests w0 ∧ dead w2).
          { apply except_block_cases in Ex
              as [(_ & _ & ->) | [(Hl & Hr & _) | (_ & w3 & Hl & Hr & H)]].
            - done.
            - split; [congruence | by eapply dead_frame].
            - apply retry_loop_dead in H as (Hreq' & Hd & _);
                [| by eapply dead_frame].
              split; [congruence | done]. }
          destruct Hw2 as [Hw2 Hd2].
          destruct r1 as [[text|last']|e1]; cbn [snd]; [done | | done].
          destruct (model_loop lower respond config [y] last' w2)
            as [r w'] eqn:E.
          apply (model_loop_dead _ _ _ _ _ _ _ _ Hd2) in E. cbn [snd].
          congruence.
        * intros _ Hrpm. destruct (wait_alive w0 Hrpm) as (w1' & Hok & _).
          congruence. }
  destruct Hgen as (T & HT & Hshape & Hlive).
  rewrite (request_trace_from w T HT). done.
Qed.

End scenario_not_found.

(** C3: the requests of a call of [generate] come in blocks, one per
    candidate model and in the order of the candidate list.  A block has at
    most [max_retries] requests; a request that is followed by another one
    of its block failed with an error that is not classified as not-found,
    so that a not-found failure (like a reply) ends the block of its model
    at once; and a request to a later model follows only a block in which
    every request failed and which used all [max_retries] attempts or ended
    on a not-found failure.  With a primary model [x] whose requests all
    fail as not-found and the fallback list [[y]], every request to [y]
    comes after exactly one request to [x]; and when the client sends
    anything (one retry at least, a limiter that lets requests through) the
    trace is that one request to [x], then a request to [y], then requests
    to [y] only. *)
Theorem C3_models_tried_in_order lower respond config w :
  in_model_order lower (max_retries config)
    (model config :: fallback_models config)
    (request_trace lower respond config w)
  ∧ ∀ x y,
      model config = x → fallback_models config = [y] → x ≠ y →
      (∀ n, ∃ e, respond n x = Failure e ∧ classify lower e = NotFound) →
      (∀ pre o post,
         request_trace lower respond config w = pre ++ (y, o) :: post →
         length (filter (fun r => fst r = x) pre) = 1%nat)
      ∧ ((0 < max_retries config)%nat → (0 < rpm (w_limiter w))%nat →
         ∃ e o rest,
           request_trace lower respond config w
           = (x, Failure e) :: (y, o) :: rest
           ∧ Forall (fun r => fst r = y) rest).
Proof.
  split; [apply request_trace_spec |].
  intros x y Hx Hy Hne Hnf.
  destruct (not_found_trace lower respond config x y Hx Hy Hnf w)
    as [Hshape Hlive].
  split; [| exact Hlive].
  intros pre o post Hsplit.
  destruct Hshape as [Hnil | (e & rest & Htrace & Hrest)].
  - rewrite Hnil in Hsplit. by destruct pre.
  - rewrite Htrace in Hsplit. destruct pre as [|p pre].
    + simpl in Hsplit. injection Hsplit as Hxy _ _. congruence.
    + simpl in Hsplit. injection Hsplit as <- Hrest'.
      rewrite Hrest' in Hrest. apply Forall_app in Hrest as [Hpre _].
      rewrite filter_cons_True by done. simpl. f_equal.
      clear -Hpre Hne. induction Hpre as [|r pre Hr _ IH]; [done |].
      rewrite filter_cons_False; [exact IH | congruence].
Qed.

Lemma C3_models_tried_in_order_witness :
  ∃ e o rest,
    request_trace ascii_lower (x_not_found (py "x")) xy_config
      (new_client xy_config (mkClock 1000 []))
    = (py "x", Failure e) :: (py "y", o) :: rest
    ∧ Forall (fun r => fst r = py "y") rest.
Proof.
  destruct (C3_models_tried_in_order ascii_lower (x_not_found (py "x"))
              xy_config (new_client xy_config (mkClock 1000 []))) as [_ H].
  apply (H (py "x") (py "y")).
  - reflexivity.
  - reflexivity.
  - discriminate.
  - intros n. eexists. split; [reflexivity | vm_compute; reflexivity].
  - simpl. lia.
  - simpl. lia.
Defined.

(** ** Partial regeneration of an index artifact *)

Lemma process_skill_other config extract i m (s : pystr * option pystr)
  (n : pystr) :
  fst s ≠ n → process_skill config extract i m s !! n = m !! n.
Proof.
  destruct s as [skill_name read]. simpl. intros Hne.
  destruct read as [content|]; [| done].
  destruct (extract i content skill_name); by rewrite lookup_insert_ne.
Qed.

Lemma process_skills_other config extract (todo : Scanned) (n : pystr) :
  Forall (fun s => fst s ≠ n) todo →
  ∀ i m, process_skills config extract i todo m !! n = m !! n.
Proof.
  induction 1 as [|s todo Hs _ IH]; intros i m; simpl; [done |].
  rewrite IH. by apply process_skill_other.
Qed.

(** C8: a run with a non-empty filter over an artifact that exists and
    parses leaves every entry whose name is not in the filter in the
    regenerated artifact, with the value it had. *)
Theorem C8_untargeted_entries_kept config extract all_skills skills_filter
  index (n : pystr) (v : pyval) :
  skills_filter ≠ [] →
  idx_skills index !! n = Some v →
  n ∉ skills_filter →
  ∃ index',
    artifact_after config extract all_skills skills_filter (ArtIndex index)
    = ArtIndex index'
    ∧ idx_skills index' !! n = Some v.
Proof.
  intros Hfilter Hget Hnot.
  unfold artifact_after, generate_index.
  rewrite (bool_decide_eq_false_2 (skills_filter = [])) by done.
  destruct (bool_decide (filter _ all_skills = [])).
  - by exists index.
  - eexists. split; [reflexivity |]. simpl.
    rewrite process_skills_other; [done |].
    apply List.Forall_forall. intros s Hs Heq.
    apply (proj2 (list_elem_of_In _ _)) in Hs.
    apply list_elem_of_filter in Hs as [Hin _].
    unfold str_in in Hin. apply bool_decide_unpack in Hin. by subst n.
Qed.

Lemma C8_untargeted_entries_kept_witness :
  ∃ index',
    artifact_after
      (mkAIConfig (py "ollama") (py "llama3") [] 20 half 3 2 [py "english"])
      (fun _ _ _ => None) two_skills [py "target"] (ArtIndex old_index)
    = ArtIndex index'
    ∧ idx_skills index' !! py "keep-me" = Some kept_entry.
Proof.
  apply (C8_untargeted_entries_kept _ _ two_skills [py "target"] old_index
           (py "keep-me") kept_entry).
  - discriminate.
  - vm_compute. reflexivity.
  - apply (bool_decide_unpack _). vm_compute. exact I.
Defined.

(** * Further properties *)

(** ** The registry *)

Section dict_more.
Context {V : Type}.
Implicit Types (d : pydict V) (k : pystr) (v : V).

Lemma dict_get_elem k v d : dict_get k d = Some v → (k, v) ∈ d.
Proof.
  induction d as [|[k' v'] d IH]; simpl; [done |].
  destruct (bool_decide (k = k')) eqn:E.
  - apply bool_decide_eq_true_1 in E. intros [= ->]. subst. left.
  - intros H. right. by apply IH.
Qed.

Lemma dict_set_Forall (P : pystr * V → Prop) k v d :
  Forall P d → P (k, v) → Forall P (dict_set k v d).
Proof.
  intros Hd Hkv. induction Hd as [|[k' v'] d Hx Hd IH]; simpl.
  - by constructor.
  - destruct (bool_decide (k = k')); constructor; done.
Qed.

Lemma dict_set_keys k v d :
  map fst (dict_set k v d)
  = if bool_decide (k ∈ map fst d) then map fst d else map fst d ++ [k].
Proof.
  induction d as [|[k' v'] d IH]; simpl.
  - by try rewrite bool_decide_eq_false_2 by apply not_elem_of_nil.
  - destruct (bool_decide (k = k')) eqn:E; simpl.
    + apply bool_decide_eq_true_1 in E. subst k'.
      rewrite bool_decide_eq_true_2; [done | left].
    + apply bool_decide_eq_false_1 in E. rewrite IH.
      destruct (bool_decide (k ∈ map fst d)) eqn:E'.
      * apply bool_decide_eq_true_1 in E'.
        rewrite bool_decide_eq_true_2; [done | by right].
      * apply bool_decide_eq_false_1 in E'.
        rewrite bool_decide_eq_false_2; [done |].
        intros [? | ?]%elem_of_cons; done.
Qed.

Lemma dict_set_NoDup k v d :
  NoDup (map fst d) → NoDup (map fst (dict_set k v d)).
Proof.
  intros Hd. rewrite dict_set_keys.
  destruct (bool_decide (k ∈ map fst d)) eqn:E; [done |].
  apply bool_decide_eq_false_1 in E.
  apply NoDup_app. split; [done |]. split; [| apply NoDup_singleton].
  intros x Hx Hk. apply list_elem_of_singleton in Hk. by subst.
Qed.
End dict_more.

(** A registry whose names are unique and are the names of its records. *)
Abbreviation keyed_by_name skills :=
  (NoDup (map fst skills)
   ∧ Forall (fun kr : pystr * SkillMetadata => name (snd kr) = fst kr) skills).

Lemma keyed_set (skills : pydict SkillMetadata) k r :
  keyed_by_name skills → name r = k → keyed_by_name (dict_set k r skills).
Proof.
  intros [Hnd Hnm] Hr. split; [by apply dict_set_NoDup |].
  by apply dict_set_Forall.
Qed.

Lemma keyed_step {A} (f : pydict SkillMetadata → A → pydict SkillMetadata)
  (l : list A) :
  (∀ skills x, keyed_by_name skills → keyed_by_name (f skills x)) →
  ∀ skills, keyed_by_name skills → keyed_by_name (fold_left f l skills).
Proof.
  intros Hf. induction l as [|x l IH]; intros skills H; simpl; [done |].
  apply IH, Hf, H.
Qed.

Lemma load_index_yaml_keyed d src : keyed_by_name (_load_index_yaml d src).
Proof.
  unfold _load_index_yaml.
  destruct (dir_index d) as [| |[entries|]];
    try (split; [constructor | constructor]).
  apply keyed_step; [| split; constructor].
  intros skills [k [e|]] H; [| done]. by apply keyed_set.
Qed.

Lemma merge_index_entry_keyed skills k indexed :
  keyed_by_name skills → name indexed = k →
  keyed_by_name (merge_index_entry skills (k, indexed)).
Proof.
  intros H Hk. unfold merge_index_entry.
  destruct (dict_get k skills) as [existing|] eqn:E; apply keyed_set; try done.
  apply dict_get_elem in E. destruct H as [_ Hnm].
  rewrite Forall_forall in Hnm. by apply (Hnm (k, existing)).
Qed.

Lemma merge_fold_keyed (indexed : pydict SkillMetadata) :
  Forall (fun kr => name (snd kr) = fst kr) indexed →
  ∀ skills, keyed_by_name skills →
            keyed_by_name (fold_left merge_index_entry indexed skills).
Proof.
  induction 1 as [|[k r] indexed Hk _ IH]; intros skills H; simpl; [done |].
  apply IH. by apply merge_index_entry_keyed.
Qed.

Lemma load_skill_path_keyed skills p :
  keyed_by_name skills → keyed_by_name (load_skill_path skills p).
Proof.
  intros H. destruct p as [d src]. unfold load_skill_path.
  assert (Hdocs : keyed_by_name
    (fold_left
       (fun skills it =>
          if item_is_dir it
          then match _load_skill_from_directory (dir_path d) it src with
               | Some skill => dict_set (name skill) skill skills
               | None => skills
               end
          else skills) (dir_items d) skills)).
  { apply keyed_step; [| done]. intros sk it Hsk.
    destruct (item_is_dir it); [| done].
    destruct (_load_skill_from_directory _ _ _); [| done].
    by apply keyed_set. }
  destruct (dir_index d) eqn:Ei; [done | |];
    (apply merge_fold_keyed; [apply load_index_yaml_keyed | done]).
Qed.

(** X1: in the registry that [_load_all_skills] builds, every name occurs
    once and is the [name] of the record stored under it, whatever the
    directories hold. *)
Theorem registry_keyed_by_name skill_paths :
  NoDup (map fst (_load_all_skills skill_paths))
  ∧ Forall (fun kr => name (snd kr) = fst kr) (_load_all_skills skill_paths).
Proof.
  unfold _load_all_skills. apply keyed_step.
  - intros skills p. apply load_skill_path_keyed.
  - split; constructor.
Qed.

Lemma load_skill_path_documents skills d src :
  load_skill_path skills (d, src)
  = match dir_index d with
    | IdxMissing => load_documents (dir_path d) src (dir_items d) skills
    | _ => fold_left merge_index_entry (_load_index_yaml d src)
             (load_documents (dir_path d) src (dir_items d) skills)
    end.
Proof. reflexivity. Qed.

Lemma load_documents_app parent src l1 l2 skills :
  load_documents parent src (l1 ++ l2) skills
  = load_documents parent src l2 (load_documents parent src l1 skills).
Proof. unfold load_documents. apply fold_left_app. Qed.

Lemma load_documents_cons parent src it items skills :
  load_documents parent src (it :: items) skills
  = load_documents parent src items
      (if item_is_dir it
       then match _load_skill_from_directory parent it src with
            | Some skill => dict_set (name skill) skill skills
            | None => skills
            end
       else skills).
Proof. reflexivity. Qed.

(** Documents of other names leave the record of [n] alone. *)
Lemma load_documents_other parent src (n : pystr) items : ∀ skills,
  Forall (fun it => item_is_dir it = true →
                    ∀ s, _load_skill_from_directory parent it src = Some s →
                         name s ≠ n) items →
  dict_get n (load_documents parent src items skills) = dict_get n skills.
Proof.
  induction items as [|it items IH]; intros skills Hall; [done |].
  apply Forall_cons in Hall as [Hit Hall].
  rewrite load_documents_cons, IH by done.
  destruct (item_is_dir it); [| done].
  destruct (_load_skill_from_directory parent it src) as [s|] eqn:E; [| done].
  apply dict_get_set_ne. by apply Hit.
Qed.

Lemma merge_indexed_identity existing indexed :
  same_identity (merge_indexed existing indexed) existing.
Proof. unfold same_identity, merge_indexed. simpl. done. Qed.

Lemma same_identity_trans r1 r2 r3 :
  same_identity r1 r2 → same_identity r2 r3 → same_identity r1 r3.
Proof.
  unfold same_identity. intros (?&?&?&?&?&?) (?&?&?&?&?&?).
  repeat split; congruence.
Qed.

(** Merging artifact entries keeps the identity of a record that is there. *)
Lemma merge_fold_identity (n : pystr) s indexed : ∀ skills,
  (∃ r, dict_get n skills = Some r ∧ same_identity r s) →
  ∃ r, dict_get n (fold_left merge_index_entry indexed skills) = Some r
       ∧ same_identity r s.
Proof.
  induction indexed as [|[k i] indexed IH]; intros skills H; [done |].
  cbn [fold_left]. apply IH. destruct H as (r & Hget & Hid).
  destruct (decide (k = n)) as [-> | Hne].
  - exists (merge_indexed r i).
    split; [by apply merge_index_entry_existing |].
    eapply same_identity_trans; [apply merge_indexed_identity | done].
  - exists r. split; [| done].
    rewrite merge_index_entry_other; done.
Qed.

(** X2: a SKILL.md of the highest-priority directory decides what its skill
    is: whatever the lower tiers and the INDEX.yaml files hold, the registry
    has a record under the document's name with the document's name, path,
    source, enforcement, description and (empty) intent patterns, provided no
    later item of the same directory loads a document of that name.  This
    covers a document without a parsable frontmatter, which is loaded under
    its directory name. *)
Theorem top_document_keeps_identity d src rest before it after s :
  dir_items d = before ++ it :: after →
  item_is_dir it = true →
  _load_skill_from_directory (dir_path d) it src = Some s →
  Forall (fun it' => item_is_dir it' = true →
                     ∀ s', _load_skill_from_directory (dir_path d) it' src
                           = Some s' →
                           name s' ≠ name s) after →
  ∃ r, dict_get (name s) (_load_all_skills ((d, src) :: rest)) = Some r
       ∧ same_identity r s.
Proof.
  intros Hitems Hdir Hload Hafter.
  unfold _load_all_skills. cbn [rev]. rewrite fold_left_app. cbn [fold_left].
  set (lower := fold_left load_skill_path (rev rest) []).
  rewrite load_skill_path_documents, Hitems.
  assert (Hdocs : dict_get (name s)
            (load_documents (dir_path d) src (before ++ it :: after) lower)
            = Some s).
  { rewrite load_documents_app, load_documents_cons.
    rewrite Hdir, Hload, load_documents_other by done.
    apply dict_get_set_eq. }
  assert (Hid : same_identity s s) by (unfold same_identity; done).
  destruct (dir_index d); [by exists s | |];
    (apply merge_fold_identity; by exists s).
Qed.

Lemma top_document_keeps_identity_witness :
  ∃ r, dict_get debug_helper
         (_load_all_skills
            [(document_artifact_dir project_dir_path, SrcProject);
             (artifact_dir user_dir_path, SrcUser)]) = Some r
       ∧ source r = SrcProject ∧ description r = [].
Proof.
  destruct (top_document_keeps_identity
              (document_artifact_dir project_dir_path) SrcProject
              [(artifact_dir user_dir_path, SrcUser)] []
              (mkItem debug_helper true
                 (MdText (Some debug_helper_frontmatter))) []
              (mkSkill debug_helper (project_dir_path ++ [debug_helper])
                 SrcProject medium suggested [] [] [py "debug"; py "error"]
                 [] [] [] true half))
    as (r & Hget & Hid).
  - reflexivity.
  - reflexivity.
  - reflexivity.
  - constructor.
  - exists r. split; [exact Hget |].
    destruct Hid as (_ & _ & Hsrc & _ & Hdesc & _). split; assumption.
Defined.

Lemma merge_indexed_idempotent existing indexed :
  merge_indexed (merge_indexed existing indexed) indexed
  = merge_indexed existing indexed.
Proof.
  unfold merge_indexed. simpl.
  f_equal.
  - destruct (negb (bool_decide (priority indexed = medium))); done.
  - destruct (bool_decide (keywords_korean existing = [])) eqn:E1,
      (bool_decide (keywords_korean indexed = [])) eqn:E2; simpl;
      rewrite ?E1, ?E2; simpl; rewrite ?E2; done.
  - destruct (bool_decide (keywords_english existing = [])) eqn:E1,
      (bool_decide (keywords_english indexed = [])) eqn:E2; simpl;
      rewrite ?E1, ?E2; simpl; rewrite ?E2; done.
  - destruct (bool_decide (tags existing = [])) eqn:E1,
      (bool_decide (tags indexed = [])) eqn:E2; simpl;
      rewrite ?E1, ?E2; simpl; rewrite ?E2; done.
  - destruct (bool_decide (use_cases existing = [])) eqn:E1,
      (bool_decide (use_cases indexed = [])) eqn:E2; simpl;
      rewrite ?E1, ?E2; simpl; rewrite ?E2; done.
  - destruct (negb (auto_activate indexed)); done.
  - destruct (negb (Qeq_bool (confidence_threshold indexed) half)); done.
Qed.

Lemma merge_indexed_self indexed : merge_indexed indexed indexed = indexed.
Proof.
  destruct indexed as [n p s pr e d kk ke tg uc ip aa ct].
  unfold merge_indexed. simpl. f_equal.
  - destruct (bool_decide (pr = medium)); done.
  - destruct (bool_decide (kk = [])); done.
  - destruct (bool_decide (ke = [])); done.
  - destruct (bool_decide (tg = [])); done.
  - destruct (bool_decide (uc = [])); done.
  - destruct aa; done.
  - destruct (Qeq_bool ct half); done.
Qed.

Lemma dict_set_set {V} (k : pystr) (v v' : V) d :
  dict_set k v (dict_set k v' d) = dict_set k v d.
Proof.
  induction d as [|[k0 v0] d IH]; simpl.
  - by rewrite bool_decide_eq_true_2.
  - destruct (bool_decide (k = k0)) eqn:E; simpl.
    + by rewrite bool_decide_eq_true_2.
    + by rewrite E, IH.
Qed.

(** X3: merging the same artifact entry into the registry a second time
    changes nothing, whether the first merge enriched a record or inserted
    a new one. *)
Theorem merge_index_entry_idempotent skills e :
  merge_index_entry (merge_index_entry skills e) e = merge_index_entry skills e.
Proof.
  destruct e as [k i]. unfold merge_index_entry at 2 3.
  destruct (dict_get k skills) as [r|] eqn:E.
  - unfold merge_index_entry.
    by rewrite dict_get_set_eq, merge_indexed_idempotent, dict_set_set.
  - unfold merge_index_entry.
    by rewrite dict_get_set_eq, merge_indexed_self, dict_set_set.
Qed.

(** X4: artifact entries can switch auto-activation off but never on: a
    record that does not auto-activate stays so through any sequence of
    merges. *)
Theorem artifacts_never_enable_auto_activate indexed : ∀ skills (n : pystr) r,
  dict_get n skills = Some r →
  auto_activate r = false →
  ∃ r', dict_get n (fold_left merge_index_entry indexed skills) = Some r'
        ∧ auto_activate r' = false.
Proof.
  induction indexed as [|[k i] indexed IH]; intros skills n r Hget Hoff.
  - by exists r.
  - cbn [fold_left]. destruct (decide (k = n)) as [-> | Hne].
    + apply (IH _ n (merge_indexed r i)).
      * by apply merge_index_entry_existing.
      * unfold merge_indexed. simpl. rewrite Hoff.
        by destruct (auto_activate i).
    + apply (IH _ n r); [| done].
      by rewrite merge_index_entry_other.
Qed.

Lemma artifacts_never_enable_auto_activate_witness :
  ∃ r', dict_get (py "always-on")
          (fold_left merge_index_entry
             [(py "always-on", always_on_skill)]
             [(py "always-on", mkSkill (py "always-on") [] SrcUser medium
                                 suggested [] [] [] [] [] [] false half)])
        = Some r'
        ∧ auto_activate r' = false.
Proof.
  apply (artifacts_never_enable_auto_activate
           [(py "always-on", always_on_skill)] _ (py "always-on")
           (mkSkill (py "always-on") [] SrcUser medium suggested [] [] [] []
              [] [] false half)).
  - reflexivity.
  - reflexivity.
Defined.

(** ** Discovery *)

Abbreviation by_tier :=
  (fun p q : SkillsDir * Source => tier_rank (snd p) <= tier_rank (snd q))%nat.

Lemma found_source o s : Forall (fun p => snd p = s) (found o s).
Proof. destruct o; simpl; repeat constructor. Qed.

Lemma custom_source l :
  Forall (fun p => snd p = SrcCustom) (flat_map (fun o => found o SrcCustom) l).
Proof.
  induction l as [|o l IH]; simpl; [constructor |].
  apply Forall_app. split; [apply found_source | done].
Qed.

Lemma skipped_source (skip : bool) o s :
  Forall (fun p => snd p = s) (if skip then [] else found o s).
Proof. destruct skip; [constructor | apply found_source]. Qed.

Lemma tier_block (l1 l2 : list (SkillsDir * Source)) s (lo : nat) :
  Forall (fun p => snd p = s) l1 →
  (lo <= tier_rank s)%nat →
  StronglySorted by_tier l2 ∧ Forall (fun p => tier_rank s <= tier_rank (snd p))%nat l2 →
  StronglySorted by_tier (l1 ++ l2)
  ∧ Forall (fun p => lo <= tier_rank (snd p))%nat (l1 ++ l2).
Proof.
  intros H1 Hlo [S2 F2]. rewrite Forall_forall in H1, F2. split.
  - apply StronglySorted_app_2; [| | done].
    + intros p q Hp Hq. rewrite (H1 p Hp). by apply F2.
    + clear F2 S2. induction l1 as [|p l1 IH]; constructor.
      * apply IH. intros q Hq. apply H1. by right.
      * apply Forall_forall. intros q Hq.
        rewrite (H1 p), (H1 q); [done | by right | by left].
  - apply Forall_forall. intros p [Hp | Hp]%elem_of_app.
    + by rewrite (H1 p Hp).
    + specialize (F2 p Hp). lia.
Qed.

(** X5: [_discover_skill_paths] lists the directories by tier, project
    before user before system before custom, and a skipped tier does not
    appear. *)
Theorem discovered_paths_by_tier skip_system skip_user fs :
  let paths := _discover_skill_paths skip_system skip_user fs in
  StronglySorted (fun p q => tier_rank (snd p) <= tier_rank (snd q))%nat paths
  ∧ (skip_user = true → Forall (fun p => snd p ≠ SrcUser) paths)
  ∧ (skip_system = true → Forall (fun p => snd p ≠ SrcSystem) paths).
Proof.
  unfold _discover_skill_paths.
  split; [| split].
  - refine (proj1 (tier_block _ _ SrcProject 1 (found_source _ _) _ _)); [done |].
    refine (tier_block _ _ SrcProject 1 (found_source _ _) _ _); [done |].
    refine (tier_block _ _ SrcUser 1 (skipped_source _ _ _) _ _);
      [simpl; lia |].
    refine (tier_block _ _ SrcSystem 2 (skipped_source _ _ _) _ _);
      [simpl; lia |].
    rewrite <- (app_nil_r (flat_map _ _)).
    refine (tier_block _ [] SrcCustom 3 (custom_source _) _ _);
      [simpl; lia |].
    split; constructor.
  - intros ->. repeat apply Forall_app_2; try constructor;
      (eapply Forall_impl;
       [first [apply found_source | apply skipped_source | apply custom_source]
       | by intros p ->]).
  - intros ->. repeat apply Forall_app_2; try constructor;
      (eapply Forall_impl;
       [first [apply found_source | apply skipped_source | apply custom_source]
       | by intros p ->]).
Qed.

Lemma discovered_paths_by_tier_witness :
  Forall (fun p => snd p ≠ SrcUser)
    (_discover_skill_paths false true fs_project_document_user_artifact).
Proof.
  apply (discovered_paths_by_tier false true fs_project_document_user_artifact).
  reflexivity.
Defined.

(** ** Keyword extraction *)

Lemma strip_particle_keeps particles (P : N → Prop) w :
  (2 <= length w)%nat → Forall P w →
  (2 <= length (strip_particle particles w))%nat
  ∧ Forall P (strip_particle particles w).
Proof.
  intros Hlen HP. induction particles as [|p ps IH]; simpl; [done |].
  destruct (endswith w p && (length p + 1 <? length w)%nat) eqn:E; [| done].
  apply andb_prop in E as [_ E]. apply Nat.ltb_lt in E. split.
  - rewrite length_take. lia.
  - by apply Forall_take.
Qed.

Lemma lstrip_Forall sep (P : N → Prop) s : Forall P s → Forall P (lstrip sep s).
Proof.
  induction 1 as [|c s Hc Hs IH]; simpl; [constructor |].
  destruct (sep c); [done | by constructor].
Qed.

Lemma strip_Forall sep (P : N → Prop) s : Forall P s → Forall P (strip sep s).
Proof.
  intros H. unfold strip.
  apply Forall_rev, lstrip_Forall, Forall_rev, lstrip_Forall, H.
Qed.

Lemma split_on_Forall sep s : ∀ cur,
  Forall (fun c => sep c = false) cur →
  Forall (Forall (fun c => sep c = false)) (split_on sep s cur).
Proof.
  induction s as [|c s IH]; intros cur Hcur; simpl.
  - destruct (bool_decide (cur = [])); by repeat constructor.
  - destruct (sep c) eqn:E.
    + apply Forall_app. split; [| by apply IH].
      destruct (bool_decide (cur = [])); by repeat constructor.
    + apply IH, Forall_app. by repeat constructor.
Qed.

Abbreviation clean_keyword rt :=
  (fun kw : pystr => (2 <= length kw)%nat
                     ∧ (kw ∉ STOPWORDS)
                     ∧ Forall (fun c => str_isspace rt c = false) kw).

Lemma extract_fold_clean rt (tokens : list pystr) : ∀ acc,
  Forall (Forall (fun c => str_isspace rt c = false)) tokens →
  Forall (clean_keyword rt) acc →
  Forall (clean_keyword rt)
    (fold_left
       (fun words w =>
          let w := strip (str_isspace rt) w in
          if (length w <? 2)%nat then words
          else
            let word_clean := strip_particle KOREAN_PARTICLES w in
            if negb (bool_decide (word_clean = []))
               && negb (str_in word_clean STOPWORDS)
            then words ++ [word_clean] else words)
       tokens acc).
Proof.
  induction tokens as [|w tokens IH]; intros acc Htok Hacc; [done |].
  apply Forall_cons in Htok as [Hw Htok].
  cbn [fold_left]. apply IH; [done |]. cbv zeta.
  destruct (length (strip (str_isspace rt) w) <? 2)%nat eqn:Hlen; [done |].
  apply Nat.ltb_ge in Hlen.
  destruct (strip_particle_keeps KOREAN_PARTICLES
              (fun c => str_isspace rt c = false)
              (strip (str_isspace rt) w) Hlen
              (strip_Forall _ _ _ Hw)) as [H2 Hns].
  destruct (negb (bool_decide (_ = [])) && negb (str_in _ STOPWORDS)) eqn:E;
    [| done].
  apply andb_prop in E as [_ E]. apply negb_true_iff in E.
  unfold str_in in E. apply bool_decide_eq_false in E.
  apply Forall_app. split; [done |]. by repeat constructor.
Qed.

(** X6: every keyword [_extract_keywords] returns has at least two
    characters, is not a stopword and contains no whitespace, whatever the
    message. *)
Theorem extracted_keywords_clean rt text :
  Forall (fun kw => (2 <= length kw)%nat
                    ∧ (kw ∉ STOPWORDS)
                    ∧ Forall (fun c => str_isspace rt c = false) kw)
    (_extract_keywords rt text).
Proof.
  unfold _extract_keywords. apply extract_fold_clean; [| constructor].
  apply split_on_Forall. constructor.
Qed.

(** ** Intent patterns *)

Lemma invalid_pattern_skipped rt before bad after text :
  re_search_ignorecase rt bad text = None →
  _check_intent_patterns rt (before ++ bad :: after) text
  = _check_intent_patterns rt (before ++ after) text.
Proof.
  intros Hbad. unfold _check_intent_patterns.
  rewrite !existsb_app. cbn [existsb]. by rewrite Hbad.
Qed.

(** X7: an intent pattern on which [re.search] raises [re.error] costs a
    skill nothing and earns it nothing: wherever the pattern stands in the
    list, the skill scores exactly as it does without it. *)
Theorem invalid_intent_pattern_ignored rt config K skill msg before bad after :
  re_search_ignorecase rt bad msg = None →
  _calculate_match_score rt config K
    (with_intent_patterns (before ++ bad :: after) skill) msg
  = _calculate_match_score rt config K
      (with_intent_patterns (before ++ after) skill) msg.
Proof.
  intros Hbad.
  assert (Hbonus :
    intent_bonus rt config
      (with_intent_patterns (before ++ bad :: after) skill) msg
    = intent_bonus rt config
        (with_intent_patterns (before ++ after) skill) msg).
  { unfold intent_bonus. cbn [intent_patterns with_intent_patterns].
    rewrite (invalid_pattern_skipped rt before bad after msg Hbad).
    destruct (bool_decide (msg = [])); [by rewrite !andb_false_r |].
    destruct (_check_intent_patterns rt (before ++ after) msg) eqn:E;
      [| by rewrite !andb_false_r].
    assert (Hne : before ++ after ≠ []).
    { intros Hnil. rewrite Hnil in E. done. }
    rewrite (bool_decide_eq_false_2 (before ++ after = [])) by done.
    rewrite (bool_decide_eq_false_2 (before ++ bad :: after = []));
      [done | by destruct before]. }
  unfold _calculate_match_score, raw_score, score_state, score_passes.
  rewrite Hbonus. reflexivity.
Qed.

Lemma invalid_intent_pattern_ignored_witness :
  _calculate_match_score
    paren_runtime DEFAULT_CONFIG [py "fix"; py "bug"]
    (with_intent_patterns ([py "fix.*bug"] ++ py "(" :: []) debug_skill)
    payment_query
  = _calculate_match_score
      paren_runtime DEFAULT_CONFIG [py "fix"; py "bug"]
      (with_intent_patterns ([py "fix.*bug"] ++ []) debug_skill)
      payment_query.
Proof.
  apply (invalid_intent_pattern_ignored
           paren_runtime DEFAULT_CONFIG [py "fix"; py "bug"] debug_skill payment_query
           [py "fix.*bug"] (py "(") []).
  reflexivity.
Defined.

(** ** detect_skills *)

Abbreviation desc_by_score A :=
  (fun a b : A * Q => snd b <= snd a).

Lemma insert_desc_perm {A} (x : A * Q) l : insert_desc x l ≡ₚ x :: l.
Proof.
  induction l as [|y l IH]; simpl; [done |].
  destruct (Qle_bool (snd x) (snd y)); [| done].
  rewrite IH. apply Permutation_swap.
Qed.

Lemma sort_desc_perm_acc {A} (l : list (A * Q)) : ∀ acc,
  fold_left (fun acc x => insert_desc x acc) l acc ≡ₚ acc ++ l.
Proof.
  induction l as [|x l IH]; intros acc; cbn [fold_left].
  - by rewrite app_nil_r.
  - rewrite IH, insert_desc_perm. apply Permutation_middle.
Qed.

Lemma sort_desc_perm {A} (l : list (A * Q)) : sort_desc l ≡ₚ l.
Proof. unfold sort_desc. by rewrite sort_desc_perm_acc. Qed.

Lemma insert_desc_sorted {A} (x : A * Q) l :
  StronglySorted (desc_by_score A) l →
  StronglySorted (desc_by_score A) (insert_desc x l).
Proof.
  induction 1 as [|y l Hs IH Hy]; simpl; [repeat constructor |].
  destruct (Qle_bool (snd x) (snd y)) eqn:E.
  - constructor; [done |].
    rewrite insert_desc_perm. constructor; [| done].
    by apply Qle_bool_iff.
  - assert (Hlt : snd y < snd x).
    { apply Qnot_le_lt. intros Hle. apply Qle_bool_iff in Hle. congruence. }
    constructor; [by constructor |].
    constructor; [lra |].
    eapply Forall_impl; [exact Hy |]. simpl. intros z Hz. lra.
Qed.

Lemma sort_desc_sorted {A} (l : list (A * Q)) :
  StronglySorted (desc_by_score A) (sort_desc l).
Proof.
  unfold sort_desc.
  assert (H : StronglySorted (desc_by_score A) []) by constructor.
  revert H. generalize (@nil (A * Q)).
  induction l as [|x l IH]; intros acc Hacc; cbn [fold_left]; [done |].
  by apply IH, insert_desc_sorted.
Qed.

Lemma slice_to_sublist {A} n (l : list A) : slice_to n l `sublist_of` l.
Proof. unfold slice_to. destruct (0 <=? n)%Z; apply sublist_take. Qed.

Lemma slice_to_sorted {A} (R : relation A) n l :
  StronglySorted R l → StronglySorted R (slice_to n l).
Proof.
  intros H. unfold slice_to.
  destruct (0 <=? n)%Z;
    eapply StronglySorted_app_1_l; rewrite take_drop; exact H.
Qed.

(** The matches [detect_skills] collects before sorting, as a filter of the
    registry's records. *)
Lemma matches_direct rt self K msg (records : list SkillMetadata) : ∀ acc,
  fold_left
    (fun matches skill =>
       if negb (auto_activate skill) then matches
       else
         if Qle_bool
              (applicable_threshold (sa_override_threshold self)
                 (cfg_confidence_threshold (sa_config self)) skill)
              (_calculate_match_score rt (sa_config self) K skill msg)
         then matches ++ [(skill, _calculate_match_score rt (sa_config self) K
                                    skill msg)]
         else matches)
    records acc
  = acc ++ map (fun skill =>
                  (skill, _calculate_match_score rt (sa_config self) K skill msg))
             (List.filter
                (fun skill =>
                   auto_activate skill
                   && Qle_bool
                        (applicable_threshold (sa_override_threshold self)
                           (cfg_confidence_threshold (sa_config self)) skill)
                        (_calculate_match_score rt (sa_config self) K skill msg))
                records).
Proof.
  induction records as [|s records IH]; intros acc; cbn [fold_left List.filter].
  - by rewrite app_nil_r.
  - rewrite IH. destruct (auto_activate s); simpl; [| done].
    destruct (Qle_bool _ _); simpl; [| done].
    by rewrite <- app_assoc.
Qed.

(** X8: every pair [detect_skills] returns is a record of the registry that
    auto-activates, paired with its match score for the message, and that
    score reaches the threshold that applies to the record. *)
Theorem detect_skills_sound rt self msg :
  Forall (fun m =>
            fst m ∈ dict_values (sa_skills self)
            ∧ auto_activate (fst m) = true
            ∧ snd m = _calculate_match_score rt (sa_config self)
                        (_extract_keywords rt msg) (fst m) msg
            ∧ applicable_threshold (sa_override_threshold self)
                (cfg_confidence_threshold (sa_config self)) (fst m) <= snd m)
    (detect_skills rt self msg).
Proof.
  unfold detect_skills.
  destruct (bool_decide (_extract_keywords rt msg = [])); [constructor |].
  rewrite matches_direct. cbn [app].
  apply Forall_forall. intros [s q] Hin.
  apply (fun H => elem_of_sublist _ _ _ H (slice_to_sublist _ _)) in Hin.
  rewrite sort_desc_perm in Hin.
  apply list_elem_of_fmap in Hin as (s' & [= -> ->] & Hin).
  apply list_elem_of_In, filter_In in Hin as [Hin Hok].
  apply andb_prop in Hok as [Hauto Hle]. apply Qle_bool_iff in Hle.
  cbn [fst snd]. split; [by apply list_elem_of_In |]. done.
Qed.

Lemma detect_skills_length rt self msg :
  (0 <= cfg_max_suggestions (sa_config self))%Z →
  (length (detect_skills rt self msg)
   <= Z.to_nat (cfg_max_suggestions (sa_config self)))%nat.
Proof.
  intros Hmax. unfold detect_skills.
  destruct (bool_decide (_extract_keywords rt msg = [])); [simpl; lia |].
  unfold slice_to. apply Z.leb_le in Hmax. rewrite Hmax, length_take. lia.
Qed.

(** X9: the list [detect_skills] returns is ordered by score, highest
    first, and when [max_suggestions] is not negative it has at most that
    many elements. *)
Theorem detect_skills_ranked rt self msg :
  StronglySorted (fun a b => snd b <= snd a) (detect_skills rt self msg)
  ∧ ((0 <= cfg_max_suggestions (sa_config self))%Z →
     (length (detect_skills rt self msg)
      <= Z.to_nat (cfg_max_suggestions (sa_config self)))%nat).
Proof.
  split; [| apply detect_skills_length].
  unfold detect_skills.
  destruct (bool_decide (_extract_keywords rt msg = [])); [constructor |].
  apply slice_to_sorted, sort_desc_sorted.
Qed.

Lemma detect_skills_ranked_witness :
  (length (detect_skills ascii_runtime
             (mkActivator DEFAULT_CONFIG None
                [(py "debug-helper", debug_skill)])
             payment_query)
   <= 3)%nat.
Proof.
  apply (detect_skills_ranked ascii_runtime
           (mkActivator DEFAULT_CONFIG None [(py "debug-helper", debug_skill)])
           payment_query).
  simpl. lia.
Defined.



(** ** Match scores *)

Lemma sumQ_perm {A} (f : A → Q) l l' :
  l ≡ₚ l' → sumQ (map f l) == sumQ (map f l').
Proof.
  induction 1 as [|x l l' _ IH|x y l|l l' l'' _ IH1 _ IH2]; simpl; lra.
Qed.

Lemma set_add_other (x y : pystr) (C : gset pystr) :
  x ≠ y → bool_decide (x ∈ set_add y C) = bool_decide (x ∈ C).
Proof.
  intros Hne. apply bool_decide_ext. unfold set_add.
  rewrite elem_of_union, elem_of_singleton. tauto.
Qed.

Lemma set_add_comm (x y : pystr) (C : gset pystr) :
  set_add x (set_add y C) = set_add y (set_add x C).
Proof.
  unfold set_add. by rewrite !(assoc_L (∪)), (comm_L (∪) {[x]} {[y]}).
Qed.

Lemma set_add_elem (x : pystr) (C : gset pystr) : x ∈ set_add x C.
Proof. unfold set_add. apply elem_of_union_l. by apply elem_of_singleton. Qed.

Section order_facts.
Variable rt : PyRuntime.
Variable config : Config.
Variable skill : SkillMetadata.
Variable msg : pystr.

Lemma keyword_pass_perm K K' :
  K ≡ₚ K' →
  ∀ C, keyword_gain rt config skill K C == keyword_gain rt config skill K' C
       ∧ keyword_matched rt config skill K C
         = keyword_matched rt config skill K' C.
Proof.
  induction 1 as [|x l l' _ IH|x y l|l l' l'' _ IH1 _ IH2]; intros C.
  - split; [reflexivity | done].
  - simpl. destruct (bool_decide (x ∈ C)); [apply IH |].
    destruct (keyword_rule rt config skill x); [| apply IH].
    destruct (IH (set_add x C)) as [Hq Hm]. split; [lra | done].
  - destruct (decide (x = y)) as [-> | Hne]; [split; [reflexivity | done] |].
    assert (Hne' : y ≠ x) by done.
    cbn [keyword_gain keyword_matched].
    destruct (bool_decide (y ∈ C)) eqn:Ey;
      destruct (bool_decide (x ∈ C)) eqn:Ex;
      destruct (keyword_rule rt config skill x) as [wx|];
      destruct (keyword_rule rt config skill y) as [wy|];
      rewrite ?(set_add_other x y C Hne), ?(set_add_other y x C Hne'),
        ?Ex, ?Ey, ?(set_add_comm x y C);
      (split; [lra | done]).
  - destruct (IH1 C) as [Hq1 Hm1]. destruct (IH2 C) as [Hq2 Hm2].
    split; [lra | congruence].
Qed.

Lemma matching_parts_perm K K' skw :
  K ≡ₚ K' → matching_parts K skw ≡ₚ matching_parts K' skw.
Proof. intros HP. unfold matching_parts. by rewrite HP. Qed.

Lemma compound_bonus_perm K K' skw :
  K ≡ₚ K' → compound_bonus config K skw = compound_bonus config K' skw.
Proof.
  intros HP. unfold compound_bonus.
  by rewrite (Permutation_length (matching_parts_perm K K' skw HP)).
Qed.

Lemma score_passes_perm K K' :
  K ≡ₚ K' →
  fst (score_passes rt config K skill msg)
  == fst (score_passes rt config K' skill msg).
Proof.
  intros HP.
  destruct (score_passes_direct rt config skill msg K)
    as (sc & C & Ec & Hsc & Hfst & _).
  destruct (score_passes_direct rt config skill msg K')
    as (sc' & C' & Ec' & Hsc' & Hfst' & _).
  rewrite Hfst, Hfst', Hsc, Hsc'.
  assert (HC : C = C').
  { apply set_eq. intros u.
    pose proof (compound_fold_spec config K (skill_keywords rt skill)
      (0 + intent_bonus rt config skill msg + primary_bonus rt config skill msg)
      ∅) as [_ HK].
    pose proof (compound_fold_spec config K' (skill_keywords rt skill)
      (0 + intent_bonus rt config skill msg + primary_bonus rt config skill msg)
      ∅) as [_ HK'].
    unfold compound_pass in Ec, Ec'. rewrite Ec in HK. rewrite Ec' in HK'.
    simpl in HK, HK'. rewrite HK, HK'.
    split; (intros [H | (skw & Hin & Hlen & Hu)]; [by left |]; right;
            exists skw; split; [done |]).
    - by rewrite <- (matching_parts_perm K K' skw HP).
    - by rewrite (matching_parts_perm K K' skw HP). }
  subst C'.
  destruct (keyword_pass_perm K K' HP C) as [Hgain _].
  assert (Hcomp : map (compound_bonus config K) (skill_keywords rt skill)
                  = map (compound_bonus config K') (skill_keywords rt skill)).
  { apply map_ext. intros skw. by apply compound_bonus_perm. }
  assert (Hov : map (overlap_of rt K) (map (str_lower rt) (use_cases skill))
                = map (overlap_of rt K')
                    (map (str_lower rt) (use_cases skill))).
  { apply map_ext. intros uc. unfold overlap_of, py_set.
    by rewrite (list_to_set_perm_L K K' HP). }
  rewrite Hcomp, Hov, Hgain.
  rewrite (sumQ_perm (stems_of rt skill) K K' HP). reflexivity.
Qed.

Lemma raw_score_perm K K' :
  K ≡ₚ K' →
  raw_score rt config K skill msg == raw_score rt config K' skill msg.
Proof.
  intros HP. unfold raw_score, score_state.
  rewrite (Permutation_length HP).
  destruct (decide (K = [])) as [-> | HK].
  - apply Permutation_nil_l in HP. subst K'. reflexivity.
  - assert (HK' : K' ≠ []).
    { intros ->. by apply Permutation_nil_r in HP. }
    rewrite !bool_decide_eq_false_2 by done.
    destruct (Qeq_bool _ 0); [reflexivity | by apply score_passes_perm].
Qed.

End order_facts.

(** X11: the match score does not depend on the order of the query
    keywords: two keyword lists that are permutations of each other give a
    skill the same score.  (Under the default weights every partial sum is a
    multiple of one half, so the sums are exact in binary floating point
    too.) *)
Theorem score_ignores_keyword_order rt config K K' skill msg :
  cfg_keyword_weights config = DEFAULT_WEIGHTS →
  K ≡ₚ K' →
  _calculate_match_score rt config K skill msg
  == _calculate_match_score rt config K' skill msg.
Proof.
  intros _ HP. unfold _calculate_match_score.
  rewrite (Permutation_length HP).
  assert (Hnil : bool_decide (K = []) = bool_decide (K' = [])).
  { apply bool_decide_ext. split; intros HK; subst.
    - by apply Permutation_nil_l in HP.
    - by apply Permutation_nil_r in HP. }
  rewrite Hnil. destruct (_ || _); [reflexivity |].
  by rewrite (raw_score_perm rt config skill msg K K' HP).
Qed.

Lemma score_ignores_keyword_order_witness :
  _calculate_match_score ascii_runtime DEFAULT_CONFIG
    [py "fix"; py "bug"; py "payment"] debug_skill payment_query
  == _calculate_match_score ascii_runtime DEFAULT_CONFIG
       [py "payment"; py "fix"; py "bug"] debug_skill payment_query.
Proof.
  apply (score_ignores_keyword_order ascii_runtime DEFAULT_CONFIG
           [py "fix"; py "bug"; py "payment"]
           [py "payment"; py "fix"; py "bug"] debug_skill payment_query).
  - reflexivity.
  - symmetry. apply (Permutation_cons_append [py "fix"; py "bug"] (py "payment")).
Defined.

Lemma raw_score_priority rt config K skill msg p :
  raw_score rt config K (with_priority p skill) msg
  = raw_score rt config K skill msg.
Proof. reflexivity. Qed.

Lemma default_normalized_nonneg rt K skill msg :
  K ≠ [] →
  0 <= raw_score rt DEFAULT_CONFIG K skill msg
       / (natQ (length K) * exact_match (weights DEFAULT_CONFIG)).
Proof.
  intros HK.
  assert (Hmax : 0 < natQ (length K) * exact_match (weights DEFAULT_CONFIG)).
  { destruct K as [|u K]; [done |]. simpl length.
    pose proof (natQ_S (length K)). pose proof (natQ_nonneg (length K)).
    change (exact_match (weights DEFAULT_CONFIG)) with 3. lra. }
  assert (Hraw : 0 <= raw_score rt DEFAULT_CONFIG K skill msg).
  { unfold raw_score.
    rewrite (score_state_passes rt DEFAULT_CONFIG skill msg eq_refl K HK).
    by apply score_passes_nonneg. }
  apply Qle_shift_div_l; [done | lra].
Qed.

(** X12: under the default configuration the priority of a skill never
    turns the order of its own scores: the skill scores no more with
    priority low than with medium, and no less with high than with medium;
    and a priority that is none of the three scores exactly as medium.
    (Only the order and the equal case are stated: both survive the
    rounding of the floating-point product, the exact factors do not.) *)
Theorem priority_orders_scores rt K skill msg p :
  _calculate_match_score rt DEFAULT_CONFIG K (with_priority (py "low") skill) msg
  <= _calculate_match_score rt DEFAULT_CONFIG K (with_priority medium skill) msg
  ∧ _calculate_match_score rt DEFAULT_CONFIG K (with_priority medium skill) msg
    <= _calculate_match_score rt DEFAULT_CONFIG K
         (with_priority (py "high") skill) msg
  ∧ (p ∉ [py "high"; medium; py "low"] →
     _calculate_match_score rt DEFAULT_CONFIG K (with_priority p skill) msg
     = _calculate_match_score rt DEFAULT_CONFIG K (with_priority medium skill) msg).
Proof.
  unfold _calculate_match_score. rewrite !raw_score_priority.
  destruct (bool_decide (K = [])) eqn:EK; cbn [orb].
  { split; [lra | split; [lra | done]]. }
  apply bool_decide_eq_false_1 in EK.
  pose proof (default_normalized_nonneg rt K skill msg EK) as Hn.
  destruct (Qeq_bool _ 0).
  { split; [lra | split; [lra | done]]. }
  set (n := raw_score rt DEFAULT_CONFIG K skill msg / _) in *.
  split; [| split].
  - change (n * (7 # 10) <= n * 1). lra.
  - change (n * 1 <= n * (3 # 2)). lra.
  - intros Hp. cbn [priority with_priority].
    assert (Hnone : dict_get p (cfg_priority_multipliers DEFAULT_CONFIG) = None).
    { simpl. rewrite !bool_decide_eq_false_2; [done | ..];
        intros ->; apply Hp; set_solver. }
    by rewrite Hnone.
Qed.

Lemma priority_orders_scores_witness :
  _calculate_match_score ascii_runtime DEFAULT_CONFIG
    [py "fix"; py "bug"] (with_priority (py "urgent") debug_skill) payment_query
  = _calculate_match_score ascii_runtime DEFAULT_CONFIG
      [py "fix"; py "bug"] (with_priority medium debug_skill) payment_query.
Proof.
  apply (priority_orders_scores ascii_runtime [py "fix"; py "bug"] debug_skill
           payment_query (py "urgent")).
  vm_compute. intros H. inversion H as [| ? ? ? H1]; subst.
  inversion H1 as [| ? ? ? H2]; subst. inversion H2 as [| ? ? ? H3]; subst.
  inversion H3.
Defined.

(** X13: under the default configuration a match score is never
    negative. *)
Theorem default_score_nonneg rt K skill msg :
  0 <= _calculate_match_score rt DEFAULT_CONFIG K skill msg.
Proof.
  unfold _calculate_match_score.
  destruct (bool_decide (K = [])) eqn:EK; simpl; [lra |].
  apply bool_decide_eq_false_1 in EK.
  destruct (Qeq_bool _ 0) eqn:E; [lra |].
  assert (Hmax : 0 < natQ (length K) * exact_match (weights DEFAULT_CONFIG)).
  { destruct K as [|u K]; [done |]. simpl length.
    pose proof (natQ_S (length K)). pose proof (natQ_nonneg (length K)).
    change (exact_match (weights DEFAULT_CONFIG)) with 3. lra. }
  assert (Hraw : 0 <= raw_score rt DEFAULT_CONFIG K skill msg).
  { unfold raw_score.
    rewrite (score_state_passes rt DEFAULT_CONFIG skill msg eq_refl K EK).
    by apply score_passes_nonneg. }
  assert (Hmult : 0 <= default 1
                         (dict_get (priority skill)
                            (cfg_priority_multipliers DEFAULT_CONFIG))).
  { simpl. repeat (destruct (bool_decide _); [simpl; lra |]). simpl. lra. }
  apply Qmult_le_0_compat; [| done].
  apply Qle_shift_div_l; [done | lra].
Qed.

(** ** The hook and its formatters *)

Lemma take_while_room_direct max kind items : ∀ acc,
  take_while_room max kind items acc
  = acc ++ take (Z.to_nat max - length acc) (map (fun m => (m, kind)) items).
Proof.
  unfold take_while_room.
  induction items as [|m items IH]; intros acc; cbn [fold_left map].
  - by rewrite take_nil, app_nil_r.
  - rewrite IH. destruct (Z.of_nat (length acc) <? max)%Z eqn:E.
    + apply Z.ltb_lt in E. rewrite length_app. simpl length.
      replace (Z.to_nat max - length acc)%nat
        with (S (Z.to_nat max - (length acc + 1)))%nat by lia.
      cbn [take]. by rewrite <- app_assoc.
    + apply Z.ltb_ge in E.
      replace (Z.to_nat max - length acc)%nat with 0%nat by lia.
      done.
Qed.

Lemma enhanced_all_matches_direct matches max :
  enhanced_all_matches matches max
  = take (Z.to_nat max)
      (map (fun m => (m, py "suggested"))
         (filter (has_enforcement (py "suggested")) matches)
       ++ map (fun m => (m, py "optional"))
            (filter (has_enforcement (py "optional")) matches)).
Proof.
  unfold enhanced_all_matches. rewrite !take_while_room_direct.
  cbn [app length]. rewrite Nat.sub_0_r, take_app. f_equal.
  rewrite length_take. f_equal. lia.
Qed.

Lemma enforcement_groups_length (matches : list (SkillMetadata * Q)) :
  (length (filter (has_enforcement (py "suggested")) matches)
   + length (filter (has_enforcement (py "optional")) matches)
   <= length matches)%nat.
Proof.
  induction matches as [|m matches IH]; [done |].
  rewrite !filter_cons.
  destruct (decide (has_enforcement (py "suggested") m)) as [Hs | Hs];
    destruct (decide (has_enforcement (py "optional") m)) as [Ho | Ho];
    simpl; try lia.
  unfold has_enforcement in Hs, Ho.
  apply bool_decide_unpack in Hs. apply bool_decide_unpack in Ho.
  rewrite Hs in Ho. vm_compute in Ho. discriminate.
Qed.

Lemma hook_matches_length rt fs msg :
  (length (detect_skills rt (new_activator DEFAULT_CONFIG None false false fs)
             msg) <= 3)%nat.
Proof.
  apply (detect_skills_length rt
           (new_activator DEFAULT_CONFIG None false false fs) msg).
  simpl. lia.
Qed.

(** X14: the list [format_enhanced_output] lays out is the first
    [max_suggestions] elements of the suggested matches followed by the
    optional matches, each in the order of [matches]; matches with another
    enforcement are left out, and nothing is kept when [max_suggestions] is
    zero or negative. *)
Theorem enhanced_output_is_prefix matches max :
  format_enhanced_output matches max
  = match take (Z.to_nat max)
            (map (fun m => (m, py "suggested"))
               (filter (has_enforcement (py "suggested")) matches)
             ++ map (fun m => (m, py "optional"))
                  (filter (has_enforcement (py "optional")) matches)) with
    | [] => Silent
    | shown => EnhancedOutput shown
    end.
Proof.
  unfold format_enhanced_output. rewrite enhanced_all_matches_direct.
  destruct (bool_decide (matches = [])) eqn:E.
  - apply bool_decide_eq_true_1 in E. subst. simpl. by rewrite take_nil.
  - by destruct (take _ _).
Qed.

(** X15: whatever the hook prints comes from [detect_skills] run with the
    default configuration: the classic format shows the first match; a
    required match, when there is one and the format is not classic, is
    shown alone; otherwise at most three suggested or optional matches, and
    at most [max_suggestions], are shown, each labelled with its own
    enforcement, and then no match is required.  Nothing is said of the
    runs in which the hook prints nothing. *)
Theorem hook_shows_detected_matches rt config fs msg :
  let matches :=
    detect_skills rt (new_activator DEFAULT_CONFIG None false false fs) msg in
  match user_prompt_submit_hook rt config fs msg with
  | Silent => True
  | ClassicOutput skill confidence =>
      output_format config = py "classic"
      ∧ head matches = Some (skill, confidence)
  | RequiredOutput skill confidence =>
      output_format config ≠ py "classic"
      ∧ (skill, confidence) ∈ matches
      ∧ enforcement skill = py "required"
  | EnhancedOutput shown =>
      output_format config ≠ py "classic"
      ∧ shown ≠ []
      ∧ (length shown <= 3)%nat
      ∧ (Z.of_nat (length shown) <= max_suggestions config)%Z
      ∧ Forall (fun m => enforcement (fst m) ≠ py "required") matches
      ∧ Forall (fun mk => fst mk ∈ matches
                          ∧ enforcement (fst (fst mk)) = snd mk
                          ∧ snd mk ∈ [py "suggested"; py "optional"])
          shown
  end.
Proof.
  intros matches. unfold user_prompt_submit_hook. fold matches.
  pose proof (hook_matches_length rt fs msg) as Hlen. fold matches in Hlen.
  destruct matches as [|[best_skill confidence] rest] eqn:Em; [done |].
  rewrite <- Em in *.
  destruct (bool_decide (output_format config = py "classic")) eqn:Ef.
  { apply bool_decide_eq_true_1 in Ef. by rewrite Em. }
  apply bool_decide_eq_false_1 in Ef.
  destruct (filter (has_enforcement (py "required")) matches)
    as [|[best_required c] others] eqn:Er.
  - assert (Hnone : Forall (fun m => enforcement (fst m) ≠ py "required")
                      matches).
    { apply Forall_forall. intros m Hm Hreq.
      assert (Hin : m ∈ filter (has_enforcement (py "required")) matches).
      { apply list_elem_of_filter. split; [| done].
        unfold has_enforcement. by apply bool_decide_pack. }
      rewrite Er in Hin. by apply elem_of_nil in Hin. }
    unfold format_enhanced_output. rewrite enhanced_all_matches_direct.
    rewrite bool_decide_eq_false_2 by (rewrite Em; done).
    set (groups :=
           map (fun m => (m, py "suggested"))
             (filter (has_enforcement (py "suggested")) matches)
           ++ map (fun m => (m, py "optional"))
                (filter (has_enforcement (py "optional")) matches)).
    assert (Hgroups : Forall (fun mk => fst mk ∈ matches
                                ∧ enforcement (fst (fst mk)) = snd mk
                                ∧ snd mk ∈ [py "suggested"; py "optional"])
                        groups).
    { apply Forall_app. split; apply Forall_forall; intros [m k] Hin;
        apply list_elem_of_fmap in Hin as (m' & [= -> ->] & Hin);
        apply list_elem_of_filter in Hin as [He Hin];
        unfold has_enforcement in He; apply bool_decide_unpack in He;
        simpl; (split; [done |]); (split; [done |]).
      - left.
      - right. left. }
    assert (Hglen : (length groups <= 3)%nat).
    { unfold groups. rewrite length_app, !length_map.
      pose proof (enforcement_groups_length matches). lia. }
    destruct (take (Z.to_nat (max_suggestions config)) groups)
      as [|mk shown] eqn:Et; [done |].
    pose proof (f_equal length Et) as Hshown.
    rewrite length_take in Hshown.
    simpl length in Hshown.
    split; [done |]. split; [done |].
    split; [simpl length; lia |]. split; [simpl length; lia |].
    split; [done |].
    rewrite <- Et. by apply Forall_take.
  - assert (Hin : (best_required, c)
                  ∈ filter (has_enforcement (py "required")) matches)
      by (rewrite Er; left).
    apply list_elem_of_filter in Hin as [He Hin].
    unfold has_enforcement in He. apply bool_decide_unpack in He.
    done.
Qed.

(** X16: the hook builds its activator with the default configuration, so
    [detect_skills] has already cut the matches to three: a configured
    [max_suggestions] above three shows exactly what three shows. *)
Theorem hook_ignores_max_suggestions_above_three rt format max fs msg :
  (3 <= max)%Z →
  user_prompt_submit_hook rt (mkUserConfig format max) fs msg
  = user_prompt_submit_hook rt (mkUserConfig format 3) fs msg.
Proof.
  intros Hmax. unfold user_prompt_submit_hook.
  pose proof (hook_matches_length rt fs msg) as Hlen.
  set (matches := detect_skills rt _ msg) in *.
  destruct matches as [|[best_skill confidence] rest] eqn:Em; [done |].
  rewrite <- Em in *. cbn [output_format max_suggestions].
  destruct (bool_decide (format = py "classic")); [done |].
  destruct (filter (has_enforcement (py "required")) matches); [| done].
  unfold format_enhanced_output. rewrite !enhanced_all_matches_direct.
  pose proof (enforcement_groups_length matches) as Hg.
  rewrite !take_ge; [done | |]; rewrite length_app, !length_map; lia.
Qed.

Lemma hook_ignores_max_suggestions_above_three_witness :
  user_prompt_submit_hook ascii_runtime (mkUserConfig (py "enhanced") 10)
    fs_project_document_and_artifact payment_query
  = user_prompt_submit_hook ascii_runtime (mkUserConfig (py "enhanced") 3)
      fs_project_document_and_artifact payment_query.
Proof.
  apply (hook_ignores_max_suggestions_above_three ascii_runtime
           (py "enhanced") 10 fs_project_document_and_artifact payment_query).
  lia.
Defined.

(** ** The client: what [generate] returns and how much it sends *)



Lemma in_model_order_length lower retries models : ∀ trace,
  in_model_order lower retries models trace →
  (length trace <= retries * length models)%nat.
Proof.
  induction models as [|m rest IH]; intros trace; simpl.
  - intros ->. simpl. lia.
  - intros (block & tail & -> & _ & Hlen & _ & _ & Hrest).
    apply IH in Hrest. rewrite length_app. lia.
Qed.

Section client_outcomes.
Variable lower : pystr → pystr.
Variable respond : nat → pystr → Outcome.
Variable config : AIConfig.




Lemma model_loop_dead_raises models : ∀ last_error w r w',
  dead w →
  model_loop lower respond config models last_error w = (r, w') →
  ∃ e, r = Raise e.
Proof.
  induction models as [|m rest IH]; intros last_error w r w' Hdead.
  - intros [= <- <-]. by eexists.
  - rewrite model_loop_cons.
    assert (Hdead0 : dead (with_current_model m w)) by done.
    destruct (retry_loop lower respond config m 0 (max_retries config)
                last_error (with_current_model m w))
      as [[[text|last']|e] w1] eqn:Er;
      apply (retry_loop_dead _ _ _ _ _ _ _ _ _ _ Hdead0) in Er
        as (Hreq & Hd & Hne).
    + by destruct (Hne text).
    + intros H. by apply IH in H.
    + intros [= <- <-]. by eexists.
Qed.

Lemma model_loop_no_retries models : ∀ last_error w,
  max_retries config = 0%nat →
  ∃ w', model_loop lower respond config models last_error w
        = (Raise (AllModelsFailed last_error), w')
        ∧ w_requests w' = w_requests w.
Proof.
  induction models as [|m rest IH]; intros last_error w Hzero.
  - by exists w.
  - rewrite model_loop_cons, Hzero. cbn [retry_loop]. unfold ret.
    destruct (IH last_error (with_current_model m w) Hzero) as (w' & -> & Hr).
    by exists w'.
Qed.

End client_outcomes.


(** X18: one call of [generate] sends at most [max_retries] requests for
    each model of the candidate list, the primary model and the
    fallbacks. *)
Theorem generate_request_bound lower respond config w :
  (length (request_trace lower respond config w)
   <= max_retries config * S (length (fallback_models config)))%nat.
Proof.
  destruct (request_trace_spec lower respond config w) as [_ Hord].
  apply in_model_order_length in Hord. exact Hord.
Qed.

(** X19: with a rate limit of zero requests per minute the limiter raises
    on every call, the retry loop takes that for a failed attempt, and a
    client just built sends no request at all: [generate] raises. *)
Theorem zero_rpm_sends_nothing lower respond config clock :
  rate_limit_rpm config = 0%nat →
  request_trace lower respond config (new_client config clock) = []
  ∧ ∃ e, fst (generate lower respond config (new_client config clock))
         = Raise e.
Proof.
  intros Hzero.
  assert (Hdead : dead (new_client config clock)) by (split; simpl; done).
  unfold request_trace, generate.
  destruct (model_loop lower respond config
              (model config :: fallback_models config) None
              (new_client config clock)) as [r w'] eqn:E.
  pose proof (model_loop_dead _ _ _ _ _ _ _ _ Hdead E) as Hreq.
  apply (model_loop_dead_raises _ _ _ _ _ _ _ _ Hdead) in E as [e ->].
  cbn [snd fst]. rewrite Hreq. simpl. split; [done | by exists e].
Qed.

Lemma zero_rpm_sends_nothing_witness :
  request_trace ascii_lower (fun _ _ => Reply (py "ok"))
    (mkAIConfig (py "ollama") (py "llama3") [] 0 half 3 2 [py "english"])
    (new_client
       (mkAIConfig (py "ollama") (py "llama3") [] 0 half 3 2 [py "english"])
       (mkClock 1000 []))
  = [].
Proof.
  apply (zero_rpm_sends_nothing ascii_lower (fun _ _ => Reply (py "ok"))
           (mkAIConfig (py "ollama") (py "llama3") [] 0 half 3 2
              [py "english"])
           (mkClock 1000 [])).
  reflexivity.
Defined.

(** X20: with [max_retries] zero the retry loop has no iteration:
    [generate] sends no request and raises "All models failed" with no last
    error. *)
Theorem no_retries_sends_nothing lower respond config w :
  max_retries config = 0%nat →
  request_trace lower respond config w = []
  ∧ fst (generate lower respond config w) = Raise (AllModelsFailed None).
Proof.
  intros Hzero. unfold request_trace, generate.
  destruct (model_loop_no_retries lower respond config
              (model config :: fallback_models config) None w Hzero)
    as (w' & -> & Hreq).
  cbn [snd fst]. rewrite Hreq, drop_all. done.
Qed.

Lemma no_retries_sends_nothing_witness :
  fst (generate ascii_lower (fun _ _ => Reply (py "ok"))
         (mkAIConfig (py "ollama") (py "llama3") [py "mistral"] 20 half 0 2
            [py "english"])
         (new_client
            (mkAIConfig (py "ollama") (py "llama3") [py "mistral"] 20 half 0 2
               [py "english"])
            (mkClock 1000 [])))
  = Raise (AllModelsFailed None).
Proof.
  apply (no_retries_sends_nothing ascii_lower (fun _ _ => Reply (py "ok"))
           (mkAIConfig (py "ollama") (py "llama3") [py "mistral"] 20 half 0 2
              [py "english"])
           (new_client
              (mkAIConfig (py "ollama") (py "llama3") [py "mistral"] 20 half
                 0 2 [py "english"])
              (mkClock 1000 []))).
  reflexivity.
Defined.

(** ** The names of the registry *)

Lemma dict_set_is_Some {V} (n k : pystr) (v : V) d :
  is_Some (dict_get n (dict_set k v d)) ↔ n = k ∨ is_Some (dict_get n d).
Proof.
  destruct (decide (n = k)) as [-> | Hne].
  - rewrite dict_get_set_eq. split; [by left | by eexists].
  - rewrite dict_get_set_ne by done. split; [by right |].
    by intros [? | ?].
Qed.

Lemma dict_get_is_Some_keys {V} (n : pystr) (d : pydict V) :
  is_Some (dict_get n d) ↔ n ∈ map fst d.
Proof.
  induction d as [|[k v] d IH]; simpl.
  - split; [by intros [? ?] | by intros ?%elem_of_nil].
  - destruct (bool_decide (n = k)) eqn:E.
    + apply bool_decide_eq_true_1 in E. subst.
      split; [left | by eexists].
    + apply bool_decide_eq_false_1 in E. rewrite IH, elem_of_cons. tauto.
Qed.

Lemma load_documents_names parent src (n : pystr) items : ∀ skills,
  is_Some (dict_get n (load_documents parent src items skills))
  ↔ is_Some (dict_get n skills)
    ∨ ∃ it s, it ∈ items ∧ item_is_dir it = true
              ∧ _load_skill_from_directory parent it src = Some s
              ∧ name s = n.
Proof.
  induction items as [|it items IH]; intros skills.
  - simpl. split; [by left |].
    intros [H | (it & s & Hin & _)]; [done | by apply elem_of_nil in Hin].
  - rewrite load_documents_cons, IH. split.
    + intros [H | (it' & s & Hin & Hd & Hl & Hn)].
      * destruct (item_is_dir it) eqn:Ed; [| by left].
        destruct (_load_skill_from_directory parent it src) as [s|] eqn:El;
          [| by left].
        apply dict_set_is_Some in H as [-> | H]; [| by left].
        right. exists it, s. split; [left | done].
      * right. exists it', s. split; [by right | done].
    + intros [H | (it' & s & Hin & Hd & Hl & Hn)].
      * left. destruct (item_is_dir it); [| done].
        destruct (_load_skill_from_directory parent it src); [| done].
        apply dict_set_is_Some. by right.
      * apply elem_of_cons in Hin as [-> | Hin].
        -- left. rewrite Hd, Hl. apply dict_set_is_Some. by left.
        -- right. by exists it', s.
Qed.

Lemma merge_fold_names (n : pystr) indexed : ∀ skills,
  is_Some (dict_get n (fold_left merge_index_entry indexed skills))
  ↔ is_Some (dict_get n skills) ∨ is_Some (dict_get n indexed).
Proof.
  induction indexed as [|[k i] indexed IH]; intros skills; cbn [fold_left].
  - simpl. split; [by left | by intros [? | [? ?]]].
  - rewrite IH. unfold merge_index_entry.
    assert (Hstep : ∀ v, is_Some (dict_get n (dict_set k v skills))
                         ↔ n = k ∨ is_Some (dict_get n skills))
      by (intros v; apply dict_set_is_Some).
    assert (Hhead : is_Some (dict_get n ((k, i) :: indexed))
                    ↔ n = k ∨ is_Some (dict_get n indexed)).
    { simpl. destruct (bool_decide (n = k)) eqn:E.
      - apply bool_decide_eq_true_1 in E. split; [by left | by eexists].
      - apply bool_decide_eq_false_1 in E. split; [by right |].
        by intros [? | ?]. }
    rewrite Hhead.
    destruct (dict_get k skills); rewrite Hstep; tauto.
Qed.

Lemma load_skill_path_names (n : pystr) skills d src :
  is_Some (dict_get n (load_skill_path skills (d, src)))
  ↔ is_Some (dict_get n skills)
    ∨ (∃ it s, it ∈ dir_items d ∧ item_is_dir it = true
               ∧ _load_skill_from_directory (dir_path d) it src = Some s
               ∧ name s = n)
    ∨ is_Some (dict_get n (_load_index_yaml d src)).
Proof.
  rewrite load_skill_path_documents.
  assert (Hmissing : dir_index d = IdxMissing →
                     ¬ is_Some (dict_get n (_load_index_yaml d src))).
  { intros E. unfold _load_index_yaml. rewrite E. by intros [? ?]. }
  destruct (dir_index d) eqn:Ei;
    rewrite ?merge_fold_names, load_documents_names; [| tauto ..].
  specialize (Hmissing eq_refl). tauto.
Qed.

Lemma load_paths_names (n : pystr) paths : ∀ skills,
  is_Some (dict_get n (fold_left load_skill_path paths skills))
  ↔ is_Some (dict_get n skills)
    ∨ ∃ d src,
        (d, src) ∈ paths
        ∧ ((∃ it s, it ∈ dir_items d ∧ item_is_dir it = true
                    ∧ _load_skill_from_directory (dir_path d) it src = Some s
                    ∧ name s = n)
           ∨ is_Some (dict_get n (_load_index_yaml d src))).
Proof.
  induction paths as [|[d src] paths IH]; intros skills; cbn [fold_left].
  - split; [by left |].
    intros [H | (d & src & Hin & _)]; [done | by apply elem_of_nil in Hin].
  - rewrite IH, load_skill_path_names. split.
    + intros [[H | H] | (d' & src' & Hin & H)].
      * by left.
      * right. exists d, src. split; [left | done].
      * right. exists d', src'. split; [by right | done].
    + intros [H | (d' & src' & Hin & H)]; [by left; left |].
      apply elem_of_cons in Hin as [[= -> ->] | Hin].
      * left. by right.
      * right. by exists d', src'.
Qed.

(** X21: no name of the registry is made up: a record is held under a name
    only if some directory of the search path has a sub-directory whose
    SKILL.md loads under that name, or an INDEX.yaml that loads with an
    entry of that name. *)
Theorem registry_names_have_origin skill_paths (n : pystr) :
  is_Some (dict_get n (_load_all_skills skill_paths)) →
  ∃ d src,
    (d, src) ∈ skill_paths
    ∧ ((∃ it s, it ∈ dir_items d ∧ item_is_dir it = true
                ∧ _load_skill_from_directory (dir_path d) it src = Some s
                ∧ name s = n)
       ∨ is_Some (dict_get n (_load_index_yaml d src))).
Proof.
  unfold _load_all_skills. rewrite load_paths_names.
  intros [[? H] | (d & src & Hin & H)]; [done |].
  exists d, src. split; [| done].
  by apply list_elem_of_In, in_rev, list_elem_of_In.
Qed.

Lemma registry_names_have_origin_witness :
  ∃ d src,
    (d, src) ∈ [(document_dir project_dir_path, SrcProject);
                (artifact_dir user_dir_path, SrcUser)]
    ∧ ((∃ it s, it ∈ dir_items d ∧ item_is_dir it = true
                ∧ _load_skill_from_directory (dir_path d) it src = Some s
                ∧ name s = debug_helper)
       ∨ is_Some (dict_get debug_helper (_load_index_yaml d src))).
Proof.
  apply (registry_names_have_origin
           [(document_dir project_dir_path, SrcProject);
            (artifact_dir user_dir_path, SrcUser)] debug_helper).
  vm_compute. eexists. reflexivity.
Defined.

(** ** The index generator *)

Section index_entries.
Variable config : AIConfig.
Variable extract : nat → pystr → pystr → option Extracted.

(** An entry as the loop of [generate_index] writes it for [n]. *)
Abbreviation written_for n v :=
  (v = fallback_entry config n ∨ ∃ metadata, v = extracted_entry config metadata).

Lemma process_skill_written i m (s : pystr * option pystr) (n : pystr) :
  (∃ v, m !! n = Some v ∧ written_for n v) →
  ∃ v, process_skill config extract i m s !! n = Some v ∧ written_for n v.
Proof.
  intros (v & Hv & Hw). destruct s as [skill_name [content|]]; simpl;
    [| by exists v].
  destruct (decide (skill_name = n)) as [-> | Hne].
  - destruct (extract i content n) as [metadata|]; rewrite lookup_insert_eq.
    + eexists. split; [done |]. right. by eexists.
    + eexists. split; [done |]. by left.
  - destruct (extract i content skill_name);
      rewrite lookup_insert_ne by done; by exists v.
Qed.

Lemma process_skills_written (todo : Scanned) (n : pystr) : ∀ i m,
  (∃ v, m !! n = Some v ∧ written_for n v) →
  ∃ v, process_skills config extract i todo m !! n = Some v ∧ written_for n v.
Proof.
  induction todo as [|s todo IH]; intros i m H; [done |].
  simpl. by apply IH, process_skill_written.
Qed.

Lemma process_skills_readable (todo : Scanned) (n content : pystr) : ∀ i m,
  (n, Some content) ∈ todo →
  ∃ v, process_skills config extract i todo m !! n = Some v ∧ written_for n v.
Proof.
  induction todo as [|s todo IH]; intros i m Hin;
    [by apply elem_of_nil in Hin |].
  simpl. apply elem_of_cons in Hin as [<- | Hin]; [| by apply IH].
  apply process_skills_written. simpl.
  destruct (extract i content n) as [metadata|]; rewrite lookup_insert_eq.
  - eexists. split; [done |]. right. by eexists.
  - eexists. split; [done |]. by left.
Qed.

(** With names that occur once, the entry of a readable skill is the one
    written at its own iteration. *)
Lemma process_skills_at (todo : Scanned) (n content : pystr) : ∀ k i m,
  NoDup (map fst todo) →
  todo !! k = Some (n, Some content) →
  process_skills config extract i todo m !! n
  = Some (match extract (i + k)%nat content n with
          | Some metadata => extracted_entry config metadata
          | None => fallback_entry config n
          end).
Proof.
  induction todo as [|s todo IH]; intros k i m Hnd Hk; [done |].
  cbn [map] in Hnd. apply NoDup_cons in Hnd as [Hs Hnd].
  destruct k as [|k]; simpl in Hk.
  - injection Hk as ->. cbn [process_skills fst] in *.
    rewrite process_skills_other.
    + rewrite Nat.add_0_r. simpl.
      destruct (extract i content n); by rewrite lookup_insert_eq.
    + apply Forall_forall. intros s' Hin Heq. apply Hs.
      apply list_elem_of_fmap. by exists s'.
  - cbn [process_skills].
    replace (i + S k)%nat with (S i + k)%nat by lia. by apply IH.
Qed.

Lemma process_skills_unreadable (todo : Scanned) (n : pystr) : ∀ i m,
  Forall (fun s => fst s = n → snd s = None) todo →
  process_skills config extract i todo m !! n = m !! n.
Proof.
  induction todo as [|[k read] todo IH]; intros i m Hall; [done |].
  apply Forall_cons in Hall as [Hs Hall]. simpl in Hs.
  cbn [process_skills]. rewrite IH by done.
  destruct (decide (k = n)) as [Hk | Hk].
  - by rewrite (Hs Hk).
  - by apply process_skill_other.
Qed.

Lemma process_skills_domain (todo : Scanned) (n : pystr) : ∀ i m,
  is_Some (process_skills config extract i todo m !! n)
  ↔ is_Some (m !! n) ∨ ∃ content, (n, Some content) ∈ todo.
Proof.
  induction todo as [|[k read] todo IH]; intros i m.
  - simpl. split; [by left |].
    intros [H | [c Hin]]; [done | by apply elem_of_nil in Hin].
  - cbn [process_skills]. rewrite IH.
    assert (Hstep : is_Some (process_skill config extract i m (k, read) !! n)
                    ↔ is_Some (m !! n) ∨ (k = n ∧ is_Some read)).
    { simpl. destruct read as [content|].
      - destruct (decide (k = n)) as [-> | Hne].
        + destruct (extract i content n); rewrite lookup_insert_eq;
            (split; [intros _; right; split; [done | by eexists]
                    | by eexists]).
        + destruct (extract i content k);
            rewrite lookup_insert_ne by done;
            (split; [by left | by intros [? | [? _]]]).
      - split; [by left |]. by intros [? | [_ [? ?]]]. }
    rewrite Hstep. split.
    + intros [[H | [Hk [c Hc]]] | [c Hin]].
      * by left.
      * subst. right. exists c. left.
      * right. exists c. by right.
    + intros [H | [c Hin]]; [by left; left |].
      apply elem_of_cons in Hin as [[= <- <-] | Hin].
      * left. right. split; [done | by eexists].
      * right. by exists c.
Qed.

End index_entries.

Lemma targeted_NoDup (all_skills : list (pystr * option pystr)) skills_filter :
  NoDup (map fst all_skills) →
  NoDup (map fst (targeted all_skills skills_filter)).
Proof.
  intros Hnd. unfold targeted.
  destruct (bool_decide (skills_filter = [])); [done |].
  eapply sublist_NoDup; [exact Hnd |].
  apply fmap_sublist, sublist_filter.
Qed.

Lemma generate_index_targeted config extract all_skills skills_filter existing :
  generate_index config extract all_skills skills_filter existing
  = if bool_decide (targeted all_skills skills_filter = []) then None
    else
      let index :=
        default (fresh_index config)
          (if bool_decide (skills_filter = []) then None
           else match existing with
                | ArtIndex index => Some index
                | _ => None
                end) in
      Some (mkIndex (idx_header index)
              (process_skills config extract 1
                 (targeted all_skills skills_filter) (idx_skills index))).
Proof. reflexivity. Qed.

(** X22: whenever [generate_index] writes an index, every skill that the
    run targets and whose SKILL.md could be read has an entry in it: the
    entry built from the metadata extracted at the skill's own iteration,
    or the fallback entry when that extraction failed.  (The scanned skills
    are the items of a dict: a name occurs once.) *)
Theorem written_index_covers_targets config extract all_skills skills_filter
  existing index' (n content : pystr) :
  NoDup (map fst all_skills) →
  (n, Some content) ∈ all_skills →
  skills_filter = [] ∨ n ∈ skills_filter →
  generate_index config extract all_skills skills_filter existing
  = Some index' →
  ∃ i,
    targeted all_skills skills_filter !! i = Some (n, Some content)
    ∧ idx_skills index' !! n
      = Some (match extract (S i) content n with
              | Some metadata => extracted_entry config metadata
              | None => fallback_entry config n
              end).
Proof.
  intros Hnd Hin Hsel.
  assert (Hsk : (n, Some content) ∈ targeted all_skills skills_filter).
  { unfold targeted.
    destruct (bool_decide (skills_filter = [])) eqn:E; [done |].
    apply bool_decide_eq_false_1 in E. destruct Hsel as [? | Hn]; [done |].
    apply list_elem_of_filter. split; [| done].
    unfold str_in. by apply bool_decide_pack. }
  apply list_elem_of_lookup_1 in Hsk as [i Hi].
  rewrite generate_index_targeted.
  destruct (bool_decide (targeted all_skills skills_filter = [])); [done |].
  intros [= <-]. exists i. split; [done |]. cbn [idx_skills].
  apply (process_skills_at config extract _ n content i 1);
    [by apply targeted_NoDup | done].
Qed.

Lemma written_index_covers_targets_witness :
  ∃ index' i,
    generate_index
      (mkAIConfig (py "ollama") (py "llama3") [] 20 half 3 2 [py "english"])
      (fun _ _ _ => None) [(py "target", Some (py "text"))] [py "target"]
      ArtMissing
    = Some index'
    ∧ targeted [(py "target", Some (py "text"))] [py "target"] !! i
      = Some (py "target", Some (py "text"))
    ∧ idx_skills index' !! py "target"
      = Some (fallback_entry
                (mkAIConfig (py "ollama") (py "llama3") [] 20 half 3 2
                   [py "english"]) (py "target")).
Proof.
  assert (Hnd : NoDup (map fst [(py "target", Some (py "text"))])).
  { repeat constructor. intros H. by apply elem_of_nil in H. }
  assert (Hin : (py "target", Some (py "text"))
                ∈ [(py "target", Some (py "text"))]) by left.
  assert (Hsel : [py "target"] = [] ∨ py "target" ∈ [py "target"])
    by (right; left).
  destruct (written_index_covers_targets
              (mkAIConfig (py "ollama") (py "llama3") [] 20 half 3 2
                 [py "english"])
              (fun _ _ _ => None) [(py "target", Some (py "text"))]
              [py "target"] ArtMissing _ (py "target") (py "text")
              Hnd Hin Hsel eq_refl) as (i & Hi & He).
  eexists _, i. split; [reflexivity |]. split; [exact Hi | exact He].
Defined.

(** X23: a run of [generate_index] without a filter does not read the
    artifact that was there: its result does not depend on it, and whenever
    it writes an index, the header is the generator's own and the entries
    are exactly those of the skills whose SKILL.md could be read. *)
Theorem full_run_ignores_old_artifact config extract all_skills existing :
  generate_index config extract all_skills [] existing
  = generate_index config extract all_skills [] ArtMissing
  ∧ ∀ index',
      generate_index config extract all_skills [] existing = Some index' →
      idx_header index' = idx_header (fresh_index config)
      ∧ ∀ n : pystr,
          is_Some (idx_skills index' !! n)
          ↔ ∃ content, (n, Some content) ∈ all_skills.
Proof.
  split; [reflexivity |]. intros index'. unfold generate_index.
  rewrite (bool_decide_eq_true_2 ([] = [])) by done.
  destruct (bool_decide (all_skills = [])); [done |].
  intros [= <-]. cbn [default idx_header idx_skills]. split; [done |].
  intros n. rewrite process_skills_domain. simpl. rewrite lookup_empty.
  split; [by intros [[? ?] | ?] | by right].
Qed.

Lemma full_run_ignores_old_artifact_witness :
  ∃ index',
    generate_index
      (mkAIConfig (py "ollama") (py "llama3") [] 20 half 3 2 [py "english"])
      (fun _ _ _ => None) two_skills [] (ArtIndex old_index)
    = Some index'
    ∧ idx_header index'
      = idx_header
          (fresh_index
             (mkAIConfig (py "ollama") (py "llama3") [] 20 half 3 2
                [py "english"])).
Proof.
  eexists. split; [reflexivity |].
  apply (proj2 (full_run_ignores_old_artifact
                  (mkAIConfig (py "ollama") (py "llama3") [] 20 half 3 2
                     [py "english"])
                  (fun _ _ _ => None) two_skills (ArtIndex old_index))).
  reflexivity.
Defined.

(** X24: in a run with a filter over an artifact that parses, the header of
    the artifact is written back as it was, and the entry of a skill whose
    SKILL.md cannot be read is left as it was, targeted or not. *)
Theorem unreadable_target_keeps_entry config extract all_skills skills_filter
  index (n : pystr) :
  skills_filter ≠ [] →
  Forall (fun s => fst s = n → snd s = None) all_skills →
  ∃ index',
    artifact_after config extract all_skills skills_filter (ArtIndex index)
    = ArtIndex index'
    ∧ idx_header index' = idx_header index
    ∧ idx_skills index' !! n = idx_skills index !! n.
Proof.
  intros Hfilter Hall. unfold artifact_after, generate_index.
  rewrite (bool_decide_eq_false_2 (skills_filter = [])) by done.
  match goal with
  | |- context [bool_decide (?l = [])] => destruct (bool_decide (l = []))
  end.
  - by exists index.
  - eexists. split; [reflexivity |]. simpl. split; [done |].
    apply process_skills_unreadable.
    apply Forall_forall. intros s Hs.
    apply list_elem_of_filter in Hs as [_ Hs].
    rewrite Forall_forall in Hall. by apply Hall.
Qed.

Lemma unreadable_target_keeps_entry_witness :
  ∃ index',
    artifact_after
      (mkAIConfig (py "ollama") (py "llama3") [] 20 half 3 2 [py "english"])
      (fun _ _ _ => None)
      [(py "keep-me", None); (py "target", Some (py "text"))]
      [py "keep-me"; py "target"] (ArtIndex old_index)
    = ArtIndex index'
    ∧ idx_header index' = idx_header old_index
    ∧ idx_skills index' !! py "keep-me" = idx_skills old_index !! py "keep-me".
Proof.
  apply (unreadable_target_keeps_entry
           (mkAIConfig (py "ollama") (py "llama3") [] 20 half 3 2
              [py "english"])
           (fun _ _ _ => None)
           [(py "keep-me", None); (py "target", Some (py "text"))]
           [py "keep-me"; py "target"] old_index (py "keep-me")).
  - discriminate.
  - repeat constructor. simpl. intros H. vm_compute in H. discriminate.
Defined.

(** ** The rate limiter over any number of calls *)




(** ** List syntax of the environment *)

Lemma split_char_Forall sep s : ∀ cur,
  Forall (fun c => c ≠ sep) cur →
  Forall (Forall (fun c => c ≠ sep)) (split_char sep s cur).
Proof.
  induction s as [|c s IH]; intros cur Hcur; simpl.
  - by repeat constructor.
  - destruct (c =? sep)%N eqn:E.
    + constructor; [done |]. apply IH. constructor.
    + apply N.eqb_neq in E. apply IH, Forall_app. by repeat constructor.
Qed.

Lemma lstrip_head sep s c rest : lstrip sep s = c :: rest → sep c = false.
Proof.
  induction s as [|x s IH]; simpl; [done |].
  destruct (sep x) eqn:E; [exact IH |]. by intros [= <- _].
Qed.

Lemma lstrip_suffix sep s : ∃ pre, s = pre ++ lstrip sep s.
Proof.
  induction s as [|x s [pre IH]]; simpl; [by exists [] |].
  destruct (sep x).
  - exists (x :: pre). simpl. by f_equal.
  - by exists [].
Qed.

Lemma strip_head sep s c : head (strip sep s) = Some c → sep c = false.
Proof.
  unfold strip.
  destruct (lstrip_suffix sep (rev (lstrip sep s))) as [pre Hpre].
  apply (f_equal (@rev N)) in Hpre.
  rewrite rev_involutive, rev_app_distr in Hpre.
  destruct (rev (lstrip sep (rev (lstrip sep s)))) as [|d t]; [done |].
  simpl. intros [= ->]. simpl in Hpre. by apply lstrip_head in Hpre.
Qed.

Lemma strip_last sep s c : last (strip sep s) = Some c → sep c = false.
Proof.
  unfold strip.
  destruct (lstrip sep (rev (lstrip sep s))) as [|b t] eqn:E; [done |].
  simpl. rewrite last_snoc. intros [= <-]. by apply lstrip_head in E.
Qed.

(** X26: the names that [AIConfig.from_env] reads from a comma-separated
    variable such as [AI_FALLBACK_MODELS] are never empty, contain no comma
    and neither start nor end with whitespace, whatever the variable
    holds. *)
Theorem env_list_clean isspace s :
  Forall (fun m => m ≠ []
                   ∧ (44%N ∉ m)
                   ∧ (∀ c, head m = Some c → isspace c = false)
                   ∧ (∀ c, last m = Some c → isspace c = false))
    (env_list isspace s).
Proof.
  apply Forall_forall. intros m Hin. unfold env_list in Hin.
  apply list_elem_of_omap in Hin as (piece & Hp & Hf).
  destruct (bool_decide (strip isspace piece = [])) eqn:E; [done |].
  apply bool_decide_eq_false_1 in E. injection Hf as <-.
  split; [done |]. split; [| split].
  - pose proof (split_char_Forall 44%N s [] (Forall_nil_2 _)) as Hall.
    rewrite Forall_forall in Hall. specialize (Hall piece Hp).
    apply (strip_Forall isspace) in Hall.
    rewrite Forall_forall in Hall. intros Hc. by apply (Hall _ Hc).
  - intros c. apply strip_head.
  - intros c. apply strip_last.
Qed.
